(** * Localized reduced-basis reductor for IPDG block systems

    A shallow embedding of [src/pymor/reductors/coercive_ipl3dg.py]:
    patch construction, the local model builder, the coupling filter,
    the block projector, the reduce/enrich control loop of
    [CoerciveIPLD3GRBReductor] and the localized error estimator.

    Python exceptions are values of [exn]; a call that may raise returns
    a [result].  Subdomain indices are natural numbers, Python indices
    that may be negative are integers. *)

From Stdlib Require Import ZArith Floats.
From stdpp Require Import base option list gmap sets strings pretty sorting.

Local Open Scope Z_scope.
Local Open Scope nat_scope.
Local Set Warnings "-register-all".

(** ** Exceptions and results *)

Inductive exn : Type :=
  | IndexError
  | KeyError
  | AttributeError
  | AssertionError
  | ValueError
  | NotImplementedError
  | ExtensionError
  | SolverError.

Inductive result (A : Type) : Type :=
  | Ok (a : A)
  | Raise (e : exn).

Arguments Ok {A} a.
Arguments Raise {A} e.

Global Instance result_ret : MRet result := λ A a, Ok a.
Global Instance result_bind : MBind result := λ A B f m,
  match m with
  | Ok a => f a
  | Raise e => Raise e
  end.
Global Instance result_fmap : FMap result := λ A B f m,
  match m with
  | Ok a => Ok (f a)
  | Raise e => Raise e
  end.

(** [for x in xs: acc = body(acc, x)], stopping at the first exception. *)
Fixpoint for_each {A B : Type} (body : B → A → result B) (xs : list A) (acc : B)
  : result B :=
  match xs with
  | [] => Ok acc
  | x :: xs' => acc' ← body acc x; for_each body xs' acc'
  end.

(** [[f(x) for x in xs]], stopping at the first exception. *)
Fixpoint comprehension {A B : Type} (f : A → result B) (xs : list A)
  : result (list B) :=
  match xs with
  | [] => Ok []
  | x :: xs' => y ← f x; ys ← comprehension f xs'; Ok (y :: ys)
  end.

(** ** Python and numpy containers *)

(** [l[i]] for an index known to be non-negative. *)
Definition getitem {A : Type} (l : list A) (i : nat) : result A :=
  match l !! i with
  | Some x => Ok x
  | None => Raise IndexError
  end.

(** [l[i]] for a Python integer: a negative index counts from the end. *)
Definition py_getitem {A : Type} (l : list A) (i : Z) : result A :=
  if decide (0 ≤ i)%Z then getitem l (Z.to_nat i)
  else if decide (- Z.of_nat (length l) ≤ i)%Z
       then getitem l (Z.to_nat (Z.of_nat (length l) + i))
       else Raise IndexError.

(** [a[i][j]] on a two-dimensional array. *)
Definition getitem2 {A : Type} (a : list (list A)) (i j : nat) : result A :=
  row ← getitem a i; getitem row j.

(** [a[i] = v] on a one-dimensional array. *)
Definition setitem {A : Type} (a : list A) (i : nat) (v : A) : result (list A) :=
  if decide (i < length a) then Ok (<[i := v]> a) else Raise IndexError.

(** [a[i][j] = v] on a two-dimensional array. *)
Definition setitem2 {A : Type} (a : list (list A)) (i j : nat) (v : A)
  : result (list (list A)) :=
  row ← getitem a i;
  row' ← setitem row j v;
  Ok (<[i := row']> a).

(** [np.empty(n, dtype=object)] and [np.empty((n, m), dtype=object)]:
    object arrays start filled with [None]. *)
Definition np_empty {A : Type} (n : nat) : list (option A) := replicate n None.
Definition np_empty2 {A : Type} (n m : nat) : list (list (option A)) :=
  replicate n (replicate m None).

(** [np.sort] and [np.unique] on index arrays. *)
Definition np_sort (l : list nat) : list nat := merge_sort Nat.le l.
Definition np_unique (l : list nat) : list nat := np_sort (remove_dups l).

(** ** Strings *)

(** [sub in s] on Python strings: [sub] occurs in [s] as a substring. *)
Fixpoint contains (sub s : string) : bool :=
  if String.prefix sub s then true
  else match s with
       | EmptyString => false
       | String _ s' => contains sub s'
       end.

(** [f'{I}_{J}'] if [I < J] and [f'{J}_{I}'] otherwise. *)
Definition pair_string (I J : nat) : string :=
  if decide (I < J) then pretty I +:+ "_" +:+ pretty J
  else pretty J +:+ "_" +:+ pretty I.

(** ** Operators *)

Section Model.

Context {vec space matrix coef : Type}.

(** Modelled from the spec: pymor's operator classes ([LincombOperator],
    [BlockOperator], [BlockColumnOperator], [IdentityOperator],
    [VectorOperator], [VectorArrayOperator]) are not part of the sources at
    hand.  They are taken as plain data, as the spec's data model has them:
    a block operator is a matrix of optional sub-operators, an affine
    combination is a list of terms next to a list of coefficient
    functionals.  [AssembledOperator] stands for any other (matrix-like)
    operator; every operator has a [name]. *)
Inductive operator : Type :=
  | AssembledOperator (name : string) (data : matrix)
  | IdentityOperator (sp : space)
  | VectorOperator (array : list (list vec))
  | VectorArrayOperator (array : list vec)
  | LincombOperator (operators : list operator) (coefficients : list coef)
  | BlockOperator (blocks : list (list (option operator)))
  | BlockColumnOperator (column : list (option operator)).

(** [op.name]; operators built without a name carry their class name. *)
Definition op_name (op : operator) : string :=
  match op with
  | AssembledOperator name _ => name
  | IdentityOperator _ => "IdentityOperator"
  | VectorOperator _ => "VectorOperator"
  | VectorArrayOperator _ => "VectorArrayOperator"
  | LincombOperator _ _ => "LincombOperator"
  | BlockOperator _ => "BlockOperator"
  | BlockColumnOperator _ => "BlockColumnOperator"
  end.

(** [op.blocks] of a block operator (a two-dimensional object array). *)
Definition op_blocks (op : operator) : result (list (list (option operator))) :=
  match op with
  | BlockOperator blocks => Ok blocks
  | BlockColumnOperator column => Ok ((λ b, [b]) <$> column)
  | _ => Raise AttributeError
  end.

(** [StationaryModel(operator, rhs)]. *)
Record StationaryModel : Type := {
  model_operator : operator;
  model_rhs : operator;
}.

(** ** The local model builder: [construct_local_model] *)

Section construct_local_model.

Variable local_elements : list nat.

(** The closure [local_to_global_mapping]: [return local_elements[i]]. *)
Definition local_to_global_mapping (i : Z) : result nat :=
  py_getitem local_elements i.

(** [for i_, j in enumerate(l): if j == i: return i_] and then [return -1],
    with the enumeration counting from [i_]. *)
Fixpoint scan_elements (i_ : nat) (l : list nat) (i : nat) : Z :=
  match l with
  | [] => (-1)%Z
  | j :: l' => if decide (j = i) then Z.of_nat i_ else scan_elements (S i_) l' i
  end.

(** The closure [global_to_local_mapping]. *)
Definition global_to_local_mapping (i : nat) : Z :=
  scan_elements 0 local_elements i.

Variable blocks_op : list (list (option operator)).
Variable blocks_rhs : list (list (option operator)).
Variable neighbors : nat → list nat.

(** The body of [for J in neighbors(I)]. *)
Definition couple_neighbor (ii I : nat) (patch_op : list (list (option operator)))
    (J : nat) : result (list (list (option operator))) :=
  let jj := global_to_local_mapping J in
  if decide (0 ≤ jj)%Z then
    b ← getitem2 blocks_op I J;
    setitem2 patch_op ii (Z.to_nat jj) b
  else Ok patch_op.

(** The body of [for ii in range(S_patch)]. *)
Definition fill_row
    (acc : list (list (option operator)) * list (option operator)) (ii : nat)
  : result (list (list (option operator)) * list (option operator)) :=
  I ← local_to_global_mapping (Z.of_nat ii);
  d ← getitem2 blocks_op I I;
  patch_op ← setitem2 acc.1 ii ii d;
  r ← getitem2 blocks_rhs I 0;
  patch_rhs ← setitem acc.2 ii r;
  patch_op' ← for_each (couple_neighbor ii I) (neighbors I) patch_op;
  Ok (patch_op', patch_rhs).

Definition assemble_patch
  : result (list (list (option operator)) * list (option operator)) :=
  let S_patch := length local_elements in
  for_each fill_row (seq 0 S_patch) (np_empty2 S_patch S_patch, np_empty S_patch).

End construct_local_model.

Definition construct_local_model (local_elements : list nat)
    (block_op block_rhs : operator) (neighbors : nat → list nat)
  : result (StationaryModel * (Z → result nat) * (nat → Z)) :=
  blocks_op ← op_blocks block_op;
  blocks_rhs ← op_blocks block_rhs;
  '(patch_op, patch_rhs) ← assemble_patch local_elements blocks_op blocks_rhs neighbors;
  Ok ({| model_operator := BlockOperator patch_op;
         model_rhs := BlockColumnOperator patch_rhs |},
      local_to_global_mapping local_elements,
      global_to_local_mapping local_elements).

(** ** The coupling filter: [remove_irrelevant_coupling_from_patch_operator] *)

(** [op.operators] and [op.coefficients]: only an affine combination has them. *)
Definition op_operators (op : operator) : result (list operator) :=
  match op with
  | LincombOperator operators _ => Ok operators
  | _ => Raise AttributeError
  end.

Definition op_coefficients (op : operator) : result (list coef) :=
  match op with
  | LincombOperator _ coefficients => Ok coefficients
  | _ => Raise AttributeError
  end.

(** [np.sum(string in op.name for string in strings)]: on a generator
    [np.sum] is the builtin [sum], here the number of strings found. *)
Definition count_matches (strings : list string) (name : string) : nat :=
  sum_list ((λ s, if contains s name then 1 else 0) <$> strings).

(** The condition under which a term of a diagonal block is appended. *)
Definition keep_term (strings : list string) (op : operator) : bool :=
  contains "volume" (op_name op) || contains "boundary" (op_name op)
  || negb (count_matches strings (op_name op) =? 0).

(** The [else] branch of the loop body, for a diagonal block [block]. *)
Definition filter_diagonal (mapping_to_global : Z → result nat) (subspaces i : nat)
    (block : operator) : result operator :=
  I ← mapping_to_global (Z.of_nat i);
  element_patch ← comprehension (λ l, mapping_to_global (Z.of_nat l)) (seq 0 subspaces);
  let strings := (λ J, pair_string I J) <$> element_patch in
  operators ← op_operators block;
  coefficients ← op_coefficients block;
  let kept := filter (λ oc, keep_term strings oc.1) (zip operators coefficients) in
  Ok (LincombOperator (kept.*1) (kept.*2)).

(** The body of the two nested loops over [range(subspaces)]. *)
Definition filter_block (mapping_to_global : Z → result nat) (subspaces : nat)
    (blocks : list (list (option operator))) (i : nat)
    (acc : list (list (option operator))) (j : nat)
  : result (list (list (option operator))) :=
  b ← getitem2 blocks i j;
  if decide (i ≠ j) then
    match b with
    | Some op => setitem2 acc i j (Some op)
    | None => Ok acc
    end
  else
    match b with
    | Some op =>
        new ← filter_diagonal mapping_to_global subspaces i op;
        setitem2 acc i i (Some new)
    | None => Ok acc
    end.

Definition remove_irrelevant_coupling_from_patch_operator
    (patch_model : StationaryModel) (mapping_to_global : Z → result nat)
  : result operator :=
  let local_op := model_operator patch_model in
  blocks ← op_blocks local_op;
  let subspaces := length blocks in
  ops_without_outside_coupling ←
    for_each (λ acc i,
                for_each (filter_block mapping_to_global subspaces blocks i)
                         (seq 0 subspaces) acc)
             (seq 0 subspaces) (np_empty2 subspaces subspaces);
  Ok (BlockOperator ops_without_outside_coupling).


(** ** The block projector: [project_block_operator], [project_block_rhs] *)

Section projector.

(** [pymor.algorithms.projection.project(op, range_basis, source_basis)] is
    an external collaborator, as is the [space] attribute of a basis. *)
Variable project : operator → list vec → option (list vec) → operator.
Variable array_space : list vec → space.

(** [np.empty_like(a)] for object arrays. *)
Definition np_empty_like2 (a : list (list (option operator)))
  : list (list (option operator)) :=
  (λ row : list (option operator), np_empty (length row)) <$> a.
Definition np_empty_like (a : list (option operator)) : list (option operator) :=
  np_empty (length a).

Definition project_identity_row (range_bases : list (list vec))
    (acc : list (list (option operator))) (I : nat)
  : result (list (list (option operator))) :=
  basis ← getitem range_bases I;
  setitem2 acc I I (Some (project (IdentityOperator (array_space basis)) basis (Some basis))).

Definition project_block_entry (blocks : list (list (option operator)))
    (local_basis_I : list vec) (source_bases : list (list vec)) (I : nat)
    (acc : list (list (option operator))) (J : nat)
  : result (list (list (option operator))) :=
  local_basis_J ← getitem source_bases J;
  b ← getitem2 blocks I J;
  match b with
  | Some op => setitem2 acc I J (Some (project op local_basis_I (Some local_basis_J)))
  | None => Ok acc
  end.

Definition project_block_row (blocks : list (list (option operator)))
    (range_bases source_bases : list (list vec))
    (acc : list (list (option operator))) (I : nat)
  : result (list (list (option operator))) :=
  local_basis_I ← getitem range_bases I;
  for_each (project_block_entry blocks local_basis_I source_bases I)
           (seq 0 (length source_bases)) acc.

Definition _project_block_operator (op : operator)
    (range_bases source_bases : list (list vec)) : result operator :=
  local_projected_op ←
    match op with
    | IdentityOperator _ =>
        for_each (project_identity_row range_bases) (seq 0 (length range_bases))
                 (np_empty2 (length range_bases) (length source_bases))
    | BlockOperator blocks =>
        for_each (project_block_row blocks range_bases source_bases)
                 (seq 0 (length range_bases)) (np_empty_like2 blocks)
    | _ => Raise NotImplementedError
    end;
  Ok (BlockOperator local_projected_op).

Definition project_block_operator (op : operator)
    (range_bases source_bases : list (list vec)) : result operator :=
  match op with
  | LincombOperator operators coefficients =>
      projected ← comprehension
        (λ o, _project_block_operator o range_bases source_bases) operators;
      Ok (LincombOperator projected coefficients)
  | _ => _project_block_operator op range_bases source_bases
  end.

Definition project_vector_row (rhs_blocks : list (list vec))
    (range_bases : list (list vec)) (acc : list (option operator)) (I : nat)
  : result (list (option operator)) :=
  block ← getitem rhs_blocks I;
  basis ← getitem range_bases I;
  setitem acc I (Some (project (VectorArrayOperator block) basis None)).

(** [project(rhs.blocks[I, 0], range_bases[I], None)]; an absent block has
    no attributes for [project] to read. *)
Definition project_column_row (column : list (option operator))
    (range_bases : list (list vec)) (acc : list (option operator)) (I : nat)
  : result (list (option operator)) :=
  b ← getitem column I;
  basis ← getitem range_bases I;
  match b with
  | Some op => setitem acc I (Some (project op basis None))
  | None => Raise AttributeError
  end.

Definition _project_block_rhs (rhs : operator) (range_bases : list (list vec))
  : result operator :=
  local_projected_rhs ←
    match rhs with
    | VectorOperator rhs_blocks =>
        for_each (project_vector_row rhs_blocks range_bases)
                 (seq 0 (length range_bases)) (np_empty (length rhs_blocks))
    | BlockColumnOperator column =>
        for_each (project_column_row column range_bases)
                 (seq 0 (length range_bases)) (np_empty_like column)
    | _ => Raise NotImplementedError
    end;
  Ok (BlockColumnOperator local_projected_rhs).

Definition project_block_rhs (rhs : operator) (range_bases : list (list vec))
  : result operator :=
  match rhs with
  | LincombOperator operators coefficients =>
      projected ← comprehension (λ o, _project_block_rhs o range_bases) operators;
      Ok (LincombOperator projected coefficients)
  | _ => _project_block_rhs rhs range_bases
  end.

End projector.

(** Whether an operator is an affine combination. *)
Definition is_lincomb (op : operator) : bool :=
  match op with
  | LincombOperator _ _ => true
  | _ => false
  end.


End Model.

(** ** The domain-decomposition grid and the patch constructor *)

(** The grid is an external collaborator: a subdomain count and an
    adjacency query. *)
Record DDGrid : Type := {
  num_subdomains : nat;
  neighbors : nat → list nat;
}.

(** The test and update applied to a candidate [nnn] in
    [construct_element_patches]:
    [if nnn not in nh and len(set(neighbors(nnn)).intersection(nh)) == 2:
         nh.add(nnn)]. *)
Definition examine (dd_grid : DDGrid) (nh : gset nat) (nnn : nat) : gset nat :=
  if decide ((nnn ∉ nh) ∧ size (list_to_set (neighbors dd_grid nnn) ∩ nh) = 2)
  then nh ∪ {[nnn]}
  else nh.

(** The set [nh] before the two nested loops. *)
Definition initial_patch (dd_grid : DDGrid) (ss : nat) : gset nat :=
  {[ss]} ∪ list_to_set (neighbors dd_grid ss).

(** The set [nh] built for subdomain [ss]. *)
Definition element_patch (dd_grid : DDGrid) (ss : nat) : gset nat :=
  foldl (λ nh nn, foldl (examine dd_grid) nh (neighbors dd_grid nn))
        (initial_patch dd_grid ss) (neighbors dd_grid ss).

(** [tuple(nh)] enumerates the set once each, in an order Python does not
    specify; [elements] is such an enumeration. *)
Definition construct_element_patches (dd_grid : DDGrid) : list (list nat) :=
  (λ ss, elements (element_patch dd_grid ss)) <$> seq 0 (num_subdomains dd_grid).

(** The candidates [nnn] in the order the nested loops examine them, and the
    set [nh] at the moment the [k]-th of them is examined. *)
Definition examined (dd_grid : DDGrid) (ss : nat) : list nat :=
  neighbors dd_grid ss ≫= neighbors dd_grid.

Definition patch_before (dd_grid : DDGrid) (ss k : nat) : gset nat :=
  foldl (examine dd_grid) (initial_patch dd_grid ss) (take k (examined dd_grid ss)).

(** A Python [dict] with integer keys: the items in insertion order, the
    keys pairwise distinct. *)
Abbreviation dict V := (list (nat * V)).

Definition dict_keys {V : Type} (d : dict V) : list nat := d.*1.

(** [d[k]]. *)
Fixpoint dict_getitem {V : Type} (d : dict V) (k : nat) : result V :=
  match d with
  | [] => Raise KeyError
  | (k', v) :: d' => if decide (k' = k) then Ok v else dict_getitem d' k
  end.

(** The node patches of a structured grid.  [domain_ids] is
    [np.arange(num_subdomains).reshape((n, n))] with
    [n = int(np.sqrt(num_subdomains))], so [domain_ids[i, j] = i * n + j];
    the reshape raises unless [n * n = num_subdomains]. *)
Definition construct_inner_node_patches (dd_grid : DDGrid) : result (dict (list nat)) :=
  let n := Nat.sqrt (num_subdomains dd_grid) in
  if decide (n * n = num_subdomains dd_grid) then
    Ok (i ← seq 0 (n - 1);
        j ← seq 0 (n - 1);
        [(i * n + j,
          [i * n + j; i * n + (j + 1); (i + 1) * n + j; (i + 1) * n + (j + 1)])])
  else Raise ValueError.

(** The estimator domains.  [domains] is a dict, so every key is met once
    and [new_domains[i] = ...] adds the items in the same order. *)
Definition add_element_neighbors (dd_grid : DDGrid) (domains : dict (list nat))
  : dict (list nat) :=
  (λ '(i, elements),
     let elements_and_all_neighbors := elements ≫= neighbors dd_grid in
     (i, np_sort (np_unique elements_and_all_neighbors))) <$> domains.

(** The patch models and patch mappings the constructor builds, one per
    element patch:
    [for element_patch in self.element_patches: ... .append(...)]. *)
Definition init_patches {vec space matrix coef : Type} (dd_grid : DDGrid)
    (fom_operator fom_rhs : @operator vec space matrix coef)
  : result (list (@StationaryModel vec space matrix coef) *
            list (Z → result nat) * list (nat → Z)) :=
  for_each
    (λ '(patch_models, patch_mappings_to_global, patch_mappings_to_local) element_patch,
       '(patch_model, local_to_global, global_to_local) ←
         construct_local_model element_patch fom_operator fom_rhs (neighbors dd_grid);
       Ok (patch_models ++ [patch_model],
           patch_mappings_to_global ++ [local_to_global],
           patch_mappings_to_local ++ [global_to_local]))
    (construct_element_patches dd_grid) ([], [], []).


(** ** The reductor: [CoerciveIPLD3GRBReductor] *)

Section Reductor.

Context {vec space matrix coef : Type}.
Local Abbreviation operator := (@operator vec space matrix coef).
Local Abbreviation StationaryModel := (@StationaryModel vec space matrix coef).

(** The numerical collaborators of the reductor, none of which touches the
    reductor's attributes: the inherited [_reduce], which builds a ROM from
    the current local bases; parameter parsing; the ROM's and a patch
    model's [solve]; [VectorArray.lincomb]; [Operator.apply]; the
    difference of two operators; and membership in the solution space of
    the full-order model. *)
Class Collaborators : Type := {
  rom_data : Type;
  coefficients : Type;
  parameter : Type;
  parsed_parameter : Type;
  inherited_reduce : list (list vec) → result rom_data;
  parameters_parse : parameter → result parsed_parameter;
  rom_solve : rom_data → parameter → result (list coefficients);
  lincomb : list vec → coefficients → result (list vec);
  op_apply : operator → list (list vec) → parsed_parameter → result (list (list vec));
  op_sub : operator → operator → operator;
  model_solve : StationaryModel → parameter → result (list (list vec));
  in_solution_space : list (list vec) → bool;
}.

(** Modelled from the spec: the basis extension primitive
    [pymor.reductors.basic.extend_basis], which is not part of the sources
    at hand.  It extends a basis in place by an orthogonalized vector and may
    fail on near-linear dependence; a basis never shrinks, and on failure it
    does not grow.  [extend_basis U basis] gives the outcome of the call and
    the basis object as the call leaves it. *)
Class ExtensionPrimitive : Type := {
  extend_basis : list vec → list vec → result () * list vec;
  extend_basis_failure : ∀ U basis e basis',
    extend_basis U basis = (Raise e, basis') → length basis' = length basis;
}.

Context `{Collaborators} `{ExtensionPrimitive}.

(** A ROM object: what [_reduce] built, and which call of [_reduce] built
    it (its identity as an object). *)
Record ROM : Type := {
  rom_id : nat;
  rom_content : rom_data;
}.

(** The attributes of a reductor.  The local bases are vector-array objects
    extended in place: [local_bases] holds references into [heap].
    [_last_rom_dims] and [reduced_local_bases] do not exist before the first
    rebuild.  [reduce_calls] counts the calls of [_reduce] and [stdout]
    collects what is printed.  The element patches, the node patches and the
    residual reductors of the estimator are read by no method modelled here
    and are left out. *)
Record reductor : Type := {
  S_ : nat;
  fom_operator : operator;
  heap : gmap nat (list vec);
  local_bases : list nat;
  _last_rom : option ROM;
  _last_rom_dims : option nat;
  reduced_local_bases : option (list (list vec));
  patch_models : list StationaryModel;
  patch_mappings_to_global : list (Z → result nat);
  patch_mappings_to_local : list (nat → Z);
  estimator_domains : dict (list nat);
  reduce_calls : nat;
  stdout : list string;
}.

Definition set_heap (h : gmap nat (list vec)) (r : reductor) : reductor :=
  {| S_ := S_ r; fom_operator := fom_operator r; heap := h;
     local_bases := local_bases r; _last_rom := _last_rom r;
     _last_rom_dims := _last_rom_dims r;
     reduced_local_bases := reduced_local_bases r;
     patch_models := patch_models r;
     patch_mappings_to_global := patch_mappings_to_global r;
     patch_mappings_to_local := patch_mappings_to_local r;
     estimator_domains := estimator_domains r;
     reduce_calls := reduce_calls r; stdout := stdout r |}.

Definition set_last_rom (rom : ROM) (r : reductor) : reductor :=
  {| S_ := S_ r; fom_operator := fom_operator r; heap := heap r;
     local_bases := local_bases r; _last_rom := Some rom;
     _last_rom_dims := _last_rom_dims r;
     reduced_local_bases := reduced_local_bases r;
     patch_models := patch_models r;
     patch_mappings_to_global := patch_mappings_to_global r;
     patch_mappings_to_local := patch_mappings_to_local r;
     estimator_domains := estimator_domains r;
     reduce_calls := reduce_calls r; stdout := stdout r |}.

Definition set_last_rom_dims (dims : nat) (r : reductor) : reductor :=
  {| S_ := S_ r; fom_operator := fom_operator r; heap := heap r;
     local_bases := local_bases r; _last_rom := _last_rom r;
     _last_rom_dims := Some dims;
     reduced_local_bases := reduced_local_bases r;
     patch_models := patch_models r;
     patch_mappings_to_global := patch_mappings_to_global r;
     patch_mappings_to_local := patch_mappings_to_local r;
     estimator_domains := estimator_domains r;
     reduce_calls := reduce_calls r; stdout := stdout r |}.

Definition set_reduced_local_bases (bases : list (list vec)) (r : reductor) : reductor :=
  {| S_ := S_ r; fom_operator := fom_operator r; heap := heap r;
     local_bases := local_bases r; _last_rom := _last_rom r;
     _last_rom_dims := _last_rom_dims r;
     reduced_local_bases := Some bases;
     patch_models := patch_models r;
     patch_mappings_to_global := patch_mappings_to_global r;
     patch_mappings_to_local := patch_mappings_to_local r;
     estimator_domains := estimator_domains r;
     reduce_calls := reduce_calls r; stdout := stdout r |}.

Definition count_reduce_call (r : reductor) : reductor :=
  {| S_ := S_ r; fom_operator := fom_operator r; heap := heap r;
     local_bases := local_bases r; _last_rom := _last_rom r;
     _last_rom_dims := _last_rom_dims r;
     reduced_local_bases := reduced_local_bases r;
     patch_models := patch_models r;
     patch_mappings_to_global := patch_mappings_to_global r;
     patch_mappings_to_local := patch_mappings_to_local r;
     estimator_domains := estimator_domains r;
     reduce_calls := S (reduce_calls r); stdout := stdout r |}.

Definition write_stdout (line : string) (r : reductor) : reductor :=
  {| S_ := S_ r; fom_operator := fom_operator r; heap := heap r;
     local_bases := local_bases r; _last_rom := _last_rom r;
     _last_rom_dims := _last_rom_dims r;
     reduced_local_bases := reduced_local_bases r;
     patch_models := patch_models r;
     patch_mappings_to_global := patch_mappings_to_global r;
     patch_mappings_to_local := patch_mappings_to_local r;
     estimator_domains := estimator_domains r;
     reduce_calls := reduce_calls r; stdout := stdout r ++ [line] |}.

(** Methods run on the reductor's state; an exception leaves the state as
    it was when the exception was raised. *)
Definition method (A : Type) : Type := reductor → result A * reductor.

Global Instance method_ret : MRet method := λ A a r, (Ok a, r).
Global Instance method_bind : MBind method := λ A B f m r,
  match m r with
  | (Ok a, r') => f a r'
  | (Raise e, r') => (Raise e, r')
  end.

(** A computation that reads the state and changes nothing. *)
Definition reading {A : Type} (f : reductor → result A) : method A :=
  λ r, (f r, r).

Definition modify (f : reductor → reductor) : method () :=
  λ r, (Ok (), f r).

Definition print (line : string) : method () := modify (write_stdout line).

(** [for x in xs: body(x)] on the state. *)
Fixpoint for_each_method {A : Type} (body : A → method ()) (xs : list A) : method () :=
  match xs with
  | [] => mret ()
  | x :: xs' => body x;; for_each_method body xs'
  end.

(** [self.local_bases[I]], the vector array behind the reference. *)
Definition local_basis (r : reductor) (I : nat) : result (list vec) :=
  ref ← getitem (local_bases r) I;
  match heap r !! ref with
  | Some basis => Ok basis
  | None => Raise KeyError
  end.

(** [basis_length]: [[len(self.local_bases[I]) for I in range(self.S)]]. *)
Definition basis_length (r : reductor) : result (list nat) :=
  comprehension (λ I, basis ← local_basis r I; Ok (length basis)) (seq 0 (S_ r)).

(** The vector arrays behind [self.local_bases], as [_reduce] reads them
    and as [deepcopy(self.local_bases)] copies them. *)
Definition deepcopy_local_bases (r : reductor) : result (list (list vec)) :=
  comprehension (local_basis r) (seq 0 (length (local_bases r))).

(** The body of the [if] in [reduce]. *)
Definition rebuild : method () :=
  modify count_reduce_call;;
  bases ← reading deepcopy_local_bases;
  content ← reading (λ _, inherited_reduce bases);
  calls ← reading (λ r, Ok (reduce_calls r));
  modify (set_last_rom {| rom_id := calls; rom_content := content |});;
  lengths ← reading basis_length;
  modify (set_last_rom_dims (sum_list lengths));;
  snapshot ← reading deepcopy_local_bases;
  modify (set_reduced_local_bases snapshot).

(** The condition of the [if] in [reduce]:
    [self._last_rom is None or sum(self.basis_length()) > self._last_rom_dims]. *)
Definition must_rebuild : method bool :=
  reading (λ r,
    match _last_rom r with
    | None => Ok true
    | Some _ =>
        lengths ← basis_length r;
        match _last_rom_dims r with
        | Some dims => Ok (bool_decide (dims < sum_list lengths))
        | None => Raise AttributeError
        end
    end).

(** [self._last_rom], for a use that needs a ROM. *)
Definition last_rom : method ROM :=
  reading (λ r,
    match _last_rom r with
    | Some rom => Ok rom
    | None => Raise AttributeError
    end).

Definition reduce {D : Type} (dims : option D) : method ROM :=
  match dims with
  | Some _ => reading (λ _, Raise AssertionError)
  | None =>
      stale ← must_rebuild;
      (if stale : bool then rebuild else mret ());;
      last_rom
  end.

(** [try: extend_basis(u, self.local_bases[I])  except: print(...)] *)
Definition try_extend (I : nat) (u : list vec) : method () := λ r,
  match getitem (local_bases r) I with
  | Raise _ => print "Extension failed" r
  | Ok ref =>
      match heap r !! ref with
      | None => print "Extension failed" r
      | Some basis =>
          let '(outcome, basis') := extend_basis u basis in
          let r' := set_heap (<[ref := basis']> (heap r)) r in
          match outcome with
          | Ok _ => (Ok (), r')
          | Raise _ => print "Extension failed" r'
          end
      end
  end.

Definition add_local_solutions (I : nat) (u : list vec) : method () :=
  try_extend I u.

(** [us] is the block vector array of the global solutions;
    [us.block(I)] is its block [I]. *)
Definition add_global_solutions (us : list (list vec)) : method () :=
  reading (λ _, if in_solution_space us then Ok () else Raise AssertionError);;
  S ← reading (λ r, Ok (S_ r));
  for_each_method
    (λ I, us_block ← reading (λ _, getitem us I); try_extend I us_block)
    (seq 0 S).

(** [reconstruct]: the ROM solution in the snapshot bases of the ROM. *)
Definition reconstruct (u_rom : list coefficients) : method (list (list vec)) :=
  reading (λ r,
    comprehension
      (λ I,
         bases ← match reduced_local_bases r with
                 | Some bases => Ok bases
                 | None => Raise AttributeError
                 end;
         basis ← getitem bases I;
         u_I ← getitem u_rom I;
         lincomb basis u_I)
      (seq 0 (S_ r))).

(** [len(patch_model.operator.range.subspaces)]: the number of block rows. *)
Definition range_subspaces (patch_model : StationaryModel) : result nat :=
  blocks ← op_blocks (model_operator patch_model);
  Ok (length blocks).

(** The first branch: the interaction term from the global operator. *)
Definition global_interaction (current_solution : list coefficients)
    (mu_parsed : parsed_parameter) (patch_model : StationaryModel)
    (mapping_to_global : Z → result nat) : method operator :=
  print "Warning: you are using the global operator here";;
  current_solution_h ← reconstruct current_solution;
  a_u_v_global ← reading (λ r, op_apply (fom_operator r) current_solution_h mu_parsed);
  n ← reading (λ _, range_subspaces patch_model);
  a_u_v_restricted_to_patch ← reading (λ _,
    comprehension
      (λ i, i_global ← mapping_to_global (Z.of_nat i); getitem a_u_v_global i_global)
      (seq 0 n));
  mret (VectorOperator a_u_v_restricted_to_patch).

(** The second branch: the interaction term from the filtered patch operator. *)
Definition patch_interaction (current_solution : list coefficients)
    (mu_parsed : parsed_parameter) (patch_model : StationaryModel)
    (mapping_to_global : Z → result nat) : method operator :=
  n ← reading (λ _, range_subspaces patch_model);
  current_solution_on_patch ← reading (λ r,
    comprehension
      (λ i_loc,
         i_global ← mapping_to_global (Z.of_nat i_loc);
         bases ← match reduced_local_bases r with
                 | Some bases => Ok bases
                 | None => Raise AttributeError
                 end;
         basis ← getitem bases i_global;
         u_I ← getitem current_solution i_global;
         lincomb basis u_I)
      (seq 0 n));
  new_op ← reading (λ _,
    remove_irrelevant_coupling_from_patch_operator patch_model mapping_to_global);
  a_u_v ← reading (λ _, op_apply new_op current_solution_on_patch mu_parsed);
  mret (VectorOperator a_u_v).

(** [if self._last_rom is None: _ = self.reduce()] *)
Definition ensure_rom : method () := λ r,
  match _last_rom r with
  | None => (_ ← reduce (D:=()) None; mret ()) r
  | Some _ => (Ok (), r)
  end.

(** [enrich_locally] up to the call of [add_local_solutions]: the solution
    [phi] of the corrected patch problem and its block
    [phi.block(mapping_to_local(I))]. *)
Definition solve_correction (I : nat) (mu : parameter) (use_global_matrix : bool)
  : method (list (list vec) * list vec) :=
  ensure_rom;;
  mu_parsed ← reading (λ _, parameters_parse mu);
  rom ← last_rom;
  current_solution ← reading (λ _, rom_solve (rom_content rom) mu);
  mapping_to_global ← reading (λ r, getitem (patch_mappings_to_global r) I);
  mapping_to_local ← reading (λ r, getitem (patch_mappings_to_local r) I);
  patch_model ← reading (λ r, getitem (patch_models r) I);
  a_u_v_as_operator ←
    (if use_global_matrix
     then global_interaction current_solution mu_parsed patch_model mapping_to_global
     else patch_interaction current_solution mu_parsed patch_model mapping_to_global);
  let patch_model_with_correction :=
    {| model_operator := model_operator patch_model;
       model_rhs := op_sub (model_rhs patch_model) a_u_v_as_operator |} in
  phi ← reading (λ _, model_solve patch_model_with_correction mu);
  u ← reading (λ _, py_getitem phi (mapping_to_local I));
  mret (phi, u).

Definition enrich_locally (I : nat) (mu : parameter) (use_global_matrix : bool)
  : method (list (list vec)) :=
  '(phi, u) ← solve_correction I mu use_global_matrix;
  add_local_solutions I u;;
  mret phi.

Definition enrich_all_locally (mu : parameter) (use_global_matrix : bool) : method () :=
  S ← reading (λ r, Ok (S_ r));
  for_each_method (λ I, _ ← enrich_locally I mu use_global_matrix; mret ()) (seq 0 S).

(** [from_patch_to_global]: a globally defined [u] from a patch [u].
    [ones i] is [self.solution_space.subspaces[i].ones() * 1e-4], the
    block of a subdomain outside the patch. *)
Definition from_patch_to_global (ones : nat → list vec) (I : nat)
    (u_patch : list (list vec)) : method (list (list vec)) :=
  reading (λ r,
    comprehension
      (λ i,
         mapping_to_local ← getitem (patch_mappings_to_local r) I;
         let i_loc := mapping_to_local i in
         if decide (0 ≤ i_loc)%Z then py_getitem u_patch i_loc else Ok (ones i))
      (seq 0 (S_ r))).


(** The calls a driver can make on a reductor, and a sequence of them. *)
Inductive call : Type :=
  | CallReduce
  | CallEnrichLocally (I : nat) (mu : parameter) (use_global_matrix : bool)
  | CallEnrichAllLocally (mu : parameter) (use_global_matrix : bool)
  | CallAddLocalSolutions (I : nat) (u : list vec)
  | CallAddGlobalSolutions (us : list (list vec)).

Definition run_call (c : call) (r : reductor) : reductor :=
  match c with
  | CallReduce => (reduce (D:=()) None r).2
  | CallEnrichLocally i mu g => (enrich_locally i mu g r).2
  | CallEnrichAllLocally mu g => (enrich_all_locally mu g r).2
  | CallAddLocalSolutions i u => (add_local_solutions i u r).2
  | CallAddGlobalSolutions us => (add_global_solutions us r).2
  end.

Definition run_calls (cs : list call) (r : reductor) : reductor :=
  foldl (λ r c, run_call c r) r cs.

End Reductor.


(** ** The localized error estimator: [EllipticIPLRBEstimator] *)

(** The floating-point operations the estimator uses: [0.0], [+], [x**2],
    [np.sqrt] on a number and [np.linalg.norm] on a list of numbers. *)
Class Numeric (num : Type) : Type := {
  num_zero : num;
  num_add : num → num → num;
  num_square : num → num;
  num_sqrt : num → num;
  num_norm : list num → num;
}.

(** What a numpy expression evaluates to: a number or a one-dimensional
    array. *)
Inductive ndvalue (num : Type) : Type :=
  | Scalar (x : num)
  | Array (xs : list num).

Arguments Scalar {num} x.
Arguments Array {num} xs.

(** [np.sqrt(v)]: on an array it is taken entry by entry. *)
Definition np_sqrt `{Numeric num} (v : ndvalue num) : ndvalue num :=
  match v with
  | Scalar x => Scalar (num_sqrt x)
  | Array xs => Array (num_sqrt <$> xs)
  end.

(** The builtin [sum(a)] on a one-dimensional array: [0 + a[0] + a[1] + ...],
    a number. *)
Definition py_sum `{Numeric num} (a : list num) : ndvalue num :=
  Scalar (foldl num_add num_zero a).

Section Estimator.

Context {num : Type} `{Numeric num}.

(** [residual], [solution] and [parameter] are the collaborators' data;
    [block_norm residual elements u_rom mu el] is
    [residual.apply(u_rom.block(elements), mu).block(el).norm()], with the
    residual operator of one estimator domain.  The line the loop prints
    for every domain is left out. *)
Context {residual solution parameter : Type}.
Variable block_norm : residual → list nat → solution → parameter → Z → result num.

Record EllipticIPLRBEstimator : Type := {
  est_estimator_domains : dict (list nat);
  est_local_residuals : list residual;
  est_domains : nat;
  est_mappings : list (nat → Z);
  est_inner_node_patches : dict (list nat);
}.

(** The body of the first loop, for one estimator domain. *)
Definition indicator (u_rom : solution) (mu : parameter)
    (item : nat * list nat * residual * (nat → Z) * (nat * list nat)) : result num :=
  let '(_, elements, residual, mapping, (_, inner_elements)) := item in
  let locally_inner_elements := mapping <$> inner_elements in
  res_on_node_patch ←
    comprehension (block_norm residual elements u_rom mu) locally_inner_elements;
  Ok (num_norm res_on_node_patch).

(** [ests[sd] += ind**2] *)
Definition add_square (ind : num) (ests : list num) (sd : nat) : result (list num) :=
  old ← getitem ests sd;
  setitem ests sd (num_add old (num_square ind)).

(** The body of the second loop, for one estimator domain. *)
Definition distribute (self : EllipticIPLRBEstimator) (ests : list num)
    (item : nat * num) : result (list num) :=
  let '(associated_domain, ind) := item in
  ed ← dict_getitem (est_estimator_domains self) associated_domain;
  for_each (add_square ind) ed ests.

(** The vector [ests] after the second loop: one entry per subdomain. *)
Definition distributed (self : EllipticIPLRBEstimator) (indicators : list num)
  : result (list num) :=
  for_each (distribute self)
    (zip (merge_sort Nat.le (dict_keys (est_estimator_domains self))) indicators)
    (replicate (est_domains self) num_zero).

Definition estimate_error (self : EllipticIPLRBEstimator) (u_rom : solution)
    (mu : parameter) : result (num * list num * ndvalue num) :=
  indicators ←
    comprehension (indicator u_rom mu)
      (zip (zip (zip (est_estimator_domains self) (est_local_residuals self))
                (est_mappings self))
           (est_inner_node_patches self));
  ests ← distributed self indicators;
  let ests := np_sqrt (py_sum ests) in
  Ok (num_norm indicators, indicators, ests).

End Estimator.


(** ** Small instances *)

(** Two subdomains side by side.  Vectors, matrices and coefficients are
    integers; the diagonal blocks are affine combinations of named terms. *)
Definition term (name : string) (k : nat) : @operator Z () nat Z :=
  AssembledOperator name k.

Definition two_blocks : list (list (option (@operator Z () nat Z))) :=
  [[Some (LincombOperator [term "volume_0" 0; term "boundary_0" 1; term "coupling_0_1" 2]
                          [1; 1; 10]%Z);
    Some (term "coupling_0_1" 3)];
   [Some (term "coupling_0_1" 4);
    Some (LincombOperator [term "volume_1" 5; term "coupling_0_1" 6; term "coupling_1_2" 7]
                          [1; 10; 10]%Z)]].

Definition two_column : list (option (@operator Z () nat Z)) :=
  [Some (term "rhs_0" 8); Some (term "rhs_1" 9)].

Definition two_neighbors (k : nat) : list nat :=
  match k with
  | 0 => [1]
  | 1 => [0]
  | _ => []
  end.

(** [project] and the [space] attribute, for the instances: an operator
    stands for its own projection. *)
Definition sample_project (op : @operator Z () nat Z) (range_basis : list Z)
    (source_basis : option (list Z)) : @operator Z () nat Z := op.
Definition sample_space (basis : list Z) : () := ().

(** Collaborators that compute with integers: the ROM records the bases it
    was built from, a solve returns the parameter in every component. *)
Global Instance sample_collaborators : @Collaborators Z () nat Z := {|
  rom_data := list (list Z);
  coefficients := list Z;
  parameter := Z;
  parsed_parameter := Z;
  inherited_reduce := λ bases, Ok bases;
  parameters_parse := λ mu, Ok mu;
  rom_solve := λ rom mu, Ok ((λ basis : list Z, (λ _, mu) <$> basis) <$> rom);
  lincomb := λ basis u, Ok [foldr Z.add 0%Z (zip_with Z.mul basis u)];
  op_apply := λ op U mu, Ok U;
  op_sub := λ a b, a;
  model_solve := λ m mu,
    match op_blocks (model_operator m) with
    | Ok blocks => Ok ((λ _, [mu]) <$> blocks)
    | Raise e => Raise e
    end;
  in_solution_space := λ us, bool_decide (length us = 2);
|}.

(** An extension primitive on integer vectors: a vector already in the
    basis cannot extend it. *)
Definition sample_extend (U basis : list Z) : result () * list Z :=
  match filter (λ v, v ∉ basis) U with
  | [] => (Raise ExtensionError, basis)
  | new => (Ok (), basis ++ new)
  end.

Lemma sample_extend_failure (U basis : list Z) (e : exn) (basis' : list Z) :
  sample_extend U basis = (Raise e, basis') → length basis' = length basis.
Proof. unfold sample_extend. destruct (filter _ U); congruence. Qed.

Global Instance sample_extension : @ExtensionPrimitive Z := {|
  extend_basis := sample_extend;
  extend_basis_failure := sample_extend_failure;
|}.

Definition two_patch_model : @StationaryModel Z () nat Z :=
  {| model_operator := BlockOperator two_blocks;
     model_rhs := BlockColumnOperator two_column |}.

(** A reductor on the two subdomains, before any [reduce]: the basis of
    subdomain 0 holds the vector 5, the basis of subdomain 1 is empty. *)
Definition two_reductor : @reductor Z () nat Z sample_collaborators :=
  {| S_ := 2;
     fom_operator := BlockOperator two_blocks;
     heap := {[ 0 := [5%Z]; 1 := [] ]};
     local_bases := [0; 1];
     _last_rom := None;
     _last_rom_dims := None;
     reduced_local_bases := None;
     patch_models := [two_patch_model; two_patch_model];
     patch_mappings_to_global :=
       [local_to_global_mapping [0; 1]; local_to_global_mapping [0; 1]];
     patch_mappings_to_local :=
       [global_to_local_mapping [0; 1]; global_to_local_mapping [0; 1]];
     estimator_domains := [];
     reduce_calls := 0;
     stdout := [] |}.

(** The parameter 5, and a driver that reduces, then enriches subdomain 1
    at that parameter. *)
Definition mu_five : @parameter Z () nat Z sample_collaborators := 5%Z.

Definition two_calls : list (@call Z () nat Z sample_collaborators) :=
  [CallReduce; CallEnrichLocally 1 mu_five false].

(** Nine subdomains in a 3-by-3 grid numbered
    [0 2 1 / 5 8 3 / 6 7 4], with face adjacency. *)
Definition shuffled_grid : DDGrid :=
  {| num_subdomains := 9;
     neighbors := λ k,
       match k with
       | 0 => [2; 5]
       | 1 => [2; 3]
       | 2 => [0; 1; 8]
       | 3 => [1; 8; 4]
       | 4 => [3; 7]
       | 5 => [0; 8; 6]
       | 6 => [5; 7]
       | 7 => [8; 6; 4]
       | 8 => [2; 5; 3; 7]
       | _ => []
       end |}.


(** Double-precision numbers; the norm of a list is the square root of the
    sum of the squares. *)
Global Instance float_numeric : Numeric float := {|
  num_zero := 0%float;
  num_add := PrimFloat.add;
  num_square := λ x, PrimFloat.mul x x;
  num_sqrt := PrimFloat.sqrt;
  num_norm := λ xs, PrimFloat.sqrt (foldl PrimFloat.add 0%float ((λ x, PrimFloat.mul x x) <$> xs));
|}.

(** An estimator on a 2-by-2 grid: one estimator domain holding the four
    subdomains, every residual block of norm 1. *)
Definition unit_block_norm (residual : ()) (elements : list nat) (u_rom : ())
    (mu : ()) (el : Z) : result float := Ok 1%float.

Definition four_estimator : @EllipticIPLRBEstimator () :=
  {| est_estimator_domains := [(0, [0; 1; 2; 3])];
     est_local_residuals := [()];
     est_domains := 4;
     est_mappings := [global_to_local_mapping [0; 1; 2; 3]];
     est_inner_node_patches := [(0, [0; 1; 2; 3])] |}.


(** ** Vocabulary of the statements *)

(** The entry at row [i], column [j] of a two-dimensional array. *)
Definition entry {A : Type} (a : list (list A)) (i j : nat) : option A :=
  a !! i ≫= (.!! j).

Definition shape {A : Type} (n m : nat) (a : list (list A)) : Prop :=
  length a = n ∧ Forall (λ row, length row = m) a.

(** The terms of a diagonal block that the filter is to retain, for the
    block of subdomain [I] in the patch [patch]: the name contains
    "volume" or "boundary", or the pair string of [I] and some [J] of the
    patch. *)
Definition retained (I : nat) (patch : list nat) (name : string) : Prop :=
  contains "volume" name = true ∨ contains "boundary" name = true ∨
  Exists (λ J, contains (pair_string I J) name = true) patch.

Global Instance retained_dec (I : nat) (patch : list nat) (name : string) :
  Decision (retained I patch name).
Proof. unfold retained. apply _. Defined.


Section reductor_vocabulary.

Context {vec space matrix coef : Type}.
Context `{!@Collaborators vec space matrix coef}.
Local Abbreviation reductor := (@reductor vec space matrix coef _).

(** A reductor whose local bases are [S] vector arrays, and whose recorded
    size exists whenever a cached ROM does. *)
Definition wf (r : reductor) : Prop :=
  S_ r ≤ length (local_bases r) ∧
  Forall (λ ref, is_Some (heap r !! ref)) (local_bases r) ∧
  (is_Some (_last_rom r) → is_Some (_last_rom_dims r)).

(** The current total basis length, [sum(self.basis_length())]. *)
Definition total_basis_length (r : reductor) : nat :=
  match basis_length r with
  | Ok lengths => sum_list lengths
  | Raise _ => 0
  end.

(** The condition under which [reduce] rebuilds: no cached ROM, or a total
    basis length above the recorded one. *)
Definition stale (r : reductor) : Prop :=
  _last_rom r = None ∨ ∃ dims, _last_rom_dims r = Some dims ∧ dims < total_basis_length r.

Global Instance stale_dec (r : reductor) : Decision (stale r).
Proof.
  unfold stale. destruct (_last_rom r) as [rom|]; [|left; by left].
  destruct (_last_rom_dims r) as [dims|].
  - destruct (decide (dims < total_basis_length r)) as [Hlt|Hge].
    + left. right. by exists dims.
    + right. intros [?|(d & Hd & Hlt)]; [done|]. simplify_eq. lia.
  - right. by intros [?|(d & Hd & Hlt)].
Defined.

(** The bases the constructor creates when none are given: one fresh,
    empty vector array per subdomain. *)
Definition default_local_bases (S : nat) : list nat * gmap nat (list vec) :=
  (seq 0 S, list_to_map ((λ ss, (ss, [])) <$> seq 0 S)).

End reductor_vocabulary.

(** * Properties *)

(** ** Results and containers *)

Lemma getitem_Ok {A : Type} (l : list A) (i : nat) (x : A) :
  getitem l i = Ok x ↔ l !! i = Some x.
Proof. unfold getitem. destruct (l !! i); split; congruence. Qed.

Lemma getitem_lt {A : Type} (l : list A) (i : nat) :
  i < length l → ∃ x, getitem l i = Ok x ∧ l !! i = Some x.
Proof.
  intros Hi. destruct (lookup_lt_is_Some_2 l i Hi) as [x Hx].
  exists x. split; [by apply getitem_Ok | done].
Qed.

Lemma shape_row {A : Type} (n m : nat) (a : list (list A)) (i : nat) row :
  shape n m a → a !! i = Some row → length row = m.
Proof.
  intros [_ Hall] Hrow. rewrite Forall_forall in Hall.
  apply Hall. by eapply list_elem_of_lookup_2.
Qed.

Lemma entry_is_Some {A : Type} (n m : nat) (a : list (list A)) (i j : nat) :
  shape n m a → i < n → j < m → is_Some (entry a i j).
Proof.
  intros Hsh Hi Hj. unfold entry.
  destruct (lookup_lt_is_Some_2 a i) as [row Hrow]; [destruct Hsh; lia|].
  rewrite Hrow. simpl. apply lookup_lt_is_Some_2.
  by rewrite (shape_row _ _ _ _ _ Hsh Hrow).
Qed.

Lemma getitem2_entry {A : Type} (a : list (list A)) (i j : nat) (x : A) :
  getitem2 a i j = Ok x ↔ entry a i j = Some x.
Proof.
  unfold getitem2, entry, getitem.
  destruct (a !! i) as [row|]; simpl; [|split; congruence].
  destruct (row !! j); split; congruence.
Qed.

Lemma shape_np_empty2 {A : Type} (n m : nat) : shape n m (@np_empty2 A n m).
Proof.
  split; [apply length_replicate|].
  apply Forall_replicate, length_replicate.
Qed.

Lemma entry_np_empty2 {A : Type} (n m i j : nat) :
  i < n → j < m → entry (@np_empty2 A n m) i j = Some None.
Proof.
  intros Hi Hj. unfold entry, np_empty2.
  rewrite lookup_replicate_2 by done. simpl. by rewrite lookup_replicate_2.
Qed.

Lemma setitem2_spec {A : Type} (n m : nat) (a : list (list A)) (i j : nat) (v : A) :
  shape n m a → i < n → j < m →
  ∃ a', setitem2 a i j v = Ok a' ∧ shape n m a' ∧
        ∀ i' j', entry a' i' j' =
                 if decide (i' = i ∧ j' = j) then Some v else entry a i' j'.
Proof.
  intros Hsh Hi Hj.
  destruct (lookup_lt_is_Some_2 a i) as [row Hrow]; [destruct Hsh; lia|].
  pose proof (shape_row _ _ _ _ _ Hsh Hrow) as Hlen.
  exists (<[i := <[j := v]> row]> a). split; [|split].
  - unfold setitem2, getitem, setitem. rewrite Hrow. simpl.
    by rewrite decide_True by lia.
  - destruct Hsh as [Hn Hall]. split; [by rewrite length_insert|].
    apply Forall_insert; [done|]. by rewrite length_insert.
  - intros i' j'. unfold entry. destruct (decide (i' = i)) as [->|Hne].
    + rewrite list_lookup_insert_eq by (destruct Hsh; lia). rewrite Hrow. simpl.
      destruct (decide (j' = j)) as [->|Hnj].
      * rewrite list_lookup_insert_eq by lia. by rewrite decide_True.
      * rewrite list_lookup_insert_ne by done. by rewrite decide_False by tauto.
    + rewrite list_lookup_insert_ne by done. by rewrite decide_False by tauto.
Qed.

(** ** Index mappings of a patch *)

Lemma scan_elements_range (l : list nat) (k i : nat) :
  scan_elements k l i = (-1)%Z ∨
  ∃ j, scan_elements k l i = Z.of_nat (k + j) ∧ l !! j = Some i ∧
       ∀ j', j' < j → l !! j' ≠ Some i.
Proof.
  revert k. induction l as [|x l IH]; intros k; simpl; [by left|].
  destruct (decide (x = i)) as [->|Hne].
  - right. exists 0. split; [f_equal; lia|]. split; [done|]. intros; lia.
  - destruct (IH (S k)) as [Hm|(j & Hj & Hl & Hfirst)]; [by left|].
    right. exists (S j). split; [rewrite Hj; f_equal; lia|]. split; [done|].
    intros [|j'] Hlt; simpl; [congruence|]. apply Hfirst. lia.
Qed.

Lemma scan_elements_absent (l : list nat) (k i : nat) :
  i ∉ l → scan_elements k l i = (-1)%Z.
Proof.
  revert k. induction l as [|x l IH]; intros k Hni; simpl; [done|].
  rewrite decide_False; [|intros ->; apply Hni; left].
  apply IH. intros Hin. apply Hni. by right.
Qed.

Lemma scan_elements_present (l : list nat) (k i : nat) :
  i ∈ l → ∃ j, scan_elements k l i = Z.of_nat (k + j) ∧ l !! j = Some i.
Proof.
  intros Hin. destruct (scan_elements_range l k i) as [Hm|(j & Hj & Hl & _)]; [|eauto].
  exfalso. revert k Hm. induction l as [|x l IH]; intros k; simpl.
  - by apply not_elem_of_nil in Hin.
  - destruct (decide (x = i)); [lia|]. apply IH. by apply elem_of_cons in Hin as [->|].
Qed.

Lemma global_to_local_first (l : list nat) (i j : nat) :
  global_to_local_mapping l i = Z.of_nat j → l !! j = Some i.
Proof.
  unfold global_to_local_mapping. intros H.
  destruct (scan_elements_range l 0 i) as [Hm|(j' & Hj & Hl & _)]; [lia|].
  replace j with j' by lia. done.
Qed.

Lemma global_to_local_NoDup (l : list nat) (i j : nat) :
  NoDup l → l !! j = Some i → global_to_local_mapping l i = Z.of_nat j.
Proof.
  unfold global_to_local_mapping. intros Hnd Hl.
  destruct (scan_elements_present l 0 i) as (j' & Hj & Hl'); [by eapply list_elem_of_lookup_2|].
  rewrite Hj. f_equal. simpl. eapply NoDup_lookup; eauto.
Qed.

Lemma global_to_local_bounds (l : list nat) (i : nat) :
  (-1 ≤ global_to_local_mapping l i < Z.of_nat (length l))%Z.
Proof.
  unfold global_to_local_mapping.
  destruct (scan_elements_range l 0 i) as [Hm|(j & Hj & Hl & _)]; [lia|].
  apply lookup_lt_Some in Hl. lia.
Qed.

(** ** The local model builder *)

Section local_model_facts.

Context {vec space matrix coef : Type}.
Local Abbreviation operator := (@operator vec space matrix coef).

Variables (S : nat) (elements : list nat).
Variables (B : list (list (option operator))) (column : list (option operator)).
Variable neighbors : nat → list nat.

Hypothesis B_shape : shape S S B.
Hypothesis column_length : length column = S.
Hypothesis elements_lt : Forall (λ I, I < S) elements.

Local Abbreviation n := (length elements).
Local Abbreviation g2l := (global_to_local_mapping elements).
Local Abbreviation rhs_blocks := ((λ b : option operator, [b]) <$> column).

Lemma element_lt (ii I : nat) : elements !! ii = Some I → I < S.
Proof.
  intros H. rewrite Forall_forall in elements_lt.
  apply elements_lt. by eapply list_elem_of_lookup_2.
Qed.

(** One neighbor [J]: the coupling block is written at [J]'s local
    position when [J] lies in the patch, and nothing is written otherwise. *)
Lemma couple_neighbor_spec (ii I J : nat) (p : list (list (option operator))) :
  shape n n p → ii < n → I < S →
  ∃ p', couple_neighbor elements B ii I p J = Ok p' ∧ shape n n p' ∧
    ∀ i' j', entry p' i' j' =
      if decide (i' = ii ∧ Z.of_nat j' = g2l J) then entry B I J else entry p i' j'.
Proof.
  intros Hsh Hii HI. unfold couple_neighbor.
  pose proof (global_to_local_bounds elements J) as Hb.
  destruct (decide (0 ≤ g2l J)%Z) as [Hpos|Hneg].
  - assert (Hjj : g2l J = Z.of_nat (Z.to_nat (g2l J))) by lia.
    pose proof (global_to_local_first _ _ _ Hjj) as HJ.
    pose proof (element_lt _ _ HJ) as HJS.
    destruct (entry_is_Some S S B I J B_shape HI HJS) as [b Hb0].
    rewrite (proj2 (getitem2_entry B I J b) Hb0). cbn.
    destruct (setitem2_spec n n p ii (Z.to_nat (g2l J)) b Hsh Hii)
      as (p1 & Hset & Hsh1 & Hent1); [lia|].
    exists p1. split; [done|]. split; [done|].
    intros i' j'. rewrite Hent1, Hb0.
    destruct (decide (i' = ii ∧ j' = Z.to_nat (g2l J))) as [[-> ->]|Hn].
    + by rewrite decide_True by lia.
    + rewrite decide_False; [done|]. intros [-> Hj]. apply Hn. split; [done|lia].
  - exists p. split; [done|]. split; [done|].
    intros i' j'. rewrite decide_False; [done|]. lia.
Qed.

(** The loop over the neighbors of [I] writes row [ii] only, and only
    at the local positions of neighbors that lie in the patch. *)
Lemma couple_loop (ii I : nat) (Js : list nat) (p : list (list (option operator))) :
  shape n n p → ii < n → I < S →
  ∃ p', for_each (couple_neighbor elements B ii I) Js p = Ok p' ∧ shape n n p' ∧
    (∀ i' j', i' ≠ ii → entry p' i' j' = entry p i' j') ∧
    (∀ jj J, elements !! jj = Some J →
       entry p' ii jj =
         if decide (Exists (λ J', g2l J' = Z.of_nat jj) Js)
         then entry B I J else entry p ii jj).
Proof.
  intros Hsh Hii HI. revert p Hsh.
  induction Js as [|J0 Js IH]; intros p Hsh.
  - exists p. split; [done|]. split; [done|]. split; [done|].
    intros jj J HJ. rewrite decide_False; [done|]. by intros ?%Exists_nil.
  - destruct (couple_neighbor_spec ii I J0 p Hsh Hii HI) as (p1 & Hstep & Hsh1 & Hent1).
    destruct (IH p1 Hsh1) as (p' & Hrun & Hsh' & Hother & Hrow).
    exists p'. split; [cbn [for_each]; by rewrite Hstep|].
    split; [done|]. split.
    + intros i' j' Hne. rewrite Hother by done. rewrite Hent1.
      by rewrite decide_False by tauto.
    + intros jj J HJ. rewrite (Hrow jj J HJ). rewrite Hent1.
      destruct (decide (Exists (λ J', g2l J' = Z.of_nat jj) Js)) as [Hex|Hnex].
      { rewrite decide_True; [done|]. by apply Exists_cons_tl. }
      destruct (decide (ii = ii ∧ Z.of_nat jj = g2l J0)) as [[_ Hj]|Hnj].
      { rewrite decide_True; [|by apply Exists_cons_hd].
        symmetry in Hj. apply global_to_local_first in Hj.
        rewrite Hj in HJ. by simplify_eq. }
      rewrite decide_False; [done|]. rewrite Exists_cons.
      intros [Heq|Hex]; [|done]. apply Hnj. by split.
Qed.

(** What block [(ii, jj)] of the patch operator holds, for [I = elements[ii]]
    and [J = elements[jj]]. *)
Definition patch_block (ii jj I J : nat) : option (option operator) :=
  if decide (ii = jj) then entry B I I
  else if decide (Exists (λ J', g2l J' = Z.of_nat jj) (neighbors I))
       then entry B I J else Some None.

(** One pass of the outer loop: row [k] receives its diagonal block and
    its couplings, every other row is left as it was. *)
Lemma fill_row_spec (k I : nat) (p : list (list (option operator)))
    (r : list (option operator)) :
  elements !! k = Some I → shape n n p → length r = n →
  ∃ p' r',
    fill_row elements B rhs_blocks neighbors (p, r) k = Ok (p', r') ∧
    shape n n p' ∧ length r' = n ∧
    (∀ i, r' !! i = if decide (i = k) then column !! I else r !! i) ∧
    (∀ i j, i ≠ k → entry p' i j = entry p i j) ∧
    (∀ jj J, elements !! jj = Some J →
       entry p' k jj =
         if decide (Exists (λ J', g2l J' = Z.of_nat jj) (neighbors I))
         then entry B I J
         else if decide (k = jj) then entry B I I else entry p k jj).
Proof.
  intros HI Hsh Hr. pose proof (lookup_lt_Some _ _ _ HI) as Hk.
  pose proof (element_lt _ _ HI) as HIS.
  unfold fill_row, local_to_global_mapping, py_getitem.
  rewrite decide_True by lia. rewrite Nat2Z.id.
  rewrite (proj2 (getitem_Ok elements k I) HI). cbn [mbind result_bind].
  destruct (entry_is_Some S S B I I B_shape HIS HIS) as [d Hd].
  rewrite (proj2 (getitem2_entry B I I d) Hd). cbn [mbind result_bind fst snd].
  destruct (setitem2_spec n n p k k d Hsh) as (p1 & Hset & Hsh1 & Hent1); [lia..|].
  rewrite Hset. cbn [mbind result_bind].
  destruct (getitem_lt column I) as (c & _ & Hc); [lia|].
  assert (Hrhs : getitem2 rhs_blocks I 0 = Ok c).
  { apply getitem2_entry. unfold entry. by rewrite list_lookup_fmap, Hc. }
  rewrite Hrhs. cbn [mbind result_bind]. unfold setitem.
  rewrite decide_True by lia. cbn [mbind result_bind].
  destruct (couple_loop k I (neighbors I) p1) as (p2 & Hrun & Hsh2 & Hother & Hrow);
    [done|lia|done|].
  rewrite Hrun. cbn [mbind result_bind].
  exists p2, (<[k:=c]> r). split; [done|]. split; [done|].
  split; [by rewrite length_insert|]. split; [|split].
  - intros i. destruct (decide (i = k)) as [->|Hne].
    + rewrite list_lookup_insert_eq by lia. done.
    + by rewrite list_lookup_insert_ne.
  - intros i j Hne. rewrite Hother by done. rewrite Hent1.
    by rewrite decide_False by tauto.
  - intros jj J HJ. rewrite (Hrow jj J HJ). destruct (decide _); [done|].
    rewrite Hent1. destruct (decide (k = jj)) as [<-|Hne].
    + by rewrite decide_True, Hd.
    + rewrite decide_False; [done|]. intros [_ ->]. done.
Qed.

Lemma fill_rows (m k : nat) (p : list (list (option operator)))
    (r : list (option operator)) :
  k + m = n → shape n n p → length r = n →
  (∀ i j, k ≤ i → i < n → j < n → entry p i j = Some None) →
  ∃ p' r',
    for_each (fill_row elements B rhs_blocks neighbors) (seq k m) (p, r) = Ok (p', r') ∧
    shape n n p' ∧ length r' = n ∧
    (∀ i, i < k → r' !! i = r !! i) ∧
    (∀ ii I, k ≤ ii → elements !! ii = Some I → r' !! ii = column !! I) ∧
    (∀ i j, i < k → entry p' i j = entry p i j) ∧
    (∀ ii jj I J, k ≤ ii → elements !! ii = Some I → elements !! jj = Some J →
       entry p' ii jj = patch_block ii jj I J).
Proof.
  revert k p r. induction m as [|m IH]; intros k p r Hkm Hsh Hr Hnone.
  - exists p, r. split; [done|]. split; [done|]. split; [done|]. split; [done|].
    split; [|split; [done|]].
    + intros ii I Hk HI. apply lookup_lt_Some in HI. lia.
    + intros ii jj I J Hk HI _. apply lookup_lt_Some in HI. lia.
  - destruct (lookup_lt_is_Some_2 elements k) as [I HI]; [lia|].
    destruct (fill_row_spec k I p r HI Hsh Hr)
      as (p1 & r1 & Hstep & Hsh1 & Hr1 & Hrhs & Hother & Hrow).
    destruct (IH (Datatypes.S k) p1 r1)
      as (p' & r' & Hloop & Hsh' & Hr' & Hrkeep & Hrcol & Hkeep & Hblock);
      [lia|done|done|..].
    { intros i j Hi Hin Hj. rewrite Hother by lia. apply Hnone; lia. }
    exists p', r'. split; [cbn [seq for_each]; by rewrite Hstep|].
    split; [done|]. split; [done|]. split; [|split; [|split]].
    + intros i Hi. rewrite Hrkeep by lia. rewrite Hrhs. by rewrite decide_False by lia.
    + intros ii I' Hk HI'.
      destruct (decide (ii = k)) as [->|Hne]; [|apply Hrcol; [lia|done]].
      rewrite HI in HI'. simplify_eq. rewrite Hrkeep by lia. rewrite Hrhs.
      by rewrite decide_True.
    + intros i j Hi. rewrite Hkeep by lia. apply Hother. lia.
    + intros ii jj I' J Hk HI' HJ.
      destruct (decide (ii = k)) as [->|Hne]; [|apply Hblock; [lia|done..]].
      rewrite HI in HI'. simplify_eq. rewrite Hkeep by lia.
      rewrite (Hrow jj J HJ). unfold patch_block.
      destruct (decide (k = jj)) as [<-|Hnj].
      * rewrite HI in HJ. simplify_eq. by destruct (decide _).
      * destruct (decide _); [done|].
        apply Hnone; [lia..|]. by apply lookup_lt_Some in HJ.
Qed.

Lemma assemble_patch_spec :
  ∃ p r, assemble_patch elements B rhs_blocks neighbors = Ok (p, r) ∧
    shape n n p ∧ length r = n ∧
    (∀ ii I, elements !! ii = Some I → r !! ii = column !! I) ∧
    ∀ ii jj I J, elements !! ii = Some I → elements !! jj = Some J →
      entry p ii jj = patch_block ii jj I J.
Proof.
  unfold assemble_patch.
  destruct (fill_rows n 0 (np_empty2 n n) (np_empty n))
    as (p & r & Hrun & Hsh & Hr & _ & Hcol & _ & Hblock).
  - done.
  - apply shape_np_empty2.
  - apply length_replicate.
  - intros i j _ Hi Hj. by apply entry_np_empty2.
  - exists p, r. split; [done|]. split; [done|]. split; [done|]. split.
    + intros ii I HI. apply Hcol; [lia|done].
    + intros ii jj I J HI HJ. apply Hblock; [lia|done..].
Qed.

End local_model_facts.

Lemma array2_ext {A : Type} (n m : nat) (a a' : list (list A)) :
  shape n m a → shape n m a' →
  (∀ i j, i < n → j < m → entry a i j = entry a' i j) → a = a'.
Proof.
  intros Hsh Hsh' Hent. apply list_eq. intros i.
  destruct (decide (i < n)) as [Hi|Hi].
  - destruct (lookup_lt_is_Some_2 a i) as [row Hrow]; [destruct Hsh; lia|].
    destruct (lookup_lt_is_Some_2 a' i) as [row' Hrow']; [destruct Hsh'; lia|].
    rewrite Hrow, Hrow'. f_equal. apply list_eq. intros j.
    destruct (decide (j < m)) as [Hj|Hj].
    + specialize (Hent i j Hi Hj). unfold entry in Hent.
      by rewrite Hrow, Hrow' in Hent.
    + rewrite !lookup_ge_None_2; [done|..].
      * rewrite (shape_row _ _ _ _ _ Hsh' Hrow'). lia.
      * rewrite (shape_row _ _ _ _ _ Hsh Hrow). lia.
  - rewrite !lookup_ge_None_2; [done|destruct Hsh'; lia|destruct Hsh; lia].
Qed.

Lemma getitem2_eq_entry {A : Type} (a b : list (list A)) (i j i' j' : nat) :
  entry a i j = entry b i' j' → is_Some (entry a i j) →
  getitem2 a i j = getitem2 b i' j'.
Proof.
  intros Heq [x Hx]. rewrite (proj2 (getitem2_entry a i j x) Hx).
  symmetry. apply getitem2_entry. by rewrite <- Heq.
Qed.

(** C3: [construct_local_model] returns an S_patch-by-S_patch block
    operator.  Its diagonal block [(ii, ii)] is the global diagonal block of
    [I = elements[ii]]; the coupling block [(I, J)] of a neighbor [J] of [I]
    that lies in the element list is copied to row [ii] at [J]'s local index;
    every other off-diagonal block is absent; and the result does not depend
    on any global block [(I, J)] with [J] outside the element list, so a
    coupling to an outside neighbor is dropped and reaches no block, diagonal
    or other.  On a duplicate-free list the local index of [J = elements[jj]]
    is [jj], so block [(ii, jj)] is the coupling [(I, J)] exactly when [J] is
    a neighbor of [I]. *)
Theorem construct_local_model_blocks {vec space matrix coef : Type}
    (S : nat) (local_elements : list nat)
    (blocks_op : list (list (option (@operator vec space matrix coef))))
    (column : list (option (@operator vec space matrix coef)))
    (neighbors : nat → list nat) :
  shape S S blocks_op → length column = S → Forall (λ I, I < S) local_elements →
  ∃ patch_op patch_rhs,
    construct_local_model local_elements (BlockOperator blocks_op)
        (BlockColumnOperator column) neighbors
      = Ok ({| model_operator := BlockOperator patch_op;
               model_rhs := BlockColumnOperator patch_rhs |},
            local_to_global_mapping local_elements,
            global_to_local_mapping local_elements) ∧
    shape (length local_elements) (length local_elements) patch_op ∧
    (∀ ii I, local_elements !! ii = Some I →
       getitem2 patch_op ii ii = getitem2 blocks_op I I) ∧
    (∀ ii I J, local_elements !! ii = Some I → J ∈ neighbors I → J ∈ local_elements →
       ∃ jj, global_to_local_mapping local_elements J = Z.of_nat jj ∧
             getitem2 patch_op ii jj = getitem2 blocks_op I J) ∧
    (∀ ii jj I, local_elements !! ii = Some I → jj < length local_elements → ii ≠ jj →
       (∀ J, J ∈ neighbors I → global_to_local_mapping local_elements J ≠ Z.of_nat jj) →
       getitem2 patch_op ii jj = Ok None) ∧
    (NoDup local_elements →
     ∀ ii jj I J, local_elements !! ii = Some I → local_elements !! jj = Some J → ii ≠ jj →
       getitem2 patch_op ii jj =
         if decide (J ∈ neighbors I) then getitem2 blocks_op I J else Ok None) ∧
    (∀ blocks_op', shape S S blocks_op' →
       (∀ I J, I ∈ local_elements → J ∈ local_elements →
          getitem2 blocks_op' I J = getitem2 blocks_op I J) →
       construct_local_model local_elements (BlockOperator blocks_op')
           (BlockColumnOperator column) neighbors
         = construct_local_model local_elements (BlockOperator blocks_op)
             (BlockColumnOperator column) neighbors).
Proof.
  intros HB Hcol Hlt.
  destruct (assemble_patch_spec S local_elements blocks_op column neighbors HB Hcol Hlt)
    as (p & r & Hrun & Hsh & Hr & Hrhs & Hblock).
  assert (Hin : ∀ ii I, local_elements !! ii = Some I → I < S).
  { intros ii I HI. rewrite Forall_forall in Hlt. apply Hlt.
    by eapply list_elem_of_lookup_2. }
  assert (Hsome : ∀ ii jj, ii < length local_elements → jj < length local_elements →
            is_Some (entry p ii jj)).
  { intros ii jj Hi Hj. by eapply entry_is_Some. }
  exists p, r. split; [|split; [done|split; [|split; [|split; [|split]]]]].
  - unfold construct_local_model. cbn [op_blocks mbind result_bind].
    by rewrite Hrun.
  - intros ii I HI. pose proof (lookup_lt_Some _ _ _ HI) as Hii.
    apply getitem2_eq_entry; [|by apply Hsome].
    rewrite (Hblock ii ii I I HI HI). unfold patch_block. by rewrite decide_True.
  - intros ii I J HI HJn HJe. pose proof (lookup_lt_Some _ _ _ HI) as Hii.
    destruct (scan_elements_present local_elements 0 J HJe) as (jj & Hjj & HJ).
    exists jj. split; [done|]. pose proof (lookup_lt_Some _ _ _ HJ) as Hjjlt.
    apply getitem2_eq_entry; [|by apply Hsome].
    rewrite (Hblock ii jj I J HI HJ). unfold patch_block.
    destruct (decide (ii = jj)) as [<-|Hne].
    + rewrite HI in HJ. by simplify_eq.
    + rewrite decide_True; [done|]. apply Exists_exists. by exists J.
  - intros ii jj I HI Hjj Hne Hno. pose proof (lookup_lt_Some _ _ _ HI) as Hii.
    destruct (lookup_lt_is_Some_2 local_elements jj Hjj) as [J HJ].
    apply getitem2_entry. rewrite (Hblock ii jj I J HI HJ). unfold patch_block.
    rewrite decide_False by done. rewrite decide_False; [done|].
    intros (J' & HJ' & Heq)%Exists_exists. by apply (Hno J').
  - intros Hnd ii jj I J HI HJ Hne.
    pose proof (lookup_lt_Some _ _ _ HI) as Hii.
    pose proof (lookup_lt_Some _ _ _ HJ) as Hjj.
    destruct (decide (J ∈ neighbors I)) as [HJn|HJn].
    + apply getitem2_eq_entry; [|by apply Hsome].
      rewrite (Hblock ii jj I J HI HJ). unfold patch_block.
      rewrite decide_False by done. rewrite decide_True; [done|].
      apply Exists_exists. exists J. split; [done|]. by apply global_to_local_NoDup.
    + apply getitem2_entry. rewrite (Hblock ii jj I J HI HJ). unfold patch_block.
      rewrite decide_False by done. rewrite decide_False; [done|].
      intros (J' & HJ' & Heq)%Exists_exists.
      apply global_to_local_first in Heq. rewrite HJ in Heq. by simplify_eq.
  - intros B' HB' Hagree.
    destruct (assemble_patch_spec S local_elements B' column neighbors HB' Hcol Hlt)
      as (p' & r' & Hrun' & Hsh' & Hr' & Hrhs' & Hblock').
    unfold construct_local_model. cbn [op_blocks mbind result_bind].
    rewrite Hrun, Hrun'. cbn [mbind result_bind].
    assert (Hagree' : ∀ ii jj I J, local_elements !! ii = Some I →
              local_elements !! jj = Some J → entry B' I J = entry blocks_op I J).
    { intros ii jj I J HI HJ.
      assert (HIS := Hin _ _ HI). assert (HJS := Hin _ _ HJ).
      destruct (entry_is_Some S S blocks_op I J HB HIS HJS) as [b Hb].
      rewrite Hb. apply getitem2_entry. rewrite Hagree.
      - by apply getitem2_entry.
      - by eapply list_elem_of_lookup_2.
      - by eapply list_elem_of_lookup_2. }
    assert (p' = p) as ->.
    { apply (array2_ext _ _ _ _ Hsh' Hsh). intros i j Hi Hj.
      destruct (lookup_lt_is_Some_2 local_elements i Hi) as [I HI].
      destruct (lookup_lt_is_Some_2 local_elements j Hj) as [J HJ].
      rewrite (Hblock i j I J HI HJ), (Hblock' i j I J HI HJ). unfold patch_block.
      rewrite (Hagree' i i I I HI HI), (Hagree' i j I J HI HJ). done. }
    assert (r' = r) as ->; [|done].
    apply list_eq. intros i. destruct (decide (i < length local_elements)) as [Hi|Hi].
    + destruct (lookup_lt_is_Some_2 local_elements i Hi) as [I HI].
      by rewrite (Hrhs i I HI), (Hrhs' i I HI).
    + rewrite !lookup_ge_None_2; [done|lia..].
Qed.

(** C4: the index mappings returned with a patch are mutually inverse on
    the patch.  A patch is a set of subdomains, so its element list has no
    repetition: then [global_to_local(local_to_global(i)) = i] for every
    local index [i] below [S_patch]; [local_to_global(global_to_local(I)) = I]
    for every [I] of the element list; and [global_to_local(J) = -1] for
    every [J] outside it. *)
Theorem mappings_mutually_inverse {vec space matrix coef : Type}
    (local_elements : list nat) (block_op block_rhs : @operator vec space matrix coef)
    (neighbors : nat → list nat) (patch_model : StationaryModel)
    (local_to_global : Z → result nat) (global_to_local : nat → Z) :
  construct_local_model local_elements block_op block_rhs neighbors
    = Ok (patch_model, local_to_global, global_to_local) →
  (NoDup local_elements →
   ∀ i, i < length local_elements →
     ∃ I, local_to_global (Z.of_nat i) = Ok I ∧ global_to_local I = Z.of_nat i) ∧
  (∀ I, I ∈ local_elements → local_to_global (global_to_local I) = Ok I) ∧
  (∀ J, J ∉ local_elements → global_to_local J = (-1)%Z).
Proof.
  unfold construct_local_model. intros Hrun.
  destruct (op_blocks block_op) as [bo|]; [|done].
  destruct (op_blocks block_rhs) as [br|]; [|done].
  cbn [mbind result_bind] in Hrun.
  destruct (assemble_patch local_elements bo br neighbors) as [[p r]|]; [|done].
  cbn [mbind result_bind] in Hrun. injection Hrun as _ <- <-.
  split; [|split].
  - intros Hnd i Hi. destruct (lookup_lt_is_Some_2 local_elements i Hi) as [I HI].
    exists I. split; [|by apply global_to_local_NoDup].
    unfold local_to_global_mapping, py_getitem. rewrite decide_True by lia.
    rewrite Nat2Z.id. by apply getitem_Ok.
  - intros I HI.
    destruct (scan_elements_present local_elements 0 I HI) as (j & Hj & Hl).
    unfold local_to_global_mapping, global_to_local_mapping, py_getitem.
    rewrite Hj. rewrite decide_True by lia. rewrite Nat2Z.id. by apply getitem_Ok.
  - intros J HJ. by apply scan_elements_absent.
Qed.

(** ** The patch constructor *)

Lemma examine_elem (dd_grid : DDGrid) (nh : gset nat) (x M : nat) :
  M ∈ examine dd_grid nh x ↔
  M ∈ nh ∨ (M = x ∧ (x ∉ nh) ∧ size (list_to_set (neighbors dd_grid x) ∩ nh) = 2).
Proof.
  unfold examine. destruct (decide _) as [Hc|Hc].
  - rewrite elem_of_union, elem_of_singleton. tauto.
  - tauto.
Qed.

Lemma nested_loops_flat (dd_grid : DDGrid) (nns : list nat) (nh : gset nat) :
  foldl (λ nh nn, foldl (examine dd_grid) nh (neighbors dd_grid nn)) nh nns
  = foldl (examine dd_grid) nh (nns ≫= neighbors dd_grid).
Proof.
  revert nh. induction nns as [|nn nns IH]; intros nh; [done|].
  cbn [foldl mbind list_bind]. by rewrite foldl_app, IH.
Qed.

Lemma examine_loop_elem (dd_grid : DDGrid) (nh0 : gset nat) (xs : list nat) (M : nat) :
  M ∈ foldl (examine dd_grid) nh0 xs ↔
  M ∈ nh0 ∨
  ∃ k, xs !! k = Some M ∧
       (M ∉ foldl (examine dd_grid) nh0 (take k xs)) ∧
       size (list_to_set (neighbors dd_grid M) ∩ foldl (examine dd_grid) nh0 (take k xs)) = 2.
Proof.
  induction xs as [|x xs IH] using rev_ind.
  - simpl. split; [by left|]. intros [?|(k & Hk & _)]; done.
  - rewrite foldl_app. cbn [foldl]. rewrite examine_elem, IH. split.
    + intros [[Hin|(k & Hk & Hc)]|(-> & Hc)].
      * by left.
      * right. exists k. pose proof (lookup_lt_Some _ _ _ Hk) as Hlt.
        rewrite lookup_app_l by done. by rewrite take_app_le by lia.
      * right. exists (length xs). rewrite list_lookup_middle by done.
        by rewrite take_app_length.
    + intros [Hin|(k & Hk & Hc)]; [by left; left|].
      destruct (decide (k < length xs)) as [Hlt|Hge].
      * left. right. exists k. rewrite lookup_app_l in Hk by done.
        by rewrite take_app_le in Hc by lia.
      * pose proof (lookup_lt_Some _ _ _ Hk) as Hlt. rewrite length_app in Hlt.
        simpl in Hlt. assert (k = length xs) as -> by lia.
        rewrite list_lookup_middle in Hk by done. simplify_eq.
        rewrite take_app_length in Hc. by right.
Qed.

(** C5: the element patch of subdomain [I] contains [I] and all neighbors of
    [I]; a further subdomain [M] belongs to it exactly when [M] is examined
    as a neighbor of a neighbor at a moment when it is not yet in the set and
    exactly two of its neighbors lie in the set; hence every member is [I],
    a neighbor of [I], or a neighbor of a neighbor of [I]. *)
Theorem construct_element_patches_spec (dd_grid : DDGrid) (I : nat) :
  I < num_subdomains dd_grid →
  ∃ patch,
    construct_element_patches dd_grid !! I = Some patch ∧
    NoDup patch ∧
    I ∈ patch ∧
    (∀ N, N ∈ neighbors dd_grid I → N ∈ patch) ∧
    (∀ M, M ∈ patch ↔
       M = I ∨ M ∈ neighbors dd_grid I ∨
       ∃ k, examined dd_grid I !! k = Some M ∧
            (M ∉ patch_before dd_grid I k) ∧
            size (list_to_set (neighbors dd_grid M) ∩ patch_before dd_grid I k) = 2) ∧
    (∀ M, M ∈ patch →
       M = I ∨ M ∈ neighbors dd_grid I ∨
       ∃ N, N ∈ neighbors dd_grid I ∧ M ∈ neighbors dd_grid N).
Proof.
  intros HI. exists (elements (element_patch dd_grid I)).
  assert (Hchar : ∀ M, M ∈ elements (element_patch dd_grid I) ↔
       M = I ∨ M ∈ neighbors dd_grid I ∨
       ∃ k, examined dd_grid I !! k = Some M ∧
            (M ∉ patch_before dd_grid I k) ∧
            size (list_to_set (neighbors dd_grid M) ∩ patch_before dd_grid I k) = 2).
  { intros M. rewrite elem_of_elements. unfold element_patch.
    rewrite nested_loops_flat, examine_loop_elem. unfold initial_patch at 1.
    rewrite elem_of_union, elem_of_singleton, elem_of_list_to_set.
    unfold patch_before, examined. tauto. }
  split; [|split; [|split; [|split; [|split]]]].
  - unfold construct_element_patches. rewrite list_lookup_fmap.
    by rewrite lookup_seq_lt.
  - apply NoDup_elements.
  - apply Hchar. by left.
  - intros N HN. apply Hchar. right. by left.
  - done.
  - intros M [->|[HM|(k & Hk & _)]]%Hchar; [by left|by right; left|].
    right. right. unfold examined in Hk.
    apply list_elem_of_lookup_2 in Hk. apply list_elem_of_bind in Hk.
    destruct Hk as (N & HM & HN). by exists N.
Qed.

(** ** The coupling filter *)

(** [sub] occurs in [s]. *)
Definition is_substring (sub s : string) : Prop :=
  ∃ a b, s = a +:+ sub +:+ b.

Lemma prefix_spec (sub s : string) :
  String.prefix sub s = true ↔ ∃ b, s = sub +:+ b.
Proof.
  revert s. induction sub as [|c sub IH]; intros s.
  - destruct s; simpl; split; eauto.
  - destruct s as [|d s]; simpl.
    + split; [done|]. intros [b Hb]. done.
    + destruct (Ascii.ascii_dec c d) as [->|Hne].
      * rewrite IH. split; intros [b Hb]; exists b.
        -- simpl. by rewrite Hb.
        -- simpl in Hb. by injection Hb.
      * split; [done|]. intros [b Hb]. simpl in Hb. injection Hb as Hcd _. by subst.
Qed.

Lemma contains_spec (sub s : string) :
  contains sub s = true ↔ is_substring sub s.
Proof.
  unfold is_substring. induction s as [|c s IH].
  - cbn [contains]. destruct (String.prefix sub "") eqn:Hp.
    + split; [intros _|done]. apply prefix_spec in Hp as [b Hb]. by exists "", b.
    + split; [done|]. intros ([|? a] & b & Hab); [|done].
      simpl in Hab. assert (String.prefix sub "" = true); [|congruence].
      apply prefix_spec. by exists b.
  - cbn [contains]. destruct (String.prefix sub (String c s)) eqn:Hp.
    + split; [intros _|done]. apply prefix_spec in Hp as [b Hb]. by exists "", b.
    + rewrite IH. split.
      * intros (a & b & ->). by exists (String c a), b.
      * intros ([|d a] & b & Hab).
        { simpl in Hab. assert (String.prefix sub (String c s) = true); [|congruence].
          apply prefix_spec. by exists b. }
        simpl in Hab. injection Hab as -> ->. by exists a, b.
Qed.

(** Filling an [n]-by-[n] object array cell by cell. *)
Section cells.

Context {X : Type}.
Variable n : nat.
Variable body : nat → list (list (option X)) → nat → result (list (list (option X))).
Variable cell : nat → nat → option X.

Hypothesis body_spec : ∀ acc i j,
  shape n n acc → i < n → j < n → entry acc i j = Some None →
  ∃ acc', body i acc j = Ok acc' ∧ shape n n acc' ∧
    ∀ i' j', entry acc' i' j' =
      if decide (i' = i ∧ j' = j) then Some (cell i j) else entry acc i' j'.

Lemma fill_cells_row (i m k : nat) (acc : list (list (option X))) :
  i < n → k + m = n → shape n n acc →
  (∀ j, k ≤ j → j < n → entry acc i j = Some None) →
  ∃ acc', for_each (body i) (seq k m) acc = Ok acc' ∧ shape n n acc' ∧
    (∀ i' j', i' ≠ i ∨ j' < k → entry acc' i' j' = entry acc i' j') ∧
    (∀ j, k ≤ j → j < n → entry acc' i j = Some (cell i j)).
Proof.
  intros Hi. revert k acc. induction m as [|m IH]; intros k acc Hkm Hsh Hnone.
  - exists acc. split; [done|]. split; [done|]. split; [done|]. intros; lia.
  - destruct (body_spec acc i k Hsh Hi) as (acc1 & Hstep & Hsh1 & Hent1);
      [lia|apply Hnone; lia|].
    destruct (IH (S k) acc1) as (acc' & Hrun & Hsh' & Hkeep & Hcells); [lia|done|..].
    { intros j Hj Hjn. rewrite Hent1. rewrite decide_False by lia. apply Hnone; lia. }
    exists acc'. split; [cbn [seq for_each]; by rewrite Hstep|]. split; [done|]. split.
    + intros i' j' Hout. rewrite Hkeep by lia. rewrite Hent1.
      by rewrite decide_False by lia.
    + intros j Hj Hjn. destruct (decide (j = k)) as [->|Hne]; [|apply Hcells; lia].
      rewrite Hkeep by lia. rewrite Hent1. by rewrite decide_True.
Qed.

Lemma fill_cells_rows (m k : nat) (acc : list (list (option X))) :
  k + m = n → shape n n acc →
  (∀ i j, k ≤ i → i < n → j < n → entry acc i j = Some None) →
  ∃ acc', for_each (λ acc i, for_each (body i) (seq 0 n) acc) (seq k m) acc = Ok acc' ∧
    shape n n acc' ∧
    (∀ i j, i < k → entry acc' i j = entry acc i j) ∧
    (∀ i j, k ≤ i → i < n → j < n → entry acc' i j = Some (cell i j)).
Proof.
  revert k acc. induction m as [|m IH]; intros k acc Hkm Hsh Hnone.
  - exists acc. split; [done|]. split; [done|]. split; [done|]. intros; lia.
  - destruct (fill_cells_row k n 0 acc) as (acc1 & Hstep & Hsh1 & Hkeep1 & Hrow);
      [lia|lia|done|..].
    { intros j _ Hj. apply Hnone; lia. }
    destruct (IH (S k) acc1) as (acc' & Hrun & Hsh' & Hkeep & Hcells); [lia|done|..].
    { intros i j Hi Hin Hj. rewrite Hkeep1 by lia. apply Hnone; lia. }
    exists acc'. split; [cbn [seq for_each]; by rewrite Hstep|]. split; [done|]. split.
    + intros i j Hi. rewrite Hkeep by lia. apply Hkeep1. lia.
    + intros i j Hi Hin Hj. destruct (decide (i = k)) as [->|Hne]; [|apply Hcells; lia].
      rewrite Hkeep by lia. apply Hrow; lia.
Qed.

Lemma fill_cells :
  ∃ res, for_each (λ acc i, for_each (body i) (seq 0 n) acc) (seq 0 n) (np_empty2 n n)
           = Ok res ∧
    shape n n res ∧ ∀ i j, i < n → j < n → entry res i j = Some (cell i j).
Proof.
  destruct (fill_cells_rows n 0 (np_empty2 n n)) as (res & Hrun & Hsh & _ & Hcells).
  - done.
  - apply shape_np_empty2.
  - intros i j _ Hi Hj. by apply entry_np_empty2.
  - exists res. split; [done|]. split; [done|]. intros i j Hi Hj. apply Hcells; lia.
Qed.

End cells.

Lemma comprehension_Ok {A B : Type} (f : A → result B) (xs : list A) (ys : list B) :
  comprehension f xs = Ok ys ↔ Forall2 (λ x y, f x = Ok y) xs ys.
Proof.
  revert ys. induction xs as [|x xs IH]; intros ys; cbn [comprehension].
  - split; [intros [= <-]; constructor|by intros ->%Forall2_nil_inv_l].
  - destruct (f x) as [y|e] eqn:Hfx; cbn [mbind result_bind].
    + destruct (comprehension f xs) as [ys'|e] eqn:Hrest; cbn [mbind result_bind].
      * split.
        -- intros [= <-]. constructor; [done|]. by apply IH.
        -- intros (y' & ys'' & Hy & Hys & ->)%Forall2_cons_inv_l.
           apply IH in Hys. congruence.
      * split; [done|].
        intros (y' & ys'' & Hy & Hys & ->)%Forall2_cons_inv_l.
        apply IH in Hys. done.
    + split; [done|]. intros (y' & ys'' & Hy & Hys & ->)%Forall2_cons_inv_l. congruence.
Qed.

(** The pair string is the canonical "min_max" string. *)
Lemma pair_string_min_max (I J : nat) :
  pair_string I J = pretty (I `min` J) +:+ "_" +:+ pretty (I `max` J).
Proof.
  unfold pair_string. destruct (decide (I < J)) as [Hlt|Hge].
  - by rewrite Nat.min_l, Nat.max_r by lia.
  - by rewrite Nat.min_r, Nat.max_l by lia.
Qed.

Lemma count_matches_zero (strings : list string) (name : string) :
  count_matches strings name = 0 ↔ ∀ s, s ∈ strings → contains s name = false.
Proof.
  unfold count_matches. induction strings as [|s strings IH]; cbn [fmap list_fmap sum_list].
  - split; [|done]. intros _ s Hs. by apply not_elem_of_nil in Hs.
  - destruct (contains s name) eqn:Hc.
    + split; [done|]. intros Hall. rewrite Hall in Hc; [done|left].
    + simpl. rewrite IH. split.
      * intros Hall s' [->|Hs']%elem_of_cons; [done|by apply Hall].
      * intros Hall s' Hs'. apply Hall. by right.
Qed.

Section filter_facts.

Context {vec space matrix coef : Type}.
Local Abbreviation operator := (@operator vec space matrix coef).

Lemma keep_term_retained (I : nat) (patch : list nat) (op : operator) :
  keep_term (pair_string I <$> patch) op = true ↔ retained I patch (op_name op).
Proof.
  unfold keep_term, retained. rewrite !orb_true_iff.
  rewrite negb_true_iff, Nat.eqb_neq, count_matches_zero, Exists_exists.
  split.
  - intros [[Hv|Hb]|Hc]; [by left|by right; left|]. right. right.
    destruct (decide (Exists (λ J, contains (pair_string I J) (op_name op) = true) patch))
      as [Hex|Hnex]; [by apply Exists_exists in Hex|].
    exfalso. apply Hc. intros s (J & -> & HJ)%list_elem_of_fmap.
    apply not_true_is_false. intros HcJ.
    apply Hnex. apply Exists_exists. eauto.
  - intros [Hv|[Hb|(J & HJ & HcJ)]]; [by left; left|by left; right|]. right.
    intros Hall. rewrite Hall in HcJ; [done|].
    apply list_elem_of_fmap. eauto.
Qed.

(** A kept name, read with the substring relation. *)
Lemma retained_substring (I : nat) (patch : list nat) (name : string) :
  retained I patch name ↔
  is_substring "volume" name ∨ is_substring "boundary" name ∨
  ∃ J, J ∈ patch ∧ is_substring (pair_string I J) name.
Proof.
  unfold retained. rewrite Exists_exists, !contains_spec.
  by setoid_rewrite contains_spec.
Qed.

(** The block the filter writes at position [(i, j)]. *)
Definition filtered_cell (patch : list nat) (blocks : list (list (option operator)))
    (i j : nat) : option operator :=
  match entry blocks i j with
  | Some (Some op) =>
      if decide (i ≠ j) then Some op
      else match op, patch !! i with
           | LincombOperator ops coefs, Some I_ =>
               let kept := filter (λ oc, keep_term (pair_string I_ <$> patch) oc.1)
                                  (zip ops coefs) in
               Some (LincombOperator (kept.*1) (kept.*2))
           | _, _ => None
           end
  | _ => None
  end.

Lemma filter_block_spec (n : nat) (mapping_to_global : Z → result nat)
    (patch : list nat) (blocks : list (list (option operator)))
    (acc : list (list (option operator))) (i j : nat) :
  shape n n blocks →
  comprehension (λ l, mapping_to_global (Z.of_nat l)) (seq 0 n) = Ok patch →
  (∀ i, i < n → ∃ ops coefs, entry blocks i i = Some (Some (LincombOperator ops coefs))) →
  shape n n acc → i < n → j < n → entry acc i j = Some None →
  ∃ acc', filter_block mapping_to_global n blocks i acc j = Ok acc' ∧ shape n n acc' ∧
    ∀ i' j', entry acc' i' j' =
      if decide (i' = i ∧ j' = j) then Some (filtered_cell patch blocks i j)
      else entry acc i' j'.
Proof.
  intros Hsh Hpatch Hdiag Hacc Hi Hj Hnone.
  destruct (entry_is_Some n n blocks i j Hsh Hi Hj) as [b Hb].
  unfold filter_block, filtered_cell.
  rewrite (proj2 (getitem2_entry blocks i j b) Hb), Hb. cbn [mbind result_bind].
  assert (Hsame : ∃ acc', Ok acc = Ok acc' ∧ shape n n acc' ∧
            ∀ i' j', entry acc' i' j' =
              if decide (i' = i ∧ j' = j) then Some None else entry acc i' j').
  { exists acc. split; [done|]. split; [done|]. intros i' j'.
    destruct (decide _) as [[-> ->]|]; done. }
  destruct (decide (i ≠ j)) as [Hne|Heq].
  - destruct b as [op|]; [|done]. by apply setitem2_spec.
  - assert (i = j) as <- by lia.
    destruct (Hdiag i Hi) as (ops & coefs & Hd). rewrite Hb in Hd. simplify_eq.
    apply comprehension_Ok in Hpatch.
    destruct (Forall2_lookup_l _ _ _ i i Hpatch) as (I & HI & HmI);
      [by apply lookup_seq_lt|].
    unfold filter_diagonal. rewrite HmI. cbn [mbind result_bind].
    apply comprehension_Ok in Hpatch. rewrite Hpatch, HI.
    cbn [mbind result_bind op_operators op_coefficients].
    by apply setitem2_spec.
Qed.

(** C6: on a patch model whose diagonal blocks are affine combinations,
    the filter keeps a term of the diagonal block of subdomain [I] exactly
    when its name contains "volume" or "boundary" or the pair string of [I]
    and some [J] of the patch, and every kept term stands next to its own,
    unchanged coefficient.  [patch] is the list
    [[mapping_to_global(l) for l in range(subspaces)]] the filter computes. *)
Theorem remove_irrelevant_coupling_keeps (n : nat)
    (blocks : list (list (option operator))) (rhs : operator)
    (mapping_to_global : Z → result nat) (patch : list nat) :
  shape n n blocks →
  comprehension (λ l, mapping_to_global (Z.of_nat l)) (seq 0 n) = Ok patch →
  (∀ i, i < n → ∃ ops coefs, entry blocks i i = Some (Some (LincombOperator ops coefs))) →
  ∃ res,
    remove_irrelevant_coupling_from_patch_operator
      {| model_operator := BlockOperator blocks; model_rhs := rhs |} mapping_to_global
      = Ok (BlockOperator res) ∧
    shape n n res ∧
    (∀ i I ops coefs,
       patch !! i = Some I →
       entry blocks i i = Some (Some (LincombOperator ops coefs)) →
       ∃ ops' coefs',
         entry res i i = Some (Some (LincombOperator ops' coefs')) ∧
         length ops' = length coefs' ∧
         zip ops' coefs' = filter (λ oc, retained I patch (op_name oc.1)) (zip ops coefs)) ∧
    (∀ i j, i < n → j < n → i ≠ j → entry res i j = entry blocks i j).
Proof.
  intros Hsh Hpatch Hdiag.
  destruct (fill_cells n (filter_block mapping_to_global n blocks)
              (filtered_cell patch blocks)) as (res & Hrun & Hres & Hcells).
  { intros acc i j. by apply filter_block_spec. }
  exists res. split; [|split; [done|split]].
  - unfold remove_irrelevant_coupling_from_patch_operator.
    cbn [model_operator op_blocks mbind result_bind].
    destruct Hsh as [-> _]. by rewrite Hrun.
  - intros i I ops coefs HI Hd.
    assert (Hi : i < n).
    { apply comprehension_Ok, Forall2_length in Hpatch. rewrite length_seq in Hpatch.
      apply lookup_lt_Some in HI. lia. }
    set (kept := filter (λ oc : operator * coef, keep_term (pair_string I <$> patch) oc.1)
                        (zip ops coefs)).
    exists (kept.*1), (kept.*2). split; [|split].
    + rewrite (Hcells i i Hi Hi). unfold filtered_cell. rewrite Hd, HI.
      by rewrite decide_False by lia.
    + by rewrite !length_fmap.
    + rewrite zip_fst_snd. unfold kept. apply list_filter_iff.
      intros [op c]. cbn [fst]. rewrite <- keep_term_retained.
      by destruct (keep_term _ op).
  - intros i j Hi Hj Hne. rewrite (Hcells i j Hi Hj). unfold filtered_cell.
    destruct (entry_is_Some n n blocks i j Hsh Hi Hj) as [b Hb]. rewrite Hb.
    destruct b; [|done]. by rewrite decide_True.
Qed.

End filter_facts.

(** ** The block projector *)

Section projector_facts.

Context {vec space matrix coef : Type}.
Local Abbreviation operator := (@operator vec space matrix coef).

Variable project : operator → list vec → option (list vec) → operator.
Variable array_space : list vec → space.

Lemma comprehension_ext {A B : Type} (f g : A → result B) (xs : list A) :
  Forall (λ x, f x = g x) xs → comprehension f xs = comprehension g xs.
Proof.
  induction 1 as [|x xs Hx _ IH]; [done|].
  cbn [comprehension]. by rewrite Hx, IH.
Qed.

Lemma comprehension_Raise {A B : Type} (f : A → result B) (xs : list A) :
  Exists (λ x, ∃ e, f x = Raise e) xs → ∃ e, comprehension f xs = Raise e.
Proof.
  induction 1 as [x xs [e He]|x xs _ [e IH]]; cbn [comprehension].
  - rewrite He. by exists e.
  - destruct (f x) as [y|e']; cbn [mbind result_bind]; [|by exists e'].
    rewrite IH. by exists e.
Qed.

Lemma project_block_operator_term (op : operator) (rb sb : list (list vec)) :
  is_lincomb op = false →
  project_block_operator project array_space op rb sb
  = _project_block_operator project array_space op rb sb.
Proof. by destruct op. Qed.

Lemma project_block_rhs_term (op : operator) (rb : list (list vec)) :
  is_lincomb op = false →
  project_block_rhs project op rb = _project_block_rhs project op rb.
Proof. by destruct op. Qed.

(** C7, as the code has it: the projection of an affine combination whose
    terms are not themselves affine combinations is the affine combination,
    with the same coefficients, of the projections of its terms (the first
    exception among the terms, if any, is the exception of the whole), for
    operators and for right-hand sides alike; a term that is itself an
    affine combination makes the projection raise. *)
Theorem project_block_commutes_with_lincomb
    (operators : list operator) (coefficients : list coef)
    (range_bases source_bases : list (list vec)) :
  (Forall (λ op, is_lincomb op = false) operators →
   project_block_operator project array_space
       (LincombOperator operators coefficients) range_bases source_bases
     = (projected ← comprehension
          (λ op, project_block_operator project array_space op range_bases source_bases)
          operators;
        Ok (LincombOperator projected coefficients)) ∧
   project_block_rhs project (LincombOperator operators coefficients) range_bases
     = (projected ← comprehension
          (λ op, project_block_rhs project op range_bases) operators;
        Ok (LincombOperator projected coefficients))) ∧
  (Exists (λ op, is_lincomb op = true) operators →
   (∃ e, project_block_operator project array_space
           (LincombOperator operators coefficients) range_bases source_bases = Raise e) ∧
   (∃ e, project_block_rhs project
           (LincombOperator operators coefficients) range_bases = Raise e)).
Proof.
  split.
  - intros Hterms. cbn [project_block_operator project_block_rhs]. split.
    + erewrite comprehension_ext; [done|].
      eapply Forall_impl; [exact Hterms|]. intros op Hop. cbv beta.
      by rewrite project_block_operator_term.
    + erewrite comprehension_ext; [done|].
      eapply Forall_impl; [exact Hterms|]. intros op Hop. cbv beta.
      by rewrite project_block_rhs_term.
  - intros Hnested. cbn [project_block_operator project_block_rhs]. split.
    + destruct (comprehension_Raise
                  (λ o, _project_block_operator project array_space o range_bases source_bases)
                  operators) as [e He].
      { eapply Exists_impl; [exact Hnested|]. intros [] Hop; try done.
        by exists NotImplementedError. }
      rewrite He. by exists e.
    + destruct (comprehension_Raise
                  (λ o, _project_block_rhs project o range_bases) operators) as [e He].
      { eapply Exists_impl; [exact Hnested|]. intros [] Hop; try done.
        by exists NotImplementedError. }
      rewrite He. by exists e.
Qed.

End projector_facts.

(** ** The reductor *)

Section reductor_facts.

Context {vec space matrix coef : Type}.
Context `{!@Collaborators vec space matrix coef} `{!@ExtensionPrimitive vec}.
Local Abbreviation reductor := (@reductor vec space matrix coef _).
Local Abbreviation method := (@method vec space matrix coef _).

(** *** Running methods *)

Lemma method_bind_run {A B : Type} (m : method A) (f : A → method B) (r : reductor) :
  (m ≫= f) r = match m r with
               | (Ok a, r') => f a r'
               | (Raise e, r') => (Raise e, r')
               end.
Proof. done. Qed.

(** [m], run from a state that satisfies [P], ends in a state that
    satisfies [P], whether it returns or raises. *)
Definition keeps (P : reductor → Prop) {A : Type} (m : method A) : Prop :=
  ∀ r, P r → P (m r).2.

Lemma keeps_ret (P : reductor → Prop) {A : Type} (a : A) : keeps P (mret a).
Proof. by intros r. Qed.

Lemma keeps_reading (P : reductor → Prop) {A : Type} (f : reductor → result A) :
  keeps P (reading f).
Proof. by intros r. Qed.

Lemma keeps_bind (P : reductor → Prop) {A B : Type} (m : method A) (f : A → method B) :
  keeps P m → (∀ a, keeps P (f a)) → keeps P (m ≫= f).
Proof.
  intros Hm Hf r Hr. rewrite method_bind_run. specialize (Hm r Hr).
  destruct (m r) as [[a|e] r']; [by apply Hf|done].
Qed.

Lemma keeps_for_each (P : reductor → Prop) {A : Type} (body : A → method ()) (xs : list A) :
  (∀ x, keeps P (body x)) → keeps P (for_each_method body xs).
Proof.
  intros Hbody. induction xs as [|x xs IH]; [apply keeps_ret|].
  cbn [for_each_method]. apply keeps_bind; [apply Hbody|]. by intros _.
Qed.

Lemma keeps_modify (P : reductor → Prop) (f : reductor → reductor) :
  (∀ r, P r → P (f r)) → keeps P (modify f).
Proof. intros Hf r Hr. by apply Hf. Qed.

(** *** What a method leaves alone *)

(** [frame touch_cache touched r0 r]: from [r0] to [r] nothing changed but
    the output, the count of [_reduce] calls, the basis objects at the
    references in [touched] and, if [touch_cache], the ROM cache. *)
Definition frame (touch_cache : Prop) (touched : nat → Prop) (r0 r : reductor) : Prop :=
  S_ r = S_ r0 ∧
  fom_operator r = fom_operator r0 ∧
  local_bases r = local_bases r0 ∧
  patch_models r = patch_models r0 ∧
  patch_mappings_to_global r = patch_mappings_to_global r0 ∧
  patch_mappings_to_local r = patch_mappings_to_local r0 ∧
  estimator_domains r = estimator_domains r0 ∧
  (∀ k, ¬ touched k → heap r !! k = heap r0 !! k) ∧
  (¬ touch_cache →
   _last_rom r = _last_rom r0 ∧ _last_rom_dims r = _last_rom_dims r0 ∧
   reduced_local_bases r = reduced_local_bases r0).

Lemma frame_refl (c : Prop) (t : nat → Prop) (r : reductor) : frame c t r r.
Proof. by repeat split. Qed.

Ltac frame_step :=
  let Hr := fresh "Hr" in
  intros ? Hr; unfold frame in *; cbn; intuition.

Lemma keeps_frame_print (c : Prop) (t : nat → Prop) (r0 : reductor) (line : string) :
  keeps (frame c t r0) (print line).
Proof. apply keeps_modify. frame_step. Qed.

Lemma keeps_frame_rebuild (c : Prop) (t : nat → Prop) (r0 : reductor) :
  c → keeps (frame c t r0) rebuild.
Proof.
  intros Hc. unfold rebuild.
  repeat (apply keeps_bind; [|intros ?]);
    try apply keeps_reading; apply keeps_modify; frame_step.
Qed.

Lemma keeps_frame_reduce (c : Prop) (t : nat → Prop) (r0 : reductor)
    {D : Type} (dims : option D) :
  c → keeps (frame c t r0) (reduce dims).
Proof.
  intros Hc. destruct dims; [apply keeps_reading|]. unfold reduce.
  apply keeps_bind; [apply keeps_reading|]. intros stale.
  apply keeps_bind; [|intros _; apply keeps_reading].
  destruct stale; [by apply keeps_frame_rebuild|apply keeps_ret].
Qed.

Lemma keeps_frame_try_extend (c : Prop) (r0 : reductor) (I : nat) (u : list vec) :
  keeps (frame c (λ k, local_bases r0 !! I = Some k) r0) (try_extend I u).
Proof.
  intros r Hr. unfold try_extend.
  assert (Hprint := keeps_frame_print c (λ k, local_bases r0 !! I = Some k) r0
                      "Extension failed").
  destruct (getitem (local_bases r) I) as [ref|e] eqn:Hget; [|by apply Hprint].
  destruct (heap r !! ref) as [basis|]; [|by apply Hprint].
  destruct (extend_basis u basis) as [outcome basis'].
  assert (Hr' : frame c (λ k, local_bases r0 !! I = Some k) r0
                  (set_heap (<[ref:=basis']> (heap r)) r)).
  { apply getitem_Ok in Hget.
    destruct Hr as (? & ? & Hlb & ? & ? & ? & ? & Hheap & ?).
    repeat split; try done; try tauto.
    intros k Hk. cbn. rewrite lookup_insert_ne; [by apply Hheap|].
    intros ->. apply Hk. by rewrite <- Hlb. }
  destruct outcome; [done|by apply Hprint].
Qed.

Ltac keeps_chain :=
  repeat lazymatch goal with
  | |- keeps _ (mbind _ _) => apply keeps_bind; [|intros ?]
  | |- keeps _ (reading _) => apply keeps_reading
  | |- keeps _ (mret _) => apply keeps_ret
  | |- keeps (frame _ _ _) (print _) => apply keeps_frame_print
  end.

Lemma keeps_frame_ensure_rom (r0 : reductor) (t : nat → Prop) :
  keeps (frame (_last_rom r0 = None) t r0) ensure_rom.
Proof.
  intros r Hr. unfold ensure_rom. destruct (_last_rom r) eqn:Hlast; [done|].
  destruct (decide (_last_rom r0 = None)) as [Hnone|Hsome].
  - apply (keeps_bind (frame (_last_rom r0 = None) t r0)
             (reduce (D:=()) None) (λ _, mret ())); [|intros _; apply keeps_ret|done].
    by apply keeps_frame_reduce.
  - destruct Hr as (_ & _ & _ & _ & _ & _ & _ & _ & Hcache).
    destruct (Hcache Hsome) as (Heq & _). congruence.
Qed.

Lemma keeps_frame_solve_correction (r0 : reductor) (t : nat → Prop)
    (I : nat) (mu : parameter) (use_global_matrix : bool) :
  keeps (frame (_last_rom r0 = None) t r0) (solve_correction I mu use_global_matrix).
Proof.
  unfold solve_correction.
  apply keeps_bind; [apply keeps_frame_ensure_rom|]. intros _.
  unfold last_rom. keeps_chain.
  destruct use_global_matrix; unfold global_interaction, patch_interaction, reconstruct;
    keeps_chain.
Qed.

Lemma keeps_frame_enrich_locally (r0 : reductor)
    (I : nat) (mu : parameter) (use_global_matrix : bool) :
  keeps (frame (_last_rom r0 = None) (λ k, local_bases r0 !! I = Some k) r0)
        (enrich_locally I mu use_global_matrix).
Proof.
  unfold enrich_locally.
  apply keeps_bind; [apply keeps_frame_solve_correction|]. intros [phi u].
  apply keeps_bind; [apply keeps_frame_try_extend|]. intros _. apply keeps_ret.
Qed.

(** The bases the constructor creates by default are distinct objects. *)
Lemma default_local_bases_distinct (S : nat) :
  NoDup (default_local_bases (vec:=vec) S).1 ∧
  ∀ ss, ss < S → (default_local_bases (vec:=vec) S).2 !! ss = Some [].
Proof.
  split; [apply NoDup_seq|]. intros ss Hss. cbn [default_local_bases snd].
  apply elem_of_list_to_map.
  - rewrite <- list_fmap_compose. rewrite (list_fmap_ext _ id); [|done].
    rewrite list_fmap_id. apply NoDup_seq.
  - apply list_elem_of_fmap. exists ss. split; [done|]. apply elem_of_seq. lia.
Qed.

(** C10: [enrich_locally(I, mu)] changes no attribute of the reductor other
    than the basis object behind [local_bases[I]] and, when no ROM existed
    before the call, the ROM cache: the list [local_bases], the patch models,
    the patch mappings and the estimator domains are as before; every basis
    object other than that of [I] is as before, so that, the bases being
    distinct objects, [local_bases[J]] is unchanged for every [J] other than
    [I]; and a ROM cache that existed is as before.  This holds whether the
    call returns or raises. *)
Theorem enrich_locally_frame (I : nat) (mu : parameter) (use_global_matrix : bool)
    (r : reductor) :
  let r' := (enrich_locally I mu use_global_matrix r).2 in
  local_bases r' = local_bases r ∧
  (∀ k, local_bases r !! I ≠ Some k → heap r' !! k = heap r !! k) ∧
  (NoDup (local_bases r) → ∀ J, J ≠ I → local_basis r' J = local_basis r J) ∧
  patch_models r' = patch_models r ∧
  patch_mappings_to_global r' = patch_mappings_to_global r ∧
  patch_mappings_to_local r' = patch_mappings_to_local r ∧
  estimator_domains r' = estimator_domains r ∧
  (is_Some (_last_rom r) →
   _last_rom r' = _last_rom r ∧ _last_rom_dims r' = _last_rom_dims r ∧
   reduced_local_bases r' = reduced_local_bases r).
Proof.
  intros r'.
  destruct (keeps_frame_enrich_locally r I mu use_global_matrix r (frame_refl _ _ r))
    as (_ & _ & Hlb & Hpm & Hg & Hl & Hed & Hheap & Hcache).
  fold r' in Hlb, Hpm, Hg, Hl, Hed, Hheap, Hcache.
  split; [done|]. split; [done|]. split; [|split; [done|split; [done|split; [done|split; [done|]]]]].
  - intros Hnd J HJ. unfold local_basis. rewrite Hlb.
    destruct (getitem (local_bases r) J) as [ref|e] eqn:Hget; [|done].
    cbn [mbind result_bind]. rewrite Hheap; [done|].
    intros HI. apply getitem_Ok in Hget. apply HJ. by eapply NoDup_lookup.
  - intros [rom Hrom]. apply Hcache. congruence.
Qed.

(** *** Absorbing a failed extension *)

(** C9: when the extension primitive raises in [enrich_locally(I, mu)],
    that is, the correction [phi] was computed and extending the basis of
    [I] by its block raised, then [enrich_locally] returns [phi] normally,
    the line "Extension failed" is printed last, and the basis of [I] has
    the length it had before the call. *)
Theorem enrich_locally_absorbs_extension_failure
    (I : nat) (mu : parameter) (use_global_matrix : bool) (r r1 : reductor)
    (phi : list (list vec)) (u : list vec) (ref : nat) (basis basis' : list vec)
    (e : exn) :
  solve_correction I mu use_global_matrix r = (Ok (phi, u), r1) →
  local_bases r !! I = Some ref →
  heap r !! ref = Some basis →
  extend_basis u basis = (Raise e, basis') →
  ∃ r',
    enrich_locally I mu use_global_matrix r = (Ok phi, r') ∧
    stdout r' = stdout r1 ++ ["Extension failed"] ∧
    local_basis r I = Ok basis ∧
    local_basis r' I = Ok basis' ∧
    length basis' = length basis.
Proof.
  intros Hsolve Href Hbasis Hext.
  pose proof (keeps_frame_solve_correction r (λ _, False) I mu use_global_matrix r
                (frame_refl _ _ r)) as Hframe.
  rewrite Hsolve in Hframe. cbn [snd] in Hframe.
  destruct Hframe as (_ & _ & Hlb & _ & _ & _ & _ & Hheap & _).
  specialize (Hheap ref (λ H, H)).
  exists (write_stdout "Extension failed" (set_heap (<[ref:=basis']> (heap r1)) r1)).
  split; [|split; [done|split; [|split]]].
  - unfold enrich_locally. rewrite method_bind_run, Hsolve.
    rewrite method_bind_run. unfold add_local_solutions, try_extend.
    rewrite Hlb. rewrite (proj2 (getitem_Ok _ _ _) Href).
    rewrite Hheap, Hbasis, Hext. done.
  - unfold local_basis. rewrite (proj2 (getitem_Ok _ _ _) Href).
    cbn [mbind result_bind]. by rewrite Hbasis.
  - unfold local_basis. cbn [local_bases write_stdout set_heap heap].
    rewrite Hlb, (proj2 (getitem_Ok _ _ _) Href).
    cbn [mbind result_bind]. by rewrite lookup_insert_eq.
  - by eapply extend_basis_failure.
Qed.

(** *** The ROM cache *)

Lemma comprehension_total {A B : Type} (f : A → result B) (xs : list A) :
  Forall (λ x, ∃ y, f x = Ok y) xs → ∃ ys, comprehension f xs = Ok ys.
Proof.
  induction 1 as [|x xs [y Hy] _ [ys IH]]; [by exists []|].
  exists (y :: ys). cbn [comprehension]. by rewrite Hy, IH.
Qed.

Lemma local_basis_total (r : reductor) (I : nat) :
  wf r → I < length (local_bases r) → ∃ basis, local_basis r I = Ok basis.
Proof.
  intros (_ & Hrefs & _) HI.
  destruct (lookup_lt_is_Some_2 _ _ HI) as [ref Href].
  rewrite Forall_forall in Hrefs.
  destruct (Hrefs ref) as [basis Hbasis]; [by eapply list_elem_of_lookup_2|].
  exists basis. unfold local_basis. rewrite (proj2 (getitem_Ok _ _ _) Href).
  cbn [mbind result_bind]. by rewrite Hbasis.
Qed.

Lemma basis_length_total (r : reductor) : wf r → ∃ lengths, basis_length r = Ok lengths.
Proof.
  intros Hwf. apply comprehension_total, Forall_forall.
  intros I [_ HI]%elem_of_seq.
  destruct (local_basis_total r I Hwf) as [basis ->]; [destruct Hwf; lia|].
  by eexists.
Qed.

Lemma deepcopy_total (r : reductor) : wf r → ∃ bases, deepcopy_local_bases r = Ok bases.
Proof.
  intros Hwf. apply comprehension_total, Forall_forall.
  intros I [_ HI]%elem_of_seq. apply local_basis_total; [done|lia].
Qed.

Lemma must_rebuild_run (r : reductor) :
  wf r → must_rebuild r = (Ok (bool_decide (stale r)), r).
Proof.
  intros Hwf. destruct (basis_length_total r Hwf) as [lengths Hlen].
  unfold must_rebuild, reading. f_equal.
  destruct (_last_rom r) as [rom|] eqn:Hrom.
  - destruct Hwf as (_ & _ & Hdims). destruct Hdims as [dims Hdims]; [by eexists|].
    rewrite Hlen, Hdims. cbn [mbind result_bind]. f_equal.
    apply bool_decide_ext. unfold stale, total_basis_length. rewrite Hrom, Hlen, Hdims.
    split; [intros Hlt; right; by exists dims|].
    intros [?|(d & Hd & Hlt)]; [done|]. by simplify_eq.
  - f_equal. symmetry. apply bool_decide_eq_true_2. unfold stale. by left.
Qed.

Lemma rebuild_run (r : reductor) (bases : list (list vec)) :
  wf r → deepcopy_local_bases r = Ok bases →
  rebuild r =
    match inherited_reduce bases with
    | Ok content =>
        (Ok (),
         set_reduced_local_bases bases
           (set_last_rom_dims (total_basis_length r)
              (set_last_rom {| rom_id := S (reduce_calls r); rom_content := content |}
                 (count_reduce_call r))))
    | Raise e => (Raise e, count_reduce_call r)
    end.
Proof.
  intros Hwf Hbases. destruct (basis_length_total r Hwf) as [lengths Hlen].
  unfold total_basis_length. rewrite Hlen.
  cbv beta iota delta [rebuild modify reading mbind method_bind mret method_ret].
  change (deepcopy_local_bases (count_reduce_call r)) with (deepcopy_local_bases r).
  rewrite Hbases. cbv beta iota.
  destruct (inherited_reduce bases) as [content|e]; [|done].
  cbv beta iota.
  match goal with
  | |- context [basis_length ?x] => change (basis_length x) with (basis_length r)
  end.
  rewrite Hlen. cbv beta iota.
  match goal with
  | |- context [deepcopy_local_bases ?x] =>
      change (deepcopy_local_bases x) with (deepcopy_local_bases r)
  end.
  by rewrite Hbases.
Qed.

Lemma wf_rebuilt (r : reductor) (rom : ROM) (dims : nat) (bases : list (list vec)) :
  wf r →
  wf (set_reduced_local_bases bases
        (set_last_rom_dims dims (set_last_rom rom (count_reduce_call r)))).
Proof. intros (? & ? & ?). split; [done|]. split; [done|]. intros _. by eexists. Qed.

Lemma total_basis_length_rebuilt (r : reductor) (rom : ROM) (dims : nat)
    (bases : list (list vec)) :
  total_basis_length
    (set_reduced_local_bases bases
       (set_last_rom_dims dims (set_last_rom rom (count_reduce_call r))))
  = total_basis_length r.
Proof. done. Qed.

(** On a well-formed reductor that is not stale, [reduce()] returns the
    cached ROM and changes nothing. *)
Lemma reduce_cached (r : reductor) :
  wf r → ¬ stale r → ∃ rom, _last_rom r = Some rom ∧ reduce (D:=()) None r = (Ok rom, r).
Proof.
  intros Hwf Hfresh. destruct (_last_rom r) as [rom|] eqn:Hrom.
  - exists rom. split; [done|]. unfold reduce.
    rewrite method_bind_run, must_rebuild_run by done.
    rewrite bool_decide_eq_false_2 by done.
    cbv beta iota delta [last_rom reading mbind method_bind mret method_ret].
    by rewrite Hrom.
  - exfalso. apply Hfresh. by left.
Qed.

(** On a well-formed reductor that is stale, [reduce()] calls [_reduce]
    on the current bases, records the ROM, the size and the snapshot. *)
Lemma reduce_rebuilds (r : reductor) (bases : list (list vec)) :
  wf r → stale r → deepcopy_local_bases r = Ok bases →
  reduce (D:=()) None r =
    match inherited_reduce bases with
    | Ok content =>
        let rom := {| rom_id := S (reduce_calls r); rom_content := content |} in
        (Ok rom,
         set_reduced_local_bases bases
           (set_last_rom_dims (total_basis_length r)
              (set_last_rom rom (count_reduce_call r))))
    | Raise e => (Raise e, count_reduce_call r)
    end.
Proof.
  intros Hwf Hstale Hbases. unfold reduce.
  rewrite method_bind_run, must_rebuild_run by done.
  rewrite bool_decide_eq_true_2 by done.
  rewrite method_bind_run, (rebuild_run r bases) by done.
  by destruct (inherited_reduce bases).
Qed.

Lemma keeps_wf_reduce : keeps wf (reduce (D:=()) None).
Proof.
  intros r Hwf. destruct (decide (stale r)) as [Hstale|Hfresh].
  - destruct (deepcopy_total r Hwf) as [bases Hbases].
    rewrite (reduce_rebuilds r bases) by done.
    destruct (inherited_reduce bases); [by apply wf_rebuilt|done].
  - destruct (reduce_cached r Hwf Hfresh) as (rom & _ & ->). done.
Qed.

Lemma keeps_wf_print (line : string) : keeps wf (print line).
Proof. apply keeps_modify. by intros r (? & ? & ?). Qed.

Lemma keeps_wf_try_extend (I : nat) (u : list vec) : keeps wf (try_extend I u).
Proof.
  intros r Hwf. unfold try_extend.
  assert (Hprint := keeps_wf_print "Extension failed").
  destruct (getitem (local_bases r) I) as [ref|e] eqn:Hget; [|by apply Hprint].
  destruct (heap r !! ref) as [basis|] eqn:Hbasis; [|by apply Hprint].
  destruct (extend_basis u basis) as [outcome basis'].
  assert (Hwf' : wf (set_heap (<[ref:=basis']> (heap r)) r)).
  { destruct Hwf as (? & Hrefs & ?). split; [done|]. split; [|done].
    eapply Forall_impl; [exact Hrefs|]. intros k Hk. cbn.
    destruct (decide (ref = k)) as [->|Hne].
    - rewrite lookup_insert_eq. by eexists.
    - by rewrite lookup_insert_ne. }
  destruct outcome; [done|by apply Hprint].
Qed.

Lemma keeps_wf_enrich_locally (I : nat) (mu : parameter) (use_global_matrix : bool) :
  keeps wf (enrich_locally I mu use_global_matrix).
Proof.
  unfold enrich_locally. apply keeps_bind; [|intros [phi u]].
  - unfold solve_correction. apply keeps_bind.
    + intros r Hwf. unfold ensure_rom. destruct (_last_rom r); [done|].
      apply (keeps_bind wf (reduce (D:=()) None) (λ _, mret ()));
        [apply keeps_wf_reduce|intros _; apply keeps_ret|done].
    + intros _. unfold last_rom. keeps_chain.
      destruct use_global_matrix;
        unfold global_interaction, patch_interaction, reconstruct; keeps_chain.
      apply keeps_wf_print.
  - apply keeps_bind; [apply keeps_wf_try_extend|intros _; apply keeps_ret].
Qed.

Lemma keeps_wf_run_call (c : call) (r : reductor) : wf r → wf (run_call c r).
Proof.
  intros Hwf. destruct c as [|I mu g|mu g|I u|us]; cbn [run_call].
  - by apply keeps_wf_reduce.
  - by apply keeps_wf_enrich_locally.
  - revert r Hwf. unfold enrich_all_locally.
    apply keeps_bind; [apply keeps_reading|]. intros n.
    apply keeps_for_each. intros I.
    apply keeps_bind; [apply keeps_wf_enrich_locally|intros _; apply keeps_ret].
  - by apply keeps_wf_try_extend.
  - revert r Hwf. unfold add_global_solutions.
    apply keeps_bind; [apply keeps_reading|]. intros _.
    apply keeps_bind; [apply keeps_reading|]. intros n.
    apply keeps_for_each. intros I.
    apply keeps_bind; [apply keeps_reading|]. intros us_block.
    apply keeps_wf_try_extend.
Qed.

Lemma wf_run_calls (cs : list call) (r : reductor) : wf r → wf (run_calls cs r).
Proof.
  revert r. induction cs as [|c cs IH]; intros r Hwf; [done|].
  cbn [run_calls foldl]. apply IH. by apply keeps_wf_run_call.
Qed.

(** C2: at any point of any sequence of calls on a well-formed reductor,
    [reduce()] calls [_reduce] (rebuilds) if and only if no cached ROM
    exists or the current total basis length exceeds the recorded one; a
    rebuild that returns caches the new ROM and records the current total
    basis length; otherwise [reduce()] returns the cached ROM object and
    leaves the reductor as it is; and a second [reduce()] right after a
    first returns the very same ROM object without a rebuild. *)
Theorem reduce_cache_rule (calls : list call) (r0 : reductor) :
  wf r0 →
  let r := run_calls calls r0 in
  let out := reduce (D:=()) None r in
  (reduce_calls out.2 = S (reduce_calls r) ↔ stale r) ∧
  (stale r → ∀ bases content,
     deepcopy_local_bases r = Ok bases → inherited_reduce bases = Ok content →
     out.1 = Ok {| rom_id := S (reduce_calls r); rom_content := content |} ∧
     _last_rom out.2 = Some {| rom_id := S (reduce_calls r); rom_content := content |} ∧
     _last_rom_dims out.2 = Some (total_basis_length r)) ∧
  (¬ stale r → ∃ rom, _last_rom r = Some rom ∧ out = (Ok rom, r)) ∧
  (∀ rom, out.1 = Ok rom →
     reduce (D:=()) None out.2 = (Ok rom, out.2) ∧ ¬ stale out.2).
Proof.
  intros Hwf0 r out. assert (Hwf : wf r) by by apply wf_run_calls.
  destruct (deepcopy_total r Hwf) as [bases Hbases].
  assert (Hfresh_after : ∀ rom, out.1 = Ok rom → ¬ stale out.2 ∧ _last_rom out.2 = Some rom).
  { intros rom Hout. subst out. destruct (decide (stale r)) as [Hstale|Hfresh].
    - rewrite (reduce_rebuilds r bases) in Hout |- * by done.
      destruct (inherited_reduce bases) as [content|e]; [|done].
      cbn in Hout. simplify_eq. split; [|done].
      intros [Hnone|(d & Hd & Hlt)]; [done|]. cbn in Hd. simplify_eq.
      cbn [snd] in Hlt. rewrite total_basis_length_rebuilt in Hlt. lia.
    - destruct (reduce_cached r Hwf Hfresh) as (rom' & Hrom' & Hrun).
      rewrite Hrun in Hout |- *. cbn in Hout. simplify_eq. done. }
  split; [|split; [|split]].
  - subst out. destruct (decide (stale r)) as [Hstale|Hfresh].
    + split; [done|intros _]. rewrite (reduce_rebuilds r bases) by done.
      by destruct (inherited_reduce bases).
    + destruct (reduce_cached r Hwf Hfresh) as (rom & _ & ->). cbn. split; [lia|done].
  - intros Hstale bases' content Hbases' Hcontent. subst out.
    rewrite (reduce_rebuilds r bases') by done. by rewrite Hcontent.
  - intros Hfresh. by apply reduce_cached.
  - intros rom Hout. destruct (Hfresh_after rom Hout) as [Hfresh Hlast].
    split; [|done].
    destruct (reduce_cached out.2) as (rom' & Hrom' & Hrun); [|done|].
    + subst out. by apply keeps_wf_reduce.
    + rewrite Hrun. congruence.
Qed.

End reductor_facts.

(** ** The estimator domains *)

Lemma np_sort_unique_spec (l : list nat) :
  Sorted Nat.le (np_sort (np_unique l)) ∧ NoDup (np_sort (np_unique l)) ∧
  ∀ x, x ∈ np_sort (np_unique l) ↔ x ∈ l.
Proof.
  unfold np_unique, np_sort. split; [|split].
  - apply Sorted_merge_sort. apply _.
  - rewrite !merge_sort_Permutation. apply NoDup_remove_dups.
  - intros x. rewrite !merge_sort_Permutation. apply elem_of_remove_dups.
Qed.

(** What [add_element_neighbors] computes for a node patch: the sorted,
    duplicate-free union of the neighbors of its elements. *)
Lemma add_element_neighbors_lookup (dd_grid : DDGrid) (domains : dict (list nat))
    (k i : nat) (elements : list nat) :
  domains !! k = Some (i, elements) →
  ∃ domain,
    add_element_neighbors dd_grid domains !! k = Some (i, domain) ∧
    Sorted Nat.le domain ∧ NoDup domain ∧
    ∀ x, x ∈ domain ↔ ∃ el, el ∈ elements ∧ x ∈ neighbors dd_grid el.
Proof.
  intros Hk. unfold add_element_neighbors. rewrite list_lookup_fmap, Hk. cbn.
  eexists. split; [done|].
  destruct (np_sort_unique_spec (elements ≫= neighbors dd_grid)) as (Hs & Hnd & Hin).
  split; [done|]. split; [done|]. intros x. rewrite Hin, list_elem_of_bind.
  split; intros (el & ? & ?); by exists el.
Qed.

(** An element enters its domain only as a neighbor of an element.  On the
    3-by-3 grid numbered [0 2 1 / 5 8 3 / 6 7 4], which is not numbered row
    by row, [construct_inner_node_patches] lists [[0, 1, 3, 4]] first; these
    four subdomains do not share a corner, 0 is a neighbor of none of them,
    and the domain of the list is [[1, 2, 3, 4, 5, 7, 8]], without 0. *)
Lemma add_element_neighbors_off_corner :
  ∃ patches domain,
    construct_inner_node_patches shuffled_grid = Ok patches ∧
    dict_getitem patches 0 = Ok [0; 1; 3; 4] ∧
    dict_getitem (add_element_neighbors shuffled_grid patches) 0 = Ok domain ∧
    domain = [1; 2; 3; 4; 5; 7; 8] ∧
    0 ∈ [0; 1; 3; 4] ∧ 0 ∉ domain.
Proof.
  eexists _, _. split; [by vm_compute|]. split; [by vm_compute|].
  split; [by vm_compute|]. split; [done|]. split; [by left|].
  intros Hin. by repeat (apply elem_of_cons in Hin as [?|Hin]; [done|]);
    apply not_elem_of_nil in Hin.
Qed.

(** ** The error estimator *)

Lemma for_each_invariant {A B : Type} (P : B → Prop) (body : B → A → result B)
    (xs : list A) (acc acc' : B) :
  (∀ b x b', P b → body b x = Ok b' → P b') →
  P acc → for_each body xs acc = Ok acc' → P acc'.
Proof.
  intros Hbody. revert acc. induction xs as [|x xs IH]; intros acc Hacc Hrun.
  - cbn in Hrun. by simplify_eq.
  - cbn [for_each] in Hrun. destruct (body acc x) as [b|e] eqn:Hb; [|done].
    cbn [mbind result_bind] in Hrun. eapply IH; [|done]. by eapply Hbody.
Qed.

Section estimator_facts.

Context {num : Type} `{Numeric num} {residual solution parameter : Type}.
Variable block_norm : residual → list nat → solution → parameter → Z → result num.

Lemma distributed_length (self : @EllipticIPLRBEstimator residual)
    (indicators ests : list num) :
  distributed self indicators = Ok ests → length ests = est_domains self.
Proof.
  unfold distributed. intros Hrun.
  eapply (for_each_invariant (λ e : list num, length e = est_domains self)); [| |exact Hrun].
  - intros b [d ind] b' Hb Hstep. unfold distribute in Hstep.
    destruct (dict_getitem _ d) as [ed|]; [|done]. cbn [mbind result_bind] in Hstep.
    eapply (for_each_invariant (λ e : list num, length e = est_domains self));
      [|exact Hb|exact Hstep].
    intros c sd c' Hc Hadd. unfold add_square, setitem in Hadd.
    destruct (getitem c sd); [|done]. cbn [mbind result_bind] in Hadd.
    destruct (decide _); [|done]. simplify_eq. by rewrite length_insert.
  - apply length_replicate.
Qed.

(** What [estimate_error] returns: the norm of the indicators, the
    indicators, and one number, the square root of the sum of the
    per-subdomain vector [ests]. *)
Lemma estimate_error_components (self : @EllipticIPLRBEstimator residual)
    (u_rom : solution) (mu : parameter) (overall : num) (indicators : list num)
    (third : ndvalue num) :
  estimate_error block_norm self u_rom mu = Ok (overall, indicators, third) →
  overall = num_norm indicators ∧
  ∃ ests, distributed self indicators = Ok ests ∧
          length ests = est_domains self ∧
          third = Scalar (num_sqrt (foldl num_add num_zero ests)).
Proof.
  unfold estimate_error. intros Hrun.
  destruct (comprehension _ _) as [inds|]; [|done]. cbn [mbind result_bind] in Hrun.
  destruct (distributed self inds) as [ests|] eqn:Hests; [|done].
  cbn [mbind result_bind] in Hrun. simplify_eq. split; [done|].
  exists ests. split; [done|]. split; [by eapply distributed_length|done].
Qed.

End estimator_facts.

(** C1, at an input where the claim fails: with one estimator domain over
    the four subdomains of a 2-by-2 grid and residual blocks of norm 1, the
    indicator is 2 and the per-subdomain vector is [[4, 4, 4, 4]], but the
    third component returned is the number 4, the square root of the sum of
    that vector, not a vector of length 4. *)
Theorem estimate_error_returns_number :
  estimate_error unit_block_norm four_estimator () ()
    = Ok (2%float, [2%float], Scalar 4%float) ∧
  distributed four_estimator [2%float] = Ok [4%float; 4%float; 4%float; 4%float].
Proof. split; by vm_compute. Qed.

(** ** The theorems at the small instances *)

(** Decidable facts about the instances are settled by evaluation. *)
Ltac by_evaluation := apply (bool_decide_unpack _); vm_compute; exact I.

Lemma construct_local_model_blocks_witness :
  ∃ patch_op patch_rhs,
    construct_local_model [1] (BlockOperator two_blocks)
        (BlockColumnOperator two_column) two_neighbors
      = Ok ({| model_operator := BlockOperator patch_op;
               model_rhs := BlockColumnOperator patch_rhs |},
            local_to_global_mapping [1], global_to_local_mapping [1]) ∧
    getitem2 patch_op 0 0 = getitem2 two_blocks 1 1 ∧
    construct_local_model [1]
        (BlockOperator [[None; None]; [None; nth 1 (nth 1 two_blocks []) None]])
        (BlockColumnOperator two_column) two_neighbors
      = construct_local_model [1] (BlockOperator two_blocks)
          (BlockColumnOperator two_column) two_neighbors.
Proof.
  destruct (construct_local_model_blocks 2 [1] two_blocks two_column two_neighbors)
    as (p & r & Hrun & _ & Hdiag & _ & _ & _ & Hdrop).
  - split; [reflexivity|]. by repeat constructor.
  - reflexivity.
  - repeat constructor.
  - exists p, r. split; [exact Hrun|]. split; [by apply (Hdiag 0 1)|].
    apply Hdrop.
    + split; [reflexivity|]. by repeat constructor.
    + intros i j Hi Hj. apply list_elem_of_singleton in Hi, Hj. by subst.
Defined.

Lemma mappings_mutually_inverse_witness :
  (∃ I, local_to_global_mapping [1; 0] 1%Z = Ok I ∧
        global_to_local_mapping [1; 0] I = 1%Z) ∧
  local_to_global_mapping [1; 0] (global_to_local_mapping [1; 0] 0) = Ok 0 ∧
  global_to_local_mapping [1; 0] 7 = (-1)%Z.
Proof.
  destruct (mappings_mutually_inverse [1; 0] (BlockOperator two_blocks)
              (BlockColumnOperator two_column) two_neighbors
              {| model_operator :=
                   BlockOperator [[nth 1 (nth 1 two_blocks []) None;
                                   nth 0 (nth 1 two_blocks []) None];
                                  [nth 1 (nth 0 two_blocks []) None;
                                   nth 0 (nth 0 two_blocks []) None]];
                 model_rhs := BlockColumnOperator [nth 1 two_column None;
                                                   nth 0 two_column None] |}
              (local_to_global_mapping [1; 0]) (global_to_local_mapping [1; 0]))
    as (Hlg & Hgl & Hout).
  - reflexivity.
  - split; [|split].
    + apply (Hlg ltac:(by_evaluation) 1). simpl. lia.
    + apply Hgl. by_evaluation.
    + apply Hout. by_evaluation.
Defined.

Lemma construct_element_patches_spec_witness :
  ∃ patch,
    construct_element_patches shuffled_grid !! 0 = Some patch ∧
    0 ∈ patch ∧ 8 ∈ patch ∧ 1 ∉ patch.
Proof.
  destruct (construct_element_patches_spec shuffled_grid 0)
    as (patch & Hlook & _ & Hself & _ & Hchar & Hhops).
  - simpl. lia.
  - exists patch. split; [exact Hlook|]. split; [exact Hself|]. split.
    + apply Hchar. right. right. exists 2.
      split; [reflexivity|]. split; by_evaluation.
    + intros HM. apply Hchar in HM.
      destruct HM as [HM|[HM|(k & Hk & Hout & Hsize)]].
      * discriminate HM.
      * revert HM. by_evaluation.
      * assert (Hlt : k < 6) by (by apply lookup_lt_Some in Hk).
        destruct k as [|[|[|[|[|[|k]]]]]]; try discriminate Hk; try lia.
        revert Hsize. by_evaluation.
Defined.

Lemma remove_irrelevant_coupling_keeps_witness :
  ∃ res ops' coefs',
    remove_irrelevant_coupling_from_patch_operator two_patch_model
        (local_to_global_mapping [0; 1])
      = Ok (BlockOperator res) ∧
    entry res 1 1 = Some (Some (LincombOperator ops' coefs')) ∧
    zip ops' coefs' = [(term "volume_1" 5, 1%Z); (term "coupling_0_1" 6, 10%Z)].
Proof.
  destruct (remove_irrelevant_coupling_keeps 2 two_blocks (BlockColumnOperator two_column)
              (local_to_global_mapping [0; 1]) [0; 1])
    as (res & Hrun & _ & Hdiag & _).
  - split; [reflexivity|]. by repeat constructor.
  - reflexivity.
  - intros [|[|i]] Hi; [by eexists _, _..|lia].
  - destruct (Hdiag 1 1 [term "volume_1" 5; term "coupling_0_1" 6; term "coupling_1_2" 7]
                [1; 10; 10]%Z) as (ops' & coefs' & Hentry & _ & Hzip);
      [reflexivity..|].
    exists res, ops', coefs'. split; [exact Hrun|]. split; [exact Hentry|].
    rewrite Hzip. by vm_compute.
Defined.

(** A combination whose only term is itself a combination: projecting the
    whole raises, projecting the term does not. *)
Lemma project_nested_lincomb_differs :
  project_block_operator sample_project sample_space
    (LincombOperator [LincombOperator [BlockOperator [[Some (term "a" 0)]]] [2%Z]] [3%Z])
    [[7%Z]] [[7%Z]]
  ≠ (projected ← comprehension
       (λ op, project_block_operator sample_project sample_space op [[7%Z]] [[7%Z]])
       [LincombOperator [BlockOperator [[Some (term "a" 0)]]] [2%Z]];
     Ok (LincombOperator projected [3%Z])).
Proof. by vm_compute. Qed.

Lemma project_block_commutes_with_lincomb_witness :
  project_block_operator sample_project sample_space
      (LincombOperator [BlockOperator [[Some (term "a" 0)]]; IdentityOperator ()] [2; 3]%Z)
      [[7%Z]] [[7%Z]]
    = Ok (LincombOperator [BlockOperator [[Some (term "a" 0)]];
                           BlockOperator [[Some (IdentityOperator ())]]] [2; 3]%Z) ∧
  ∃ e, project_block_operator sample_project sample_space
         (LincombOperator [LincombOperator [] []] [3%Z]) [[7%Z]] [[7%Z]] = Raise e.
Proof.
  split.
  - destruct (project_block_commutes_with_lincomb sample_project sample_space
                [BlockOperator [[Some (term "a" 0)]]; IdentityOperator ()] [2; 3]%Z
                [[7%Z]] [[7%Z]]) as [Hterms _].
    destruct Hterms as [Hop _]; [by repeat constructor|]. by rewrite Hop.
  - destruct (project_block_commutes_with_lincomb sample_project sample_space
                [LincombOperator [] []] [3%Z] [[7%Z]] [[7%Z]]) as [_ Hnested].
    destruct Hnested as [Hop _]; [by repeat constructor|]. exact Hop.
Defined.

Lemma two_reductor_wf : wf two_reductor.
Proof.
  split; [simpl; lia|]. split.
  - repeat constructor; by eexists.
  - by intros [? ?].
Defined.

Lemma reduce_cache_rule_witness :
  let r := run_calls two_calls two_reductor in
  stale r ∧
  reduce_calls (reduce (D:=()) None r).2 = S (reduce_calls r) ∧
  ∃ rom, (reduce (D:=()) None r).1 = Ok rom ∧
         reduce (D:=()) None (reduce (D:=()) None r).2
           = (Ok rom, (reduce (D:=()) None r).2).
Proof.
  intros r.
  destruct (reduce_cache_rule two_calls two_reductor two_reductor_wf)
    as (Hiff & _ & _ & Hagain).
  fold r in Hiff, Hagain.
  assert (Hstale : stale r) by (right; exists 1; split; [reflexivity|by vm_compute]).
  split; [exact Hstale|]. split; [by apply Hiff|].
  eexists. split; [reflexivity|]. apply Hagain. reflexivity.
Defined.

Lemma enrich_locally_absorbs_extension_failure_witness :
  ∃ r',
    enrich_locally 0 mu_five false two_reductor = (Ok [[5%Z]; [5%Z]], r') ∧
    last (stdout r') = Some "Extension failed" ∧
    local_basis r' 0 = Ok [5%Z].
Proof.
  destruct (enrich_locally_absorbs_extension_failure 0 mu_five false two_reductor
              (solve_correction 0 mu_five false two_reductor).2
              [[5%Z]; [5%Z]] [5%Z] 0 [5%Z] [5%Z] ExtensionError)
    as (r' & Hrun & Hout & _ & Hbasis & _); [reflexivity..|].
  exists r'. split; [exact Hrun|]. split; [|exact Hbasis].
  rewrite Hout. by rewrite last_snoc.
Defined.

Lemma enrich_locally_frame_witness :
  let r' := (enrich_locally 1 mu_five false two_reductor).2 in
  local_basis r' 1 = Ok [5%Z] ∧
  local_basis r' 0 = local_basis two_reductor 0 ∧
  patch_models r' = patch_models two_reductor ∧
  is_Some (_last_rom r').
Proof.
  intros r'.
  destruct (enrich_locally_frame 1 mu_five false two_reductor)
    as (_ & _ & Hother & Hmodels & _).
  fold r' in Hother, Hmodels.
  split; [reflexivity|]. split; [|split; [exact Hmodels|by eexists]].
  apply Hother; [by_evaluation|lia].
Defined.

(** * Further properties *)

(** ** The local model builder: right-hand side, bounds, index mappings *)

(** The first exception of a loop is an exception of its body. *)
Lemma for_each_Raise {A B : Type} (P : exn → Prop) (body : B → A → result B)
    (xs : list A) (acc : B) (e : exn) :
  (∀ b x e', body b x = Raise e' → P e') →
  for_each body xs acc = Raise e → P e.
Proof.
  intros Hbody. revert acc. induction xs as [|x xs IH]; intros acc Hrun; [done|].
  cbn [for_each] in Hrun. destruct (body acc x) as [b|e'] eqn:Hb.
  - by eapply IH.
  - cbn in Hrun. simplify_eq. by eapply Hbody.
Qed.

(** A loop that returns ran its body on every element. *)
Lemma for_each_Ok_body {A B : Type} (body : B → A → result B)
    (xs : list A) (acc acc' : B) (x : A) :
  for_each body xs acc = Ok acc' → x ∈ xs → ∃ b b', body b x = Ok b'.
Proof.
  revert acc. induction xs as [|y xs IH]; intros acc Hrun Hx.
  - by apply not_elem_of_nil in Hx.
  - cbn [for_each] in Hrun. destruct (body acc y) as [b|e'] eqn:Hb; [|done].
    apply elem_of_cons in Hx as [->|Hx]; [by eexists _, _|by eapply IH].
Qed.

Lemma getitem_Raise {A : Type} (l : list A) (i : nat) (e : exn) :
  getitem l i = Raise e → e = IndexError.
Proof. unfold getitem. destruct (l !! i); congruence. Qed.

Lemma getitem2_Raise {A : Type} (a : list (list A)) (i j : nat) (e : exn) :
  getitem2 a i j = Raise e → e = IndexError.
Proof.
  unfold getitem2. destruct (getitem a i) as [row|e'] eqn:Hrow; cbn.
  - apply getitem_Raise.
  - intros [= <-]. by eapply getitem_Raise.
Qed.

Lemma setitem_Raise {A : Type} (a : list A) (i : nat) (v : A) (e : exn) :
  setitem a i v = Raise e → e = IndexError.
Proof. unfold setitem. destruct (decide _); congruence. Qed.

Lemma setitem2_Raise {A : Type} (a : list (list A)) (i j : nat) (v : A) (e : exn) :
  setitem2 a i j v = Raise e → e = IndexError.
Proof.
  unfold setitem2. destruct (getitem a i) as [row|e'] eqn:Hrow; cbn.
  - destruct (setitem row j v) as [row'|e'] eqn:Hset; cbn; [done|].
    intros [= <-]. by eapply setitem_Raise.
  - intros [= <-]. by eapply getitem_Raise.
Qed.

Lemma py_getitem_Raise {A : Type} (l : list A) (i : Z) (e : exn) :
  py_getitem l i = Raise e → e = IndexError.
Proof.
  unfold py_getitem. repeat destruct (decide _); try congruence; apply getitem_Raise.
Qed.

Lemma getitem2_Ok_lt {A : Type} (n m : nat) (a : list (list A)) (i j : nat) (x : A) :
  shape n m a → getitem2 a i j = Ok x → i < n ∧ j < m.
Proof.
  intros Hsh Hx. apply getitem2_entry in Hx. unfold entry in Hx.
  destruct (a !! i) as [row|] eqn:Hrow; [|done]. cbn in Hx.
  split.
  - apply lookup_lt_Some in Hrow. destruct Hsh. lia.
  - apply lookup_lt_Some in Hx. by rewrite (shape_row _ _ _ _ _ Hsh Hrow) in Hx.
Qed.

Section local_model_bounds.

Context {vec space matrix coef : Type}.
Local Abbreviation operator := (@operator vec space matrix coef).

Variables (S : nat) (elements : list nat).
Variables (B : list (list (option operator))) (column : list (option operator)).
Variable neighbors : nat → list nat.

Hypothesis B_shape : shape S S B.

Local Abbreviation rhs_blocks := ((λ b : option operator, [b]) <$> column).

Lemma couple_neighbor_Raise (ii I : nat) (p : list (list (option operator)))
    (J : nat) (e : exn) :
  couple_neighbor elements B ii I p J = Raise e → e = IndexError.
Proof.
  unfold couple_neighbor. destruct (decide _); [|done].
  destruct (getitem2 B I J) as [b|e'] eqn:Hb; cbn.
  - apply setitem2_Raise.
  - intros [= <-]. by eapply getitem2_Raise.
Qed.

Lemma fill_row_Raise (acc : list (list (option operator)) * list (option operator))
    (ii : nat) (e : exn) :
  fill_row elements B rhs_blocks neighbors acc ii = Raise e → e = IndexError.
Proof.
  unfold fill_row.
  destruct (local_to_global_mapping elements (Z.of_nat ii)) as [I|e1] eqn:H1; cbn;
    [|intros [= <-]; by eapply py_getitem_Raise].
  destruct (getitem2 B I I) as [d|e2] eqn:H2; cbn;
    [|intros [= <-]; by eapply getitem2_Raise].
  destruct (setitem2 acc.1 ii ii d) as [p|e3] eqn:H3; cbn;
    [|intros [= <-]; by eapply setitem2_Raise].
  destruct (getitem2 rhs_blocks I 0) as [c|e4] eqn:H4; cbn;
    [|intros [= <-]; by eapply getitem2_Raise].
  destruct (setitem acc.2 ii c) as [r|e5] eqn:H5; cbn;
    [|intros [= <-]; by eapply setitem_Raise].
  destruct (for_each _ (neighbors I) p) as [p'|e6] eqn:H6; cbn; [done|].
  intros [= <-]. eapply (for_each_Raise (λ e, e = IndexError)); [|exact H6].
  intros b x e'. apply couple_neighbor_Raise.
Qed.

Lemma fill_row_Ok_lt (acc acc' : list (list (option operator)) * list (option operator))
    (ii I : nat) :
  elements !! ii = Some I →
  fill_row elements B rhs_blocks neighbors acc ii = Ok acc' → I < S.
Proof.
  intros HI. unfold fill_row, local_to_global_mapping, py_getitem.
  rewrite decide_True by lia. rewrite Nat2Z.id.
  rewrite (proj2 (getitem_Ok elements ii I) HI). cbn [mbind result_bind].
  destruct (getitem2 B I I) as [d|] eqn:Hd; [|done]. intros _.
  by destruct (getitem2_Ok_lt S S B I I d B_shape Hd).
Qed.

End local_model_bounds.

(** The patch right-hand side that [construct_local_model] builds has one
    block per element of the list, and its block [ii] is the global
    right-hand-side block of [elements[ii]]. *)
Theorem construct_local_model_rhs {vec space matrix coef : Type}
    (S : nat) (local_elements : list nat)
    (blocks_op : list (list (option (@operator vec space matrix coef))))
    (column : list (option (@operator vec space matrix coef)))
    (neighbors : nat → list nat) :
  shape S S blocks_op → length column = S → Forall (λ I, I < S) local_elements →
  ∃ patch_model patch_rhs,
    construct_local_model local_elements (BlockOperator blocks_op)
        (BlockColumnOperator column) neighbors
      = Ok (patch_model, local_to_global_mapping local_elements,
            global_to_local_mapping local_elements) ∧
    model_rhs patch_model = BlockColumnOperator patch_rhs ∧
    length patch_rhs = length local_elements ∧
    ∀ ii I, local_elements !! ii = Some I → getitem patch_rhs ii = getitem column I.
Proof.
  intros HB Hcol Hlt.
  destruct (assemble_patch_spec S local_elements blocks_op column neighbors HB Hcol Hlt)
    as (p & r & Hrun & _ & Hr & Hrhs & _).
  exists {| model_operator := BlockOperator p; model_rhs := BlockColumnOperator r |}, r.
  split; [|split; [done|split; [done|]]].
  - unfold construct_local_model. cbn [op_blocks mbind result_bind]. by rewrite Hrun.
  - intros ii I HI. unfold getitem. by rewrite (Hrhs ii I HI).
Qed.

(** On an S-by-S block operator and an S-block right-hand side,
    [construct_local_model] returns exactly when every element of the list
    is below S; otherwise it raises, and the only exception it raises is
    [IndexError]. *)
Theorem construct_local_model_bounds {vec space matrix coef : Type}
    (S : nat) (local_elements : list nat)
    (blocks_op : list (list (option (@operator vec space matrix coef))))
    (column : list (option (@operator vec space matrix coef)))
    (neighbors : nat → list nat) :
  shape S S blocks_op → length column = S →
  ((∃ out, construct_local_model local_elements (BlockOperator blocks_op)
             (BlockColumnOperator column) neighbors = Ok out)
   ↔ Forall (λ I, I < S) local_elements) ∧
  (∀ e, construct_local_model local_elements (BlockOperator blocks_op)
          (BlockColumnOperator column) neighbors = Raise e → e = IndexError).
Proof.
  intros HB Hcol. unfold construct_local_model. cbn [op_blocks mbind result_bind].
  split; [split|].
  - intros [out Hout].
    destruct (assemble_patch _ _ _ _) as [[p r]|e] eqn:Hrun; [|done].
    apply Forall_forall. intros I HI.
    apply list_elem_of_lookup in HI as [ii HI].
    unfold assemble_patch in Hrun.
    destruct (for_each_Ok_body _ _ _ _ ii Hrun) as (b & b' & Hbody).
    { apply elem_of_seq. apply lookup_lt_Some in HI. lia. }
    by eapply fill_row_Ok_lt.
  - intros Hlt.
    destruct (assemble_patch_spec S local_elements blocks_op column neighbors HB Hcol Hlt)
      as (p & r & Hrun & _). rewrite Hrun. by eexists.
  - intros e. destruct (assemble_patch _ _ _ _) as [[p r]|e'] eqn:Hrun; [done|].
    cbn. intros [= <-]. unfold assemble_patch in Hrun.
    eapply (for_each_Raise (λ e, e = IndexError)); [|exact Hrun].
    intros b x e''. apply fill_row_Raise.
Qed.

(** For every element list, [global_to_local_mapping] returns -1 exactly on
    the indices that are not in the list, and otherwise the least local
    index that holds the index asked for; its value always lies between -1
    and S_patch - 1. *)
Theorem global_to_local_least (local_elements : list nat) (I : nat) :
  (global_to_local_mapping local_elements I = (-1)%Z ↔ I ∉ local_elements) ∧
  (I ∈ local_elements →
   ∃ j, global_to_local_mapping local_elements I = Z.of_nat j ∧
        local_elements !! j = Some I ∧
        ∀ j', j' < j → local_elements !! j' ≠ Some I) ∧
  (-1 ≤ global_to_local_mapping local_elements I < Z.of_nat (length local_elements))%Z.
Proof.
  split; [|split].
  - split; [|apply scan_elements_absent].
    intros Hm Hin.
    destruct (scan_elements_present local_elements 0 I Hin) as (j & Hj & _).
    unfold global_to_local_mapping in Hm. lia.
  - intros Hin. unfold global_to_local_mapping.
    destruct (scan_elements_range local_elements 0 I) as [Hm|(j & Hj & Hl & Hleast)].
    + destruct (scan_elements_present local_elements 0 I Hin) as (j & Hj & _). lia.
    + exists j. by rewrite Hj.
  - apply global_to_local_bounds.
Qed.

(** The sentinel -1 is a valid Python index: for a non-empty element list
    and an index [J] outside it, [local_to_global(global_to_local(J))] does
    not raise but returns the last element of the list. *)
Theorem local_to_global_of_sentinel (local_elements : list nat) (J last_element : nat) :
  J ∉ local_elements → last local_elements = Some last_element →
  local_to_global_mapping local_elements (global_to_local_mapping local_elements J)
    = Ok last_element.
Proof.
  intros HJ Hlast. unfold global_to_local_mapping.
  rewrite (scan_elements_absent _ _ _ HJ).
  unfold local_to_global_mapping, py_getitem.
  rewrite last_lookup in Hlast.
  assert (0 < length local_elements).
  { apply lookup_lt_Some in Hlast. lia. }
  rewrite decide_False by lia. rewrite decide_True by lia.
  apply getitem_Ok. rewrite <- Hlast. f_equal. lia.
Qed.

(** ** Node patches and estimator domains *)

Lemma dict_getitem_lookup {V : Type} (d : dict V) (k i : nat) (v : V) :
  NoDup (dict_keys d) → d !! k = Some (i, v) → dict_getitem d i = Ok v.
Proof.
  revert k. induction d as [|[i' v'] d IH]; intros k Hnd Hk; [done|].
  cbn [dict_getitem]. apply NoDup_cons in Hnd as [Hni Hnd].
  destruct k as [|k]; cbn in Hk.
  - simplify_eq. by rewrite decide_True.
  - rewrite decide_False; [by eapply IH|]. intros ->. apply Hni.
    apply list_elem_of_fmap. exists (i, v). split; [done|].
    by eapply list_elem_of_lookup_2.
Qed.

Lemma StronglySorted_lt_NoDup (l : list nat) : StronglySorted lt l → NoDup l.
Proof.
  induction 1 as [|x l _ IH Hall]; constructor; [|done].
  intros Hx. rewrite Forall_forall in Hall. specialize (Hall x Hx). lia.
Qed.

Lemma StronglySorted_lt_le (l : list nat) : StronglySorted lt l → Sorted Nat.le l.
Proof.
  intros Hl. apply StronglySorted_Sorted.
  induction Hl as [|x l _ IH Hall]; constructor; [done|].
  eapply Forall_impl; [exact Hall|]. intros y Hy. unfold Nat.le. lia.
Qed.

Lemma Sorted_le_NoDup_lt (l : list nat) :
  Sorted Nat.le l → NoDup l → StronglySorted lt l.
Proof.
  intros Hs Hnd. apply (Sorted_StronglySorted Nat.le) in Hs.
  induction Hs as [|x l _ IH Hall]; constructor.
  - apply IH. by apply NoDup_cons in Hnd as [_ ?].
  - apply NoDup_cons in Hnd as [Hx _]. rewrite Forall_forall in Hall |- *.
    intros y Hy. specialize (Hall y Hy). unfold Nat.le in Hall.
    assert (x ≠ y) by (by intros ->). lia.
Qed.

(** [sorted(keys)] of keys that are already increasing is the list itself. *)
Lemma merge_sort_sorted (l : list nat) : StronglySorted lt l → merge_sort Nat.le l = l.
Proof.
  intros Hl. apply (Sorted_unique Nat.le).
  - apply Sorted_merge_sort. apply _.
  - by apply StronglySorted_lt_le.
  - apply merge_sort_Permutation.
Qed.

(** The items the two loops of [construct_inner_node_patches] add for the
    rows [a, a + m) of a grid with [n] columns. *)
Definition node_patch_items (n a m : nat) : dict (list nat) :=
  i ← seq a m;
  j ← seq 0 (n - 1);
  [(i * n + j, [i * n + j; i * n + (j + 1); (i + 1) * n + j; (i + 1) * n + (j + 1)])].

Lemma node_patch_items_elem (n a m k : nat) (els : list nat) :
  (k, els) ∈ node_patch_items n a m ↔
  ∃ i j, a ≤ i ∧ i < a + m ∧ j < n - 1 ∧ k = i * n + j ∧
         els = [i * n + j; i * n + (j + 1); (i + 1) * n + j; (i + 1) * n + (j + 1)].
Proof.
  unfold node_patch_items. rewrite list_elem_of_bind. split.
  - intros (i & (j & Hkj & Hj)%list_elem_of_bind & Hi).
    apply list_elem_of_singleton in Hkj. apply elem_of_seq in Hi, Hj.
    exists i, j. simplify_eq. repeat split; lia.
  - intros (i & j & Hai & Him & Hj & -> & ->). exists i. split.
    + apply list_elem_of_bind. exists j. split; [by apply list_elem_of_singleton|].
      apply elem_of_seq. lia.
    + apply elem_of_seq. lia.
Qed.

Lemma node_patch_items_length (n a m : nat) :
  length (node_patch_items n a m) = m * (n - 1).
Proof.
  unfold node_patch_items. revert a. induction m as [|m IH]; intros a; [done|].
  cbn [seq mbind list_bind]. rewrite length_app, (IH (S a)).
  assert (Hrow : ∀ c b, length (seq b c ≫= λ j,
            [(a * n + j,
              [a * n + j; a * n + (j + 1); (a + 1) * n + j; (a + 1) * n + (j + 1)])]) = c).
  { induction c as [|c IHc]; intros b; [done|].
    cbn [seq mbind list_bind]. rewrite length_app, IHc. done. }
  rewrite Hrow. lia.
Qed.

Lemma node_patch_row_sorted (n a c b : nat) :
  StronglySorted lt
    ((seq b c ≫= λ j,
        [(a * n + j,
          [a * n + j; a * n + (j + 1); (a + 1) * n + j; (a + 1) * n + (j + 1)])]).*1).
Proof.
  revert b. induction c as [|c IHc]; intros b; [constructor|].
  cbn [seq mbind list_bind fmap list_fmap app fst]. constructor; [apply IHc|].
  apply Forall_forall. intros k (kv & -> & Hkv)%list_elem_of_fmap.
  apply list_elem_of_bind in Hkv as (j & Hkj & Hj).
  apply list_elem_of_singleton in Hkj. apply elem_of_seq in Hj. subst kv. cbn. lia.
Qed.

Lemma node_patch_keys_sorted (n a m : nat) :
  StronglySorted lt (dict_keys (node_patch_items n a m)).
Proof.
  revert a. induction m as [|m IH]; intros a; [constructor|].
  unfold node_patch_items, dict_keys. cbn [seq mbind list_bind].
  rewrite fmap_app. apply StronglySorted_app_2.
  - intros k1 k2 (kv1 & -> & Hkv1)%list_elem_of_fmap (kv2 & -> & Hkv2)%list_elem_of_fmap.
    apply list_elem_of_bind in Hkv1 as (j & Hkj & Hj).
    apply list_elem_of_singleton in Hkj. apply elem_of_seq in Hj. subst kv1.
    destruct kv2 as [k2 els2].
    apply (node_patch_items_elem n (S a) m) in Hkv2
      as (i2 & j2 & Hi2 & _ & Hj2 & -> & _).
    cbn. nia.
  - apply node_patch_row_sorted.
  - apply IH.
Qed.

(** On a grid of [n * n] subdomains, [construct_inner_node_patches] returns
    [(n - 1) * (n - 1)] node patches under strictly increasing keys; the
    patches are exactly the lists
    [[k, k + 1, k + n, k + n + 1]] with [k = i * n + j] for [i, j < n - 1],
    each made of four different subdomains of the grid, and looking up the
    key [k] gives that list. *)
Theorem construct_inner_node_patches_square (dd_grid : DDGrid) (n : nat) :
  num_subdomains dd_grid = n * n →
  ∃ patches,
    construct_inner_node_patches dd_grid = Ok patches ∧
    length patches = (n - 1) * (n - 1) ∧
    StronglySorted lt (dict_keys patches) ∧
    (∀ k els, (k, els) ∈ patches ↔
       ∃ i j, i < n - 1 ∧ j < n - 1 ∧ k = i * n + j ∧
              els = [k; k + 1; k + n; k + n + 1]) ∧
    (∀ k els, (k, els) ∈ patches →
       dict_getitem patches k = Ok els ∧ NoDup els ∧ Forall (λ el, el < n * n) els).
Proof.
  intros HS. exists (node_patch_items n 0 (n - 1)).
  assert (Hchar : ∀ k els, (k, els) ∈ node_patch_items n 0 (n - 1) ↔
       ∃ i j, i < n - 1 ∧ j < n - 1 ∧ k = i * n + j ∧
              els = [k; k + 1; k + n; k + n + 1]).
  { intros k els. rewrite node_patch_items_elem. split.
    - intros (i & j & _ & Hi & Hj & -> & ->). exists i, j.
      split; [lia|]. split; [lia|]. split; [done|].
      repeat (f_equal; try lia).
    - intros (i & j & Hi & Hj & -> & ->). exists i, j.
      split; [lia|]. split; [lia|]. split; [lia|]. split; [done|].
      repeat (f_equal; try lia). }
  split; [|split; [|split; [|split]]].
  - unfold construct_inner_node_patches. rewrite HS, Nat.sqrt_square.
    by rewrite decide_True.
  - apply node_patch_items_length.
  - apply node_patch_keys_sorted.
  - exact Hchar.
  - intros k els Hin. split; [|split].
    + apply list_elem_of_lookup in Hin as [pos Hpos].
      eapply dict_getitem_lookup; [|exact Hpos].
      apply StronglySorted_lt_NoDup, node_patch_keys_sorted.
    + apply Hchar in Hin as (i & j & Hi & Hj & -> & ->).
      repeat (apply NoDup_cons; split);
        [rewrite ?elem_of_cons, ?elem_of_nil; lia..|apply NoDup_nil_2].
    + apply Hchar in Hin as (i & j & Hi & Hj & -> & ->).
      repeat constructor; nia.
Qed.

(** [construct_inner_node_patches] raises exactly when the number of
    subdomains is not a perfect square, and then the exception is the
    [ValueError] of the reshape. *)
Theorem construct_inner_node_patches_not_square (dd_grid : DDGrid) :
  ((∃ e, construct_inner_node_patches dd_grid = Raise e)
   ↔ ¬ ∃ n, n * n = num_subdomains dd_grid) ∧
  (∀ e, construct_inner_node_patches dd_grid = Raise e → e = ValueError).
Proof.
  unfold construct_inner_node_patches.
  destruct (decide (Nat.sqrt (num_subdomains dd_grid) * Nat.sqrt (num_subdomains dd_grid)
                    = num_subdomains dd_grid)) as [Hsq|Hnsq].
  - split; [|done]. split; [by intros [e ?]|]. intros Hno. exfalso. apply Hno. eauto.
  - split; [|by intros e [= <-]]. split; [|by eexists].
    intros _ [n Hn]. apply Hnsq. rewrite <- Hn. by rewrite Nat.sqrt_square.
Qed.

Lemma add_element_neighbors_keys (dd_grid : DDGrid) (domains : dict (list nat)) :
  dict_keys (add_element_neighbors dd_grid domains) = dict_keys domains.
Proof.
  unfold add_element_neighbors, dict_keys. rewrite <- list_fmap_compose.
  apply list_fmap_ext. by intros ? [i els].
Qed.

(** [add_element_neighbors] keeps the keys of the node patches in their
    order; the estimator domain of a node patch is strictly increasing and
    holds exactly the neighbors of the elements of the patch. *)
Theorem add_element_neighbors_domains (dd_grid : DDGrid) (domains : dict (list nat)) :
  dict_keys (add_element_neighbors dd_grid domains) = dict_keys domains ∧
  ∀ k i elements, domains !! k = Some (i, elements) →
    ∃ domain,
      add_element_neighbors dd_grid domains !! k = Some (i, domain) ∧
      StronglySorted lt domain ∧
      ∀ x, x ∈ domain ↔ ∃ el, el ∈ elements ∧ x ∈ neighbors dd_grid el.
Proof.
  split; [apply add_element_neighbors_keys|].
  - intros k i els Hk.
    destruct (add_element_neighbors_lookup dd_grid domains k i els Hk)
      as (domain & Hlook & Hs & Hnd & Hin).
    exists domain. split; [done|]. split; [by apply Sorted_le_NoDup_lt|done].
Qed.


(** The estimator domains built from the node patches of a grid have their
    keys in increasing order, so that [sorted(keys)] is the insertion order:
    the [k]-th sorted key is the key of the [k]-th item, and looking it up
    gives the [k]-th estimator domain.  The second loop of [estimate_error]
    therefore pairs every indicator with the domain it was computed on. *)
Theorem estimator_domains_sorted_keys (dd_grid : DDGrid) (patches : dict (list nat)) :
  construct_inner_node_patches dd_grid = Ok patches →
  let domains := add_element_neighbors dd_grid patches in
  merge_sort Nat.le (dict_keys domains) = dict_keys domains ∧
  ∀ k i ed, domains !! k = Some (i, ed) →
    merge_sort Nat.le (dict_keys domains) !! k = Some i ∧
    dict_getitem domains i = Ok ed.
Proof.
  intros Hpatches domains.
  assert (Hsorted : StronglySorted lt (dict_keys domains)).
  { subst domains. rewrite add_element_neighbors_keys.
    unfold construct_inner_node_patches in Hpatches.
    destruct (decide _) as [Hsq|]; [|done]. simplify_eq.
    apply node_patch_keys_sorted. }
  assert (Heq : merge_sort Nat.le (dict_keys domains) = dict_keys domains)
    by by apply merge_sort_sorted.
  split; [done|]. intros k i ed Hk. split.
  - rewrite Heq. unfold dict_keys. by rewrite list_lookup_fmap, Hk.
  - eapply dict_getitem_lookup; [|exact Hk]. by apply StronglySorted_lt_NoDup.
Qed.

(** ** The error estimator: the per-subdomain vector *)

Lemma dict_getitem_key {V : Type} (d : dict V) (k : nat) :
  k ∈ dict_keys d → ∃ v, dict_getitem d k = Ok v.
Proof.
  induction d as [|[k' v'] d IH]; cbn [dict_getitem].
  - intros Hk. by apply not_elem_of_nil in Hk.
  - intros Hk. destruct (decide (k' = k)) as [->|Hne]; [by eexists|].
    apply IH. unfold dict_keys in Hk. cbn in Hk.
    by apply elem_of_cons in Hk as [->|Hk].
Qed.

Section distributed_facts.

Context {num : Type} `{Numeric num} {residual : Type}.
Variable self : @EllipticIPLRBEstimator residual.

Local Abbreviation S := (est_domains self).

(** The squares added onto subdomain [sd] by the pairs of a key and an
    indicator, in the order of the second loop: one square for every
    occurrence of [sd] in the estimator domain of the key. *)
Definition contributions (pairs : list (nat * num)) (sd : nat) : list num :=
  pairs ≫= λ '(d, ind),
    match dict_getitem (est_estimator_domains self) d with
    | Ok ed => (λ _, num_square ind) <$> filter (λ x, x = sd) ed
    | Raise _ => []
    end.

(** Every estimator domain that is paired with an indicator holds
    subdomain indices below [self.domains] only. *)
Definition domains_in_range (pairs : list (nat * num)) : Prop :=
  ∀ d ind ed, (d, ind) ∈ pairs →
    dict_getitem (est_estimator_domains self) d = Ok ed → Forall (λ sd, sd < S) ed.

Lemma add_square_step (ind : num) (ests : list num) (sd : nat) :
  add_square ind ests sd =
  match ests !! sd with
  | Some old => Ok (<[sd := num_add old (num_square ind)]> ests)
  | None => Raise IndexError
  end.
Proof.
  unfold add_square, getitem, setitem.
  destruct (ests !! sd) as [old|] eqn:Hold; [|done].
  cbn. apply lookup_lt_Some in Hold. by rewrite decide_True.
Qed.

Lemma add_square_loop (ind : num) (ed : list nat) (ests : list num) :
  length ests = S →
  match for_each (add_square ind) ed ests with
  | Ok ests' =>
      Forall (λ sd, sd < S) ed ∧ length ests' = S ∧
      ∀ sd, ests' !! sd =
            (λ x, foldl num_add x ((λ _, num_square ind) <$> filter (λ x, x = sd) ed))
              <$> ests !! sd
  | Raise e => e = IndexError ∧ ¬ Forall (λ sd, sd < S) ed
  end.
Proof.
  revert ests. induction ed as [|sd0 ed IH]; intros ests Hlen.
  - cbn. split; [constructor|]. split; [done|]. intros sd. by destruct (ests !! sd).
  - cbn [for_each]. rewrite add_square_step.
    destruct (ests !! sd0) as [old|] eqn:Hold.
    + pose proof (lookup_lt_Some _ _ _ Hold) as Hlt.
      cbn [mbind result_bind].
      specialize (IH (<[sd0:=num_add old (num_square ind)]> ests)).
      rewrite length_insert in IH. specialize (IH Hlen).
      destruct (for_each _ ed _) as [ests'|e].
      * destruct IH as (Hed & Hlen' & Hent). split; [constructor; [lia|done]|].
        split; [done|]. intros sd. rewrite Hent. rewrite filter_cons.
        destruct (decide (sd0 = sd)) as [->|Hne].
        -- rewrite list_lookup_insert_eq by done. by rewrite Hold.
        -- by rewrite list_lookup_insert_ne.
      * destruct IH as [-> Hed]. split; [done|]. intros Hall. apply Hed.
        by apply Forall_cons in Hall as [_ ?].
    + cbn. split; [done|]. intros [Hlt _]%Forall_cons.
      apply lookup_ge_None in Hold. lia.
Qed.

Lemma distribute_step (ests : list num) (d : nat) (ind : num) :
  distribute self ests (d, ind) =
  ed ← dict_getitem (est_estimator_domains self) d; for_each (add_square ind) ed ests.
Proof. done. Qed.

Lemma distribute_loop (pairs : list (nat * num)) (ests : list num) :
  length ests = S →
  (∀ d ind, (d, ind) ∈ pairs → d ∈ dict_keys (est_estimator_domains self)) →
  match for_each (distribute self) pairs ests with
  | Ok ests' =>
      domains_in_range pairs ∧ length ests' = S ∧
      ∀ sd, ests' !! sd = (λ x, foldl num_add x (contributions pairs sd)) <$> ests !! sd
  | Raise e => e = IndexError ∧ ¬ domains_in_range pairs
  end.
Proof.
  revert ests. induction pairs as [|[d ind] pairs IH]; intros ests Hlen Hkeys.
  - cbn. split; [|split; [done|]].
    + intros d ind ed Hin. by apply not_elem_of_nil in Hin.
    + intros sd. by destruct (ests !! sd).
  - cbn [for_each]. rewrite distribute_step.
    destruct (dict_getitem_key (est_estimator_domains self) d) as [ed Hed];
      [apply (Hkeys d ind); left|].
    rewrite Hed. cbn [mbind result_bind].
    pose proof (add_square_loop ind ed ests Hlen) as Hinner.
    destruct (for_each (add_square ind) ed ests) as [ests1|e].
    + destruct Hinner as (Hrange & Hlen1 & Hent1). cbn [mbind result_bind].
      specialize (IH ests1 Hlen1).
      destruct (for_each (distribute self) pairs ests1) as [ests'|e].
      * destruct IH as (Hranges & Hlen' & Hent);
          [intros d' ind' Hin; apply (Hkeys d' ind'); by right|].
        split; [|split; [done|]].
        -- intros d' ind' ed' [Heq|Hin]%elem_of_cons Hed'.
           ++ injection Heq as -> ->. rewrite Hed in Hed'. by injection Hed' as <-.
           ++ by eapply Hranges.
        -- intros sd. rewrite Hent, Hent1. unfold contributions.
           cbn [mbind list_bind]. rewrite Hed. destruct (ests !! sd); [|done].
           cbn. by rewrite foldl_app.
      * destruct IH as [-> Hbad];
          [intros d' ind' Hin; apply (Hkeys d' ind'); by right|].
        split; [done|]. intros Hall. apply Hbad.
        intros d' ind' ed' Hin. apply (Hall d' ind' ed'). by right.
    + destruct Hinner as [-> Hbad]. cbn. split; [done|].
      intros Hall. apply Hbad. apply (Hall d ind ed); [left|done].
Qed.

(** The vector [ests] that [estimate_error] builds before summing it: it
    has one entry per subdomain, and the entry of subdomain [sd] is the
    sum, from 0 and in loop order, of [ind**2] once for every occurrence of
    [sd] in the estimator domains paired with the indicators.  Building it
    returns exactly when every paired estimator domain holds indices below
    [self.domains] only, and otherwise raises [IndexError]. *)
Theorem distributed_entries (indicators : list num) :
  let pairs := zip (merge_sort Nat.le (dict_keys (est_estimator_domains self)))
                   indicators in
  (∀ ests, distributed self indicators = Ok ests →
     length ests = S ∧
     ∀ sd, sd < S →
       ests !! sd = Some (foldl num_add num_zero (contributions pairs sd))) ∧
  ((∃ ests, distributed self indicators = Ok ests) ↔ domains_in_range pairs) ∧
  (∀ e, distributed self indicators = Raise e → e = IndexError).
Proof.
  intros pairs. unfold distributed. fold pairs.
  pose proof (distribute_loop pairs (replicate S num_zero)) as Hloop.
  destruct (for_each (distribute self) pairs (replicate S num_zero)) as [ests|e].
  - destruct Hloop as (Hrange & Hlen & Hent).
    + apply length_replicate.
    + intros d ind Hin. apply elem_of_zip_l in Hin.
      by rewrite merge_sort_Permutation in Hin.
    + split; [|split; [|done]].
      * intros ests' [= <-]. split; [done|]. intros sd Hsd.
        rewrite Hent. by rewrite lookup_replicate_2.
      * split; [done|by eexists].
  - destruct Hloop as [-> Hbad].
    + apply length_replicate.
    + intros d ind Hin. apply elem_of_zip_l in Hin.
      by rewrite merge_sort_Permutation in Hin.
    + split; [done|]. split; [|by intros e [= <-]].
      split; [by intros [ests ?]|done].
Qed.

End distributed_facts.

(** ** The reductor: extension methods and sequences of calls *)

Section reductor_sequences.

Context {vec space matrix coef : Type}.
Context `{!@Collaborators vec space matrix coef} `{!@ExtensionPrimitive vec}.
Local Abbreviation reductor := (@reductor vec space matrix coef _).
Local Abbreviation method := (@method vec space matrix coef _).

Lemma try_extend_returns (I : nat) (u : list vec) (r : reductor) :
  (try_extend I u r).1 = Ok ().
Proof.
  unfold try_extend. destruct (getitem (local_bases r) I) as [ref|e]; [|done].
  destruct (heap r !! ref) as [basis|]; [|done].
  destruct (extend_basis u basis) as [[[]|e] basis']; done.
Qed.

Lemma add_global_solutions_loop (us : list (list vec)) (k len : nat) (r : reductor) :
  k ≤ length us →
  (for_each_method
     (λ I, us_block ← reading (λ _, getitem us I); try_extend I us_block)
     (seq k len) r).1
  = if decide (k + len ≤ length us) then Ok () else Raise IndexError.
Proof.
  revert k r. induction len as [|len IH]; intros k r Hk.
  - cbn. by rewrite decide_True by lia.
  - cbn [seq for_each_method]. rewrite !method_bind_run. unfold reading at 1.
    destruct (decide (k < length us)) as [Hlt|Hge].
    + destruct (getitem_lt us k Hlt) as (block & -> & _).
      pose proof (try_extend_returns k block r) as Hret.
      destruct (try_extend k block r) as [[[]|e] r1]; [|done].
      rewrite IH by lia. destruct (decide (S k + len ≤ length us));
        [by rewrite decide_True by lia|by rewrite decide_False by lia].
    + unfold getitem. rewrite (proj2 (lookup_ge_None us k)) by lia.
      by rewrite decide_False by lia.
Qed.

(** The two methods that add solutions absorb every failure of the
    extension: [add_local_solutions] returns normally in every state and
    for every index, and [add_global_solutions] raises only for the
    assertion on its argument, in which case it changes nothing, or for a
    missing block of its argument. *)
Theorem add_solutions_absorb_failures (r : reductor) :
  (∀ I u, (add_local_solutions I u r).1 = Ok ()) ∧
  (∀ us, in_solution_space us = false →
     add_global_solutions us r = (Raise AssertionError, r)) ∧
  (∀ us, in_solution_space us = true →
     (add_global_solutions us r).1
     = if decide (S_ r ≤ length us) then Ok () else Raise IndexError).
Proof.
  split; [intros I u; apply try_extend_returns|]. split.
  - intros us Hus. unfold add_global_solutions. rewrite method_bind_run.
    unfold reading at 1. by rewrite Hus.
  - intros us Hus. unfold add_global_solutions. rewrite method_bind_run.
    unfold reading at 1. rewrite Hus. rewrite method_bind_run. unfold reading at 1.
    rewrite add_global_solutions_loop by lia. done.
Qed.

(** *** What no call changes *)

Lemma frame_trans (c c' : Prop) (t t' : nat → Prop) (r0 r1 r2 : reductor) :
  frame c t r0 r1 → frame c' t' r1 r2 → frame (c ∨ c') (λ k, t k ∨ t' k) r0 r2.
Proof.
  intros (H1 & H2 & H3 & H4 & H5 & H6 & H7 & H8 & H9)
         (G1 & G2 & G3 & G4 & G5 & G6 & G7 & G8 & G9).
  split_and!; try congruence.
  - intros k Hk. rewrite G8, H8; tauto.
  - intros Hn. destruct H9 as (? & ? & ?); [tauto|].
    destruct G9 as (? & ? & ?); [tauto|]. split_and!; congruence.
Qed.

Lemma frame_weaken (c c' : Prop) (t t' : nat → Prop) (r0 r : reductor) :
  frame c t r0 r → (c → c') → (∀ k, t k → t' k) → frame c' t' r0 r.
Proof.
  intros (H1 & H2 & H3 & H4 & H5 & H6 & H7 & H8 & H9) Hc Ht.
  split_and!; try done.
  - intros k Hk. apply H8. intros Htk. apply Hk. by apply Ht.
  - intros Hn. apply H9. tauto.
Qed.

(** A method that, from any state, touches only basis objects that
    [local_bases] refers to keeps the frame of a sequence of calls. *)
Lemma keeps_known_bases {A : Type} (m : method A) :
  (∀ r, ∃ c t, frame c t r (m r).2 ∧ ∀ k, t k → k ∈ local_bases r) →
  ∀ r0, keeps (frame True (λ k, k ∈ local_bases r0) r0) m.
Proof.
  intros Hm r0 r Hr. destruct (Hm r) as (c & t & Hstep & Ht).
  eapply frame_weaken; [eapply frame_trans; [exact Hr|exact Hstep]|tauto|].
  intros k [Hk|Hk]; [done|]. destruct Hr as (_ & _ & <- & _). by apply Ht.
Qed.

Lemma known_bases_reduce (r0 : reductor) :
  keeps (frame True (λ k, k ∈ local_bases r0) r0) (reduce (D:=()) None).
Proof.
  apply keeps_known_bases. intros r. exists True, (λ _, False). split; [|done].
  by apply (keeps_frame_reduce True (λ _, False) r None I r), frame_refl.
Qed.

Lemma known_bases_try_extend (r0 : reductor) (I : nat) (u : list vec) :
  keeps (frame True (λ k, k ∈ local_bases r0) r0) (try_extend I u).
Proof.
  apply keeps_known_bases. intros r.
  exists False, (λ k, local_bases r !! I = Some k). split.
  - apply keeps_frame_try_extend, frame_refl.
  - intros k Hk. by eapply list_elem_of_lookup_2.
Qed.

Lemma known_bases_enrich_locally (r0 : reductor) (I : nat) (mu : parameter)
    (use_global_matrix : bool) :
  keeps (frame True (λ k, k ∈ local_bases r0) r0) (enrich_locally I mu use_global_matrix).
Proof.
  apply keeps_known_bases. intros r.
  exists (_last_rom r = None), (λ k, local_bases r !! I = Some k). split.
  - apply keeps_frame_enrich_locally, frame_refl.
  - intros k Hk. by eapply list_elem_of_lookup_2.
Qed.

Lemma known_bases_run_call (r0 : reductor) (c : call) (r : reductor) :
  frame True (λ k, k ∈ local_bases r0) r0 r →
  frame True (λ k, k ∈ local_bases r0) r0 (run_call c r).
Proof.
  revert r. destruct c as [|i mu g|mu g|i u|us]; cbn [run_call].
  - apply known_bases_reduce.
  - apply known_bases_enrich_locally.
  - unfold enrich_all_locally. apply keeps_bind; [apply keeps_reading|]. intros n.
    apply keeps_for_each. intros i.
    apply keeps_bind; [apply known_bases_enrich_locally|intros _; apply keeps_ret].
  - apply known_bases_try_extend.
  - unfold add_global_solutions.
    apply keeps_bind; [apply keeps_reading|]. intros _.
    apply keeps_bind; [apply keeps_reading|]. intros n.
    apply keeps_for_each. intros i.
    apply keeps_bind; [apply keeps_reading|]. intros us_block.
    apply known_bases_try_extend.
Qed.

Lemma known_bases_run_calls (r0 : reductor) (calls : list call) (r : reductor) :
  frame True (λ k, k ∈ local_bases r0) r0 r →
  frame True (λ k, k ∈ local_bases r0) r0 (run_calls calls r).
Proof.
  revert r. induction calls as [|c calls IH]; intros r Hr; [done|].
  cbn [run_calls foldl]. apply IH. by apply known_bases_run_call.
Qed.

(** No sequence of calls of [reduce], [enrich_locally],
    [enrich_all_locally], [add_local_solutions] and [add_global_solutions]
    changes [S], the operator of the full-order model, the list
    [local_bases] itself, the patch models, the patch mappings or the
    estimator domains, and no vector array other than those in [local_bases]
    is changed; this holds whichever of the calls return or raise. *)
Theorem run_calls_frame (calls : list call) (r0 : reductor) :
  let r := run_calls calls r0 in
  S_ r = S_ r0 ∧
  fom_operator r = fom_operator r0 ∧
  local_bases r = local_bases r0 ∧
  patch_models r = patch_models r0 ∧
  patch_mappings_to_global r = patch_mappings_to_global r0 ∧
  patch_mappings_to_local r = patch_mappings_to_local r0 ∧
  estimator_domains r = estimator_domains r0 ∧
  (∀ k, k ∉ local_bases r0 → heap r !! k = heap r0 !! k).
Proof.
  intros r.
  destruct (known_bases_run_calls r0 calls r0 (frame_refl _ _ r0))
    as (? & ? & ? & ? & ? & ? & ? & ? & _).
  by split_and!.
Qed.

(** *** The cached ROM and the snapshot of the bases *)

(** Whenever a ROM is cached, the snapshot [reduced_local_bases] exists, the
    cached ROM is what [_reduce] made of the snapshot, the snapshot has one
    vector array per entry of [local_bases], and the recorded size is the
    total length of the first [S] arrays of the snapshot. *)
Definition cache_consistent (r : reductor) : Prop :=
  ∀ rom, _last_rom r = Some rom →
    ∃ snapshot,
      reduced_local_bases r = Some snapshot ∧
      inherited_reduce snapshot = Ok (rom_content rom) ∧
      length snapshot = length (local_bases r) ∧
      _last_rom_dims r = Some (sum_list (length <$> take (S_ r) snapshot)).

Lemma total_basis_length_snapshot (r : reductor) (bases : list (list vec)) :
  wf r → deepcopy_local_bases r = Ok bases →
  length bases = length (local_bases r) ∧
  total_basis_length r = sum_list (length <$> take (S_ r) bases).
Proof.
  intros (HS & _ & _) Hbases. apply comprehension_Ok in Hbases.
  split; [apply Forall2_length in Hbases; by rewrite length_seq in Hbases|].
  unfold total_basis_length, basis_length.
  assert (Hlen : comprehension (λ I, basis ← local_basis r I; Ok (length basis))
                   (seq 0 (S_ r)) = Ok (length <$> take (S_ r) bases)).
  { apply comprehension_Ok. apply Forall2_fmap_r.
    apply (Forall2_take _ _ _ (S_ r)) in Hbases.
    rewrite take_seq, Nat.min_l in Hbases by done.
    eapply Forall2_impl; [exact Hbases|]. intros I basis HI. cbv beta. by rewrite HI. }
  by rewrite Hlen.
Qed.

Lemma cache_consistent_frame (t : nat → Prop) (r r' : reductor) :
  frame False t r r' → cache_consistent r → cache_consistent r'.
Proof.
  intros (HS & _ & Hlb & _ & _ & _ & _ & _ & Hcache) Hc rom Hrom.
  destruct Hcache as (Hl & Hd & Hs); [tauto|].
  rewrite Hl in Hrom. destruct (Hc rom Hrom) as (snapshot & ? & ? & ? & ?).
  exists snapshot. rewrite Hs, Hd, HS, Hlb. done.
Qed.

Lemma keeps_cache_untouched {A : Type} (m : method A) :
  keeps wf m → (∀ r, ∃ t, frame False t r (m r).2) →
  keeps (λ r, wf r ∧ cache_consistent r) m.
Proof.
  intros Hwf Hframe r [Hr Hc]. split; [by apply Hwf|].
  destruct (Hframe r) as [t Ht]. by eapply cache_consistent_frame.
Qed.

Lemma keeps_cache_reduce : keeps (λ r, wf r ∧ cache_consistent r) (reduce (D:=()) None).
Proof.
  intros r [Hwf Hc]. split; [by apply keeps_wf_reduce|].
  destruct (decide (stale r)) as [Hstale|Hfresh].
  - destruct (deepcopy_total r Hwf) as [bases Hbases].
    rewrite (reduce_rebuilds r bases) by done.
    destruct (total_basis_length_snapshot r bases Hwf Hbases) as [Hlen Htotal].
    destruct (inherited_reduce bases) as [content|e] eqn:Hcontent; [|exact Hc].
    intros rom Hrom. cbn in Hrom. injection Hrom as <-.
    exists bases. cbn. by rewrite Htotal.
  - by destruct (reduce_cached r Hwf Hfresh) as (rom & _ & ->).
Qed.

Lemma keeps_cache_try_extend (I : nat) (u : list vec) :
  keeps (λ r, wf r ∧ cache_consistent r) (try_extend I u).
Proof.
  apply keeps_cache_untouched; [apply keeps_wf_try_extend|].
  intros r. eexists. apply (keeps_frame_try_extend False r I u r), frame_refl.
Qed.

Lemma keeps_cache_print (line : string) :
  keeps (λ r, wf r ∧ cache_consistent r) (print line).
Proof.
  apply keeps_cache_untouched; [apply keeps_wf_print|].
  intros r. exists (λ _, False).
  apply (keeps_frame_print False (λ _, False) r line r), frame_refl.
Qed.

Lemma keeps_cache_enrich_locally (I : nat) (mu : parameter) (use_global_matrix : bool) :
  keeps (λ r, wf r ∧ cache_consistent r) (enrich_locally I mu use_global_matrix).
Proof.
  unfold enrich_locally. apply keeps_bind; [|intros [phi u]].
  - unfold solve_correction. apply keeps_bind.
    + intros r Hr. unfold ensure_rom. destruct (_last_rom r); [done|].
      apply (keeps_bind (λ r, wf r ∧ cache_consistent r)
               (reduce (D:=()) None) (λ _, mret ()));
        [apply keeps_cache_reduce|intros _; apply keeps_ret|done].
    + intros _. unfold last_rom.
      repeat (apply keeps_bind; [try apply keeps_reading|intros ?]);
        try apply keeps_ret.
      destruct use_global_matrix;
        unfold global_interaction, patch_interaction, reconstruct;
        repeat (apply keeps_bind; [try apply keeps_reading|intros ?]);
        try apply keeps_ret; try apply keeps_reading.
      apply keeps_cache_print.
  - apply keeps_bind; [apply keeps_cache_try_extend|intros _; apply keeps_ret].
Qed.

Lemma keeps_cache_run_call (c : call) (r : reductor) :
  wf r ∧ cache_consistent r → wf (run_call c r) ∧ cache_consistent (run_call c r).
Proof.
  revert r. destruct c as [|i mu g|mu g|i u|us]; cbn [run_call].
  - apply keeps_cache_reduce.
  - apply keeps_cache_enrich_locally.
  - change (keeps (λ r, wf r ∧ cache_consistent r) (enrich_all_locally mu g)).
    unfold enrich_all_locally. apply keeps_bind; [apply keeps_reading|]. intros n.
    apply keeps_for_each. intros i.
    apply keeps_bind; [apply keeps_cache_enrich_locally|intros _; apply keeps_ret].
  - apply keeps_cache_try_extend.
  - change (keeps (λ r, wf r ∧ cache_consistent r) (add_global_solutions us)).
    unfold add_global_solutions.
    apply keeps_bind; [apply keeps_reading|]. intros _.
    apply keeps_bind; [apply keeps_reading|]. intros n.
    apply keeps_for_each. intros i.
    apply keeps_bind; [apply keeps_reading|]. intros us_block.
    apply keeps_cache_try_extend.
Qed.

(** At every point of every sequence of calls on a well-formed reductor
    that starts without a ROM, a cached ROM is the ROM of the snapshot
    [reduced_local_bases] that [reconstruct] and [enrich_locally] read: the
    snapshot exists, [_reduce] built the cached ROM from exactly these
    bases, and [_last_rom_dims] is their total length over the [S]
    subdomains. *)
Theorem cached_rom_matches_snapshot (calls : list call) (r0 : reductor) :
  wf r0 → _last_rom r0 = None →
  let r := run_calls calls r0 in
  ∀ rom, _last_rom r = Some rom →
    ∃ snapshot,
      reduced_local_bases r = Some snapshot ∧
      inherited_reduce snapshot = Ok (rom_content rom) ∧
      length snapshot = length (local_bases r) ∧
      _last_rom_dims r = Some (sum_list (length <$> take (S_ r) snapshot)).
Proof.
  intros Hwf Hnone r.
  assert (Hinv : wf r ∧ cache_consistent r); [|by destruct Hinv].
  subst r. assert (Hstart : wf r0 ∧ cache_consistent r0).
  { split; [done|]. intros rom Hrom. congruence. }
  clear Hwf Hnone. revert r0 Hstart.
  induction calls as [|c calls IH]; intros r Hr; [done|].
  cbn [run_calls foldl]. apply IH. by apply keeps_cache_run_call.
Qed.


(** *** The cache after an extension *)

Lemma comprehension_fmap {A B : Type} (f : A → result B) (g : A → B) (xs : list A) :
  (∀ x, x ∈ xs → f x = Ok (g x)) → comprehension f xs = Ok (g <$> xs).
Proof.
  intros Hf. apply comprehension_Ok, Forall2_fmap_r, Forall_Forall2_diag, Forall_forall.
  exact Hf.
Qed.

Lemma total_basis_length_sum (r : reductor) :
  wf r →
  total_basis_length r =
  sum_list ((λ J, match local_basis r J with Ok b => length b | Raise _ => 0 end)
              <$> seq 0 (S_ r)).
Proof.
  intros Hwf. unfold total_basis_length, basis_length.
  rewrite (comprehension_fmap _
             (λ J, match local_basis r J with Ok b => length b | Raise _ => 0 end));
    [done|].
  intros J [_ HJ]%elem_of_seq.
  destruct (local_basis_total r J Hwf) as [b ->]; [destruct Hwf; lia|done].
Qed.

Lemma sum_list_replace (c : nat → Prop) `{∀ x, Decision (c x)} (f g : nat → nat)
    (xs : list nat) (a b : nat) :
  (∀ x, x ∈ xs → c x → f x = a ∧ g x = b) →
  (∀ x, x ∈ xs → ¬ c x → g x = f x) →
  sum_list (g <$> xs) + length (filter c xs) * a
  = sum_list (f <$> xs) + length (filter c xs) * b.
Proof.
  induction xs as [|x xs IH]; intros Hc Hn; [done|].
  rewrite filter_cons. cbn [fmap list_fmap sum_list].
  assert (IH' := IH (λ y Hy, Hc y (list_elem_of_further _ _ _ Hy))
                    (λ y Hy, Hn y (list_elem_of_further _ _ _ Hy))).
  destruct (decide (c x)) as [Hx|Hx].
  - destruct (Hc x) as [-> ->]; [left|done|]. cbn [length]. rewrite !Nat.mul_succ_l.
    change (id a) with a. change (id b) with b. lia.
  - rewrite (Hn x) by (done || left). change (id (f x)) with (f x). lia.
Qed.

(** When the recorded size is the current total basis length, as a rebuild
    leaves it, an extension of the basis of a subdomain [I < S] makes the
    next [reduce()] rebuild exactly when it made that basis longer: after a
    failed or fruitless extension the cached ROM stays valid. *)
Theorem extension_invalidates_cache_iff_growth (r : reductor) (I : nat) (u : list vec)
    (basis basis' : list vec) :
  wf r → I < S_ r → is_Some (_last_rom r) →
  _last_rom_dims r = Some (total_basis_length r) →
  local_basis r I = Ok basis →
  local_basis (add_local_solutions I u r).2 I = Ok basis' →
  (stale (add_local_solutions I u r).2 ↔ length basis < length basis').
Proof.
  intros Hwf HI [rom Hrom] Hdims Hb Hb'.
  assert (Hwf' : wf (add_local_solutions I u r).2) by by apply keeps_wf_try_extend.
  unfold local_basis in Hb.
  destruct (getitem (local_bases r) I) as [ref|] eqn:Hget; [|done].
  cbn [mbind result_bind] in Hb.
  destruct (heap r !! ref) as [b0|] eqn:Hheap; [|done]. injection Hb as ->.
  destruct (extend_basis u basis) as [outcome b1] eqn:Hext.
  remember (add_local_solutions I u r).2 as r' eqn:Hr'.
  assert (Hfacts : heap r' = <[ref:=b1]> (heap r) ∧ local_bases r' = local_bases r ∧
                   S_ r' = S_ r ∧ _last_rom r' = _last_rom r ∧
                   _last_rom_dims r' = _last_rom_dims r).
  { rewrite Hr'. unfold add_local_solutions, try_extend.
    rewrite Hget, Hheap, Hext. by destruct outcome. }
  destruct Hfacts as (Hheap' & Hlb' & HS' & Hrom' & Hdims').
  assert (basis' = b1) as ->.
  { unfold local_basis in Hb'. rewrite Hlb', Hget in Hb'.
    cbn [mbind result_bind] in Hb'. rewrite Hheap', lookup_insert_eq in Hb'. congruence. }
  pose proof (sum_list_replace (λ J, local_bases r !! J = Some ref)
                (λ J, match local_basis r J with Ok b => length b | Raise _ => 0 end)
                (λ J, match local_basis r' J with Ok b => length b | Raise _ => 0 end)
                (seq 0 (S_ r)) (length basis) (length b1)) as Hsum.
  rewrite <- total_basis_length_sum in Hsum by done.
  assert (Htotal' : total_basis_length r' =
            sum_list ((λ J, match local_basis r' J with Ok b => length b | Raise _ => 0 end)
                        <$> seq 0 (S_ r))).
  { rewrite <- HS'. by apply total_basis_length_sum. }
  rewrite <- Htotal' in Hsum.
  assert (Hcount : 0 < length (filter (λ J, local_bases r !! J = Some ref) (seq 0 (S_ r)))).
  { assert (Hin : I ∈ filter (λ J, local_bases r !! J = Some ref) (seq 0 (S_ r))).
    { apply list_elem_of_filter. split; [by apply getitem_Ok|apply elem_of_seq; lia]. }
    destruct (filter _ _); [by apply not_elem_of_nil in Hin|cbn; lia]. }
  assert (Heq : total_basis_length r' +
                length (filter (λ J, local_bases r !! J = Some ref) (seq 0 (S_ r)))
                * length basis
                = total_basis_length r +
                  length (filter (λ J, local_bases r !! J = Some ref) (seq 0 (S_ r)))
                  * length b1).
  { apply Hsum.
    - intros J _ HJ. unfold local_basis. rewrite Hlb'.
      rewrite (proj2 (getitem_Ok _ _ _) HJ). cbn [mbind result_bind].
      by rewrite Hheap, Hheap', lookup_insert_eq.
    - intros J _ HJ. unfold local_basis. rewrite Hlb'.
      destruct (getitem (local_bases r) J) as [ref'|e] eqn:Hget'; [|done].
      cbn [mbind result_bind]. rewrite Hheap', lookup_insert_ne; [done|].
      intros <-. apply HJ. by apply getitem_Ok. }
  unfold stale. rewrite Hrom', Hrom, Hdims', Hdims. split.
  - intros [?|(d & Hd & Hlt)]; [done|]. injection Hd as <-. nia.
  - intros Hlt. right. eexists. split; [done|]. nia.
Qed.


(** *** What [reconstruct] reads *)

Lemma reconstruct_frame (t : nat → Prop) (r r' : reductor) (u_rom : list coefficients) :
  frame False t r r' → (reconstruct u_rom r').1 = (reconstruct u_rom r).1.
Proof.
  intros (HS & _ & _ & _ & _ & _ & _ & _ & Hcache).
  destruct Hcache as (_ & _ & Hsnap); [tauto|].
  unfold reconstruct, reading. cbn [fst]. by rewrite HS, Hsnap.
Qed.

Lemma keeps_snapshot {A : Type} (m : method A) :
  (∀ r, ∃ t, frame False t r (m r).2) →
  ∀ r0, keeps (λ r, S_ r = S_ r0 ∧ reduced_local_bases r = reduced_local_bases r0) m.
Proof.
  intros Hm r0 r [HS Hsnap]. destruct (Hm r) as (t & HS' & _ & _ & _ & _ & _ & _ & _ & Hcache).
  destruct Hcache as (_ & _ & Hsnap'); [tauto|]. split; congruence.
Qed.

(** [reconstruct] reads the snapshot of the bases that the last rebuild
    took, not the bases themselves: extending bases, by
    [add_local_solutions], by [add_global_solutions] or, once a ROM exists,
    by [enrich_locally], leaves the result of [reconstruct] for every ROM
    solution as it was. *)
Theorem reconstruct_unaffected_by_extension (r : reductor) (u_rom : list coefficients) :
  (∀ I u, (reconstruct u_rom (add_local_solutions I u r).2).1 = (reconstruct u_rom r).1) ∧
  (∀ us, (reconstruct u_rom (add_global_solutions us r).2).1 = (reconstruct u_rom r).1) ∧
  (is_Some (_last_rom r) → ∀ I mu use_global_matrix,
     (reconstruct u_rom (enrich_locally I mu use_global_matrix r).2).1
     = (reconstruct u_rom r).1).
Proof.
  split; [|split].
  - intros I u. eapply reconstruct_frame.
    apply (keeps_frame_try_extend False r I u r), frame_refl.
  - intros us.
    assert (Hkeeps : keeps (λ r', S_ r' = S_ r ∧
                                  reduced_local_bases r' = reduced_local_bases r)
                       (add_global_solutions us)).
    { unfold add_global_solutions.
      apply keeps_bind; [apply keeps_reading|]. intros _.
      apply keeps_bind; [apply keeps_reading|]. intros n.
      apply keeps_for_each. intros i.
      apply keeps_bind; [apply keeps_reading|]. intros us_block.
      apply keeps_snapshot. intros r'. eexists.
      apply (keeps_frame_try_extend False r' i us_block r'), frame_refl. }
    destruct (Hkeeps r) as [HS Hsnap]; [done|].
    unfold reconstruct, reading. cbn [fst]. by rewrite HS, Hsnap.
  - intros [rom Hrom] I mu g.
    pose proof (keeps_frame_enrich_locally r I mu g r (frame_refl _ _ r))
      as (HS & _ & _ & _ & _ & _ & _ & _ & Hcache).
    destruct Hcache as (_ & _ & Hsnap); [congruence|].
    unfold reconstruct, reading. cbn [fst]. by rewrite HS, Hsnap.
Qed.


End reductor_sequences.

(** ** The coupling filter, applied twice *)

Section filter_composition.

Context {vec space matrix coef : Type}.
Local Abbreviation operator := (@operator vec space matrix coef).

Lemma filtered_cell_idempotent (n : nat) (patch : list nat)
    (blocks res : list (list (option operator))) (i j : nat) :
  shape n n blocks → length patch = n →
  (∀ i, i < n → ∃ ops coefs, entry blocks i i = Some (Some (LincombOperator ops coefs))) →
  (∀ i j, i < n → j < n → entry res i j = Some (filtered_cell patch blocks i j)) →
  i < n → j < n →
  filtered_cell patch res i j = filtered_cell patch blocks i j.
Proof.
  intros Hsh Hpatch Hdiag Hres Hi Hj.
  unfold filtered_cell at 1. rewrite (Hres i j Hi Hj).
  destruct (decide (i = j)) as [<-|Hne].
  - destruct (Hdiag i Hi) as (ops & coefs & Hd).
    destruct (lookup_lt_is_Some_2 patch i) as [I_ HI]; [lia|].
    unfold filtered_cell. rewrite Hd, HI. rewrite decide_False by lia.
    rewrite decide_False by lia. rewrite zip_fst_snd.
    rewrite list_filter_filter.
    rewrite (list_filter_iff _ (λ oc : operator * coef,
                                  keep_term (pair_string I_ <$> patch) oc.1)); [done|].
    intros oc. tauto.
  - unfold filtered_cell.
    destruct (entry_is_Some n n blocks i j Hsh Hi Hj) as [[op|] ->]; [|done].
    by rewrite !decide_True by done.
Qed.

(** Filtering is idempotent: on a patch model whose diagonal blocks are
    affine combinations, the filter applied to its own result (in a patch
    model with any right-hand side) returns that result again. *)
Theorem remove_irrelevant_coupling_idempotent (n : nat)
    (blocks : list (list (option operator))) (rhs rhs' : operator)
    (mapping_to_global : Z → result nat) (patch : list nat) :
  shape n n blocks →
  comprehension (λ l, mapping_to_global (Z.of_nat l)) (seq 0 n) = Ok patch →
  (∀ i, i < n → ∃ ops coefs, entry blocks i i = Some (Some (LincombOperator ops coefs))) →
  ∃ res,
    remove_irrelevant_coupling_from_patch_operator
      {| model_operator := BlockOperator blocks; model_rhs := rhs |} mapping_to_global
      = Ok (BlockOperator res) ∧
    remove_irrelevant_coupling_from_patch_operator
      {| model_operator := BlockOperator res; model_rhs := rhs' |} mapping_to_global
      = Ok (BlockOperator res).
Proof.
  intros Hsh Hpatch Hdiag.
  assert (Hlen : length patch = n).
  { apply comprehension_Ok, Forall2_length in Hpatch. by rewrite length_seq in Hpatch. }
  destruct (fill_cells n (filter_block mapping_to_global n blocks)
              (filtered_cell patch blocks)) as (res & Hrun & Hres & Hcells).
  { intros acc i j. by apply filter_block_spec. }
  assert (Hdiag' : ∀ i, i < n →
            ∃ ops coefs, entry res i i = Some (Some (LincombOperator ops coefs))).
  { intros i Hi. destruct (Hdiag i Hi) as (ops & coefs & Hd).
    destruct (lookup_lt_is_Some_2 patch i) as [I_ HI]; [lia|].
    rewrite (Hcells i i Hi Hi). unfold filtered_cell. rewrite Hd, HI.
    rewrite decide_False by lia. by eexists _, _. }
  destruct (fill_cells n (filter_block mapping_to_global n res)
              (filtered_cell patch res)) as (res2 & Hrun2 & Hres2 & Hcells2).
  { intros acc i j. by apply filter_block_spec. }
  assert (res2 = res) as ->.
  { apply (array2_ext n n); [done|done|]. intros i j Hi Hj.
    rewrite (Hcells2 i j Hi Hj), (Hcells i j Hi Hj). f_equal.
    by apply (filtered_cell_idempotent n). }
  exists res. unfold remove_irrelevant_coupling_from_patch_operator.
  cbn [model_operator op_blocks mbind result_bind].
  destruct Hsh as [Hn _]. destruct Hres as [Hn' Hrows]. rewrite Hn, Hn'.
  by rewrite Hrun, Hrun2.
Qed.

End filter_composition.

(** ** The block projector, block by block *)

Lemma for_each_ext {A B : Type} (f g : B → A → result B) (xs : list A) (acc : B) :
  (∀ b x, x ∈ xs → f b x = g b x) → for_each f xs acc = for_each g xs acc.
Proof.
  revert acc. induction xs as [|x xs IH]; intros acc Hfg; [done|].
  cbn [for_each]. rewrite Hfg by left. destruct (g acc x) as [b|e]; [|done].
  cbn [mbind result_bind]. apply IH. intros b' y Hy. apply Hfg. by right.
Qed.

Lemma for_each_app {A B : Type} (f : B → A → result B) (xs ys : list A) (acc : B) :
  for_each f (xs ++ ys) acc = for_each f xs acc ≫= for_each f ys.
Proof.
  revert acc. induction xs as [|x xs IH]; intros acc; [done|].
  cbn [app for_each]. destruct (f acc x) as [b|e]; [|done].
  cbn [mbind result_bind]. apply IH.
Qed.

Section projector_blocks.

Context {vec space matrix coef : Type}.
Local Abbreviation operator := (@operator vec space matrix coef).

Variable project : operator → list vec → option (list vec) → operator.
Variable array_space : list vec → space.

Lemma np_empty_like2_shape (n m : nat) (blocks : list (list (option operator))) :
  shape n m blocks → np_empty_like2 blocks = np_empty2 n m.
Proof.
  intros [<- Hrows]. unfold np_empty_like2, np_empty2, np_empty.
  induction Hrows as [|row blocks Hrow _ IH]; [done|].
  cbn. by rewrite Hrow, IH.
Qed.

(** The block that the projection writes at position [(I, J)]. *)
Definition projected_cell (blocks : list (list (option operator)))
    (range_bases source_bases : list (list vec)) (I J : nat) : option operator :=
  match entry blocks I J, range_bases !! I, source_bases !! J with
  | Some (Some op), Some basis_I, Some basis_J =>
      Some (project op basis_I (Some basis_J))
  | _, _, _ => None
  end.

Lemma project_block_entry_spec (n : nat) (blocks : list (list (option operator)))
    (range_bases source_bases : list (list vec)) (basis_I : list vec)
    (acc : list (list (option operator))) (I J : nat) :
  shape n n blocks → length source_bases = n →
  range_bases !! I = Some basis_I →
  shape n n acc → I < n → J < n → entry acc I J = Some None →
  ∃ acc', project_block_entry project blocks basis_I source_bases I acc J = Ok acc' ∧
    shape n n acc' ∧
    ∀ i' j', entry acc' i' j' =
      if decide (i' = I ∧ j' = J)
      then Some (projected_cell blocks range_bases source_bases I J)
      else entry acc i' j'.
Proof.
  intros Hsh Hsb HbI Hacc HI HJ Hnone.
  destruct (getitem_lt source_bases J) as (basis_J & HgJ & HbJ); [lia|].
  destruct (entry_is_Some n n blocks I J Hsh HI HJ) as [b Hb].
  unfold project_block_entry, projected_cell.
  rewrite HgJ, (proj2 (getitem2_entry blocks I J b) Hb), Hb, HbI, HbJ.
  cbn [mbind result_bind].
  destruct b as [op|]; [by apply setitem2_spec|].
  exists acc. split; [done|]. split; [done|]. intros i' j'.
  destruct (decide _) as [[-> ->]|]; done.
Qed.

(** Projection of a square block operator onto one basis per block row and
    one per block column: the result is a block operator of the same shape
    whose block [(I, J)] is the projection of block [(I, J)] onto the
    bases of [I] and [J], and is absent exactly where the block of the
    operator is absent. *)
Theorem project_block_operator_blockwise (n : nat)
    (blocks : list (list (option operator)))
    (range_bases source_bases : list (list vec)) :
  shape n n blocks → length range_bases = n → length source_bases = n →
  ∃ out,
    project_block_operator project array_space (BlockOperator blocks)
      range_bases source_bases = Ok (BlockOperator out) ∧
    shape n n out ∧
    ∀ I J basis_I basis_J,
      range_bases !! I = Some basis_I → source_bases !! J = Some basis_J →
      entry out I J =
      (λ b : option operator, (λ op, project op basis_I (Some basis_J)) <$> b)
        <$> entry blocks I J.
Proof.
  intros Hsh Hrb Hsb.
  destruct (fill_cells n
              (λ I acc J,
                 project_block_entry project blocks (default [] (range_bases !! I))
                   source_bases I acc J)
              (projected_cell blocks range_bases source_bases))
    as (out & Hrun & Hout & Hcells).
  { intros acc I J Hacc HI HJ Hnone.
    destruct (lookup_lt_is_Some_2 range_bases I) as [basis_I HbI]; [lia|].
    rewrite HbI. cbn [default]. by apply (project_block_entry_spec n). }
  exists out. split; [|split; [done|]].
  - cbn [project_block_operator]. unfold _project_block_operator.
    rewrite (np_empty_like2_shape n n) by done. rewrite Hrb.
    rewrite (for_each_ext _
               (λ acc I,
                  for_each
                    (λ acc J,
                       project_block_entry project blocks
                         (default [] (range_bases !! I)) source_bases I acc J)
                    (seq 0 n) acc)).
    + by rewrite Hrun.
    + intros acc I [_ HI]%elem_of_seq. unfold project_block_row.
      destruct (getitem_lt range_bases I) as (basis_I & -> & ->); [lia|].
      cbn [mbind result_bind default]. by rewrite Hsb.
  - intros I J basis_I basis_J HbI HbJ.
    pose proof (lookup_lt_Some _ _ _ HbI) as HI.
    pose proof (lookup_lt_Some _ _ _ HbJ) as HJ.
    rewrite (Hcells I J) by lia. unfold projected_cell. rewrite HbI, HbJ.
    destruct (entry_is_Some n n blocks I J Hsh) as [[op|] ->]; [lia|lia|done|done].
Qed.

Lemma project_identity_row_step (range_bases : list (list vec))
    (acc : list (list (option operator))) (I : nat) :
  project_identity_row project array_space range_bases acc I =
  basis ← getitem range_bases I;
  setitem2 acc I I (Some (project (IdentityOperator (array_space basis)) basis (Some basis))).
Proof. done. Qed.

(** The rows [k, k + len) of the identity projection. *)
Lemma project_identity_rows (n m : nat) (range_bases : list (list vec))
    (len k : nat) (acc : list (list (option operator))) :
  length range_bases = n → k + len ≤ n → k + len ≤ m → shape n m acc →
  ∃ acc', for_each (project_identity_row project array_space range_bases)
            (seq k len) acc = Ok acc' ∧
    shape n m acc' ∧
    ∀ i j, entry acc' i j =
      if decide (k ≤ i < k + len ∧ j = i)
      then Some ((λ b, project (IdentityOperator (array_space b)) b (Some b))
                   <$> range_bases !! i)
      else entry acc i j.
Proof.
  intros Hrb. revert k acc. induction len as [|len IH]; intros k acc Hn Hm Hacc.
  - exists acc. split; [done|]. split; [done|]. intros i j.
    by rewrite decide_False by lia.
  - cbn [seq for_each]. rewrite project_identity_row_step.
    destruct (getitem_lt range_bases k) as (basis & -> & Hbasis); [lia|].
    cbn [mbind result_bind].
    destruct (setitem2_spec n m acc k k
                (Some (project (IdentityOperator (array_space basis)) basis (Some basis))))
      as (acc1 & -> & Hacc1 & Hent1); [done|lia|lia|].
    cbn [mbind result_bind].
    destruct (IH (S k) acc1) as (acc' & Hrun & Hacc' & Hent); [lia|lia|done|].
    exists acc'. split; [done|]. split; [done|]. intros i j.
    rewrite Hent, Hent1.
    destruct (decide (i = k ∧ j = k)) as [[-> ->]|Hne].
    + rewrite decide_False by lia. rewrite decide_True by lia. by rewrite Hbasis.
    + destruct (decide (S k ≤ i < S k + len ∧ j = i)) as [Hin|Hout].
      * by rewrite decide_True by lia.
      * by rewrite decide_False by lia.
Qed.

(** Projection of an identity operator: with no more range bases than
    source bases the result has one block row per range basis and one block
    column per source basis, holds on its diagonal the projected identity of
    each range basis, taken with that basis on both sides, and nothing
    elsewhere; the space of the identity and the contents of the source
    bases are not read.  With more range bases than source bases the
    projection raises [IndexError]. *)
Theorem project_identity_diagonal (sp : space)
    (range_bases source_bases : list (list vec)) :
  (length range_bases ≤ length source_bases →
   ∃ out,
     project_block_operator project array_space (IdentityOperator sp)
       range_bases source_bases = Ok (BlockOperator out) ∧
     shape (length range_bases) (length source_bases) out ∧
     ∀ I J, I < length range_bases → J < length source_bases →
       entry out I J =
       Some (if decide (I = J)
             then (λ b, project (IdentityOperator (array_space b)) b (Some b))
                    <$> range_bases !! I
             else None)) ∧
  (length source_bases < length range_bases →
   project_block_operator project array_space (IdentityOperator sp)
     range_bases source_bases = Raise IndexError).
Proof.
  set (n := length range_bases). set (m := length source_bases). split.
  - intros Hnm.
    destruct (project_identity_rows n m range_bases n 0 (np_empty2 n m))
      as (out & Hrun & Hout & Hent); [done|lia|lia|apply shape_np_empty2|].
    exists out. split; [|split; [done|]].
    + cbn [project_block_operator]. unfold _project_block_operator. fold n m.
      by rewrite Hrun.
    + intros I J HI HJ. rewrite Hent.
      destruct (decide (I = J)) as [->|Hne].
      * by rewrite decide_True by lia.
      * rewrite decide_False by lia. by apply entry_np_empty2.
  - intros Hmn.
    destruct (project_identity_rows n m range_bases m 0 (np_empty2 n m))
      as (acc & Hrun & Hacc & Hent); [done|lia|lia|apply shape_np_empty2|].
    cbn [project_block_operator]. unfold _project_block_operator. fold n m.
    replace n with (m + S (n - S m)) at 1 by lia.
    rewrite seq_app, for_each_app, Hrun. cbn [mbind result_bind seq for_each].
    rewrite project_identity_row_step. change (0 + m) with m.
    destruct (getitem_lt range_bases m) as (basis & -> & _); [lia|].
    cbn [mbind result_bind]. unfold setitem2.
    destruct (getitem_lt acc m) as (row & -> & Hrow); [destruct Hacc; lia|].
    cbn [mbind result_bind]. unfold setitem.
    rewrite (shape_row _ _ _ _ _ Hacc Hrow). by rewrite decide_False by lia.
Qed.

End projector_blocks.

(** Filling the first cells of a one-dimensional object array in order. *)
Lemma for_each_setitem {X : Type} (body : list (option X) → nat → result (list (option X)))
    (cell : nat → X) (n bound : nat) :
  (∀ acc I, length acc = n → I < bound → body acc I = setitem acc I (Some (cell I))) →
  ∀ len k acc, length acc = n → k + len ≤ bound → k + len ≤ n →
    ∃ acc', for_each body (seq k len) acc = Ok acc' ∧ length acc' = n ∧
      ∀ i, acc' !! i = if decide (k ≤ i < k + len) then Some (Some (cell i)) else acc !! i.
Proof.
  intros Hbody. induction len as [|len IH]; intros k acc Hacc Hb Hn.
  - exists acc. split; [done|]. split; [done|]. intros i. by rewrite decide_False by lia.
  - cbn [seq for_each]. rewrite Hbody by (done || lia). unfold setitem.
    rewrite decide_True by lia. cbn [mbind result_bind].
    destruct (IH (S k) (<[k:=Some (cell k)]> acc)) as (acc' & Hrun & Hlen & Hent);
      [by rewrite length_insert|lia|lia|].
    exists acc'. split; [done|]. split; [done|]. intros i. rewrite Hent.
    destruct (decide (i = k)) as [->|Hne].
    + rewrite decide_False by lia. rewrite decide_True by lia.
      by rewrite list_lookup_insert_eq by lia.
    + rewrite list_lookup_insert_ne by done.
      destruct (decide (S k ≤ i < S k + len)).
      * by rewrite decide_True by lia.
      * by rewrite decide_False by lia.
Qed.

Section projector_rows.

Context {vec space matrix coef : Type}.
Local Abbreviation operator := (@operator vec space matrix coef).

Variable project : operator → list vec → option (list vec) → operator.

(** Projection of a right-hand side: a vector operator is projected block
    by block onto the range bases, with no source basis; the result has one
    row per block of the vector, the rows beyond the range bases stay
    absent, and more range bases than blocks raise [IndexError].  A
    block column whose blocks are all present is projected row by row in
    the same way. *)
Theorem project_block_rhs_rowwise (range_bases : list (list vec)) :
  (∀ rhs_blocks : list (list vec),
     length range_bases ≤ length rhs_blocks →
     ∃ out,
       project_block_rhs project (VectorOperator rhs_blocks) range_bases
         = Ok (BlockColumnOperator out) ∧
       length out = length rhs_blocks ∧
       (∀ I block basis,
          rhs_blocks !! I = Some block → range_bases !! I = Some basis →
          out !! I = Some (Some (project (VectorArrayOperator block) basis None))) ∧
       (∀ I, length range_bases ≤ I < length rhs_blocks → out !! I = Some None)) ∧
  (∀ rhs_blocks : list (list vec),
     length rhs_blocks < length range_bases →
     project_block_rhs project (VectorOperator rhs_blocks) range_bases
       = Raise IndexError) ∧
  (∀ column : list (option operator),
     length range_bases ≤ length column → Forall is_Some column →
     ∃ out,
       project_block_rhs project (BlockColumnOperator column) range_bases
         = Ok (BlockColumnOperator out) ∧
       length out = length column ∧
       (∀ I op basis,
          column !! I = Some (Some op) → range_bases !! I = Some basis →
          out !! I = Some (Some (project op basis None))) ∧
       (∀ I, length range_bases ≤ I < length column → out !! I = Some None)).
Proof.
  split; [|split].
  - intros rhs_blocks Hle.
    destruct (for_each_setitem (project_vector_row project rhs_blocks range_bases)
                (λ I, project (VectorArrayOperator (default [] (rhs_blocks !! I)))
                        (default [] (range_bases !! I)) None)
                (length rhs_blocks) (length range_bases))
      with (len := length range_bases) (k := 0) (acc := @np_empty operator (length rhs_blocks))
      as (out & Hrun & Hlen & Hent); [|apply length_replicate|lia|lia|].
    { intros acc I Hacc HI. unfold project_vector_row.
      destruct (getitem_lt rhs_blocks I) as (block & -> & ->); [lia|].
      destruct (getitem_lt range_bases I) as (basis & -> & ->); [lia|]. done. }
    exists out. split; [|split; [done|split]].
    + cbn [project_block_rhs]. unfold _project_block_rhs. by rewrite Hrun.
    + intros I block basis Hblock Hbasis. rewrite Hent.
      apply lookup_lt_Some in Hbasis as HI. rewrite decide_True by lia.
      by rewrite Hblock, Hbasis.
    + intros I HI. rewrite Hent. rewrite decide_False by lia.
      apply lookup_replicate_2. lia.
  - intros rhs_blocks Hlt.
    set (m := length rhs_blocks).
    destruct (for_each_setitem (project_vector_row project rhs_blocks range_bases)
                (λ I, project (VectorArrayOperator (default [] (rhs_blocks !! I)))
                        (default [] (range_bases !! I)) None)
                m m)
      with (len := m) (k := 0) (acc := @np_empty operator m)
      as (acc & Hrun & Hlen & Hent); [|apply length_replicate|lia|lia|].
    { intros acc I Hacc HI. unfold project_vector_row.
      destruct (getitem_lt rhs_blocks I) as (block & -> & ->); [done|].
      destruct (getitem_lt range_bases I) as (basis & -> & ->); [lia|]. done. }
    cbn [project_block_rhs]. unfold _project_block_rhs. fold m.
    replace (length range_bases) with (m + S (length range_bases - S m)) by lia.
    rewrite seq_app, for_each_app, Hrun. cbn [mbind result_bind seq for_each].
    change (0 + m) with m.
    assert (Hstep : ∀ acc', project_vector_row project rhs_blocks range_bases acc' m
                            = Raise IndexError).
    { intros acc'. unfold project_vector_row, getitem.
      by rewrite (proj2 (lookup_ge_None rhs_blocks m)) by done. }
    by rewrite Hstep.
  - intros column Hle Hall.
    destruct (for_each_setitem (project_column_row project column range_bases)
                (λ I, project (default (VectorOperator []) (mjoin (column !! I)))
                        (default [] (range_bases !! I)) None)
                (length column) (length range_bases))
      with (len := length range_bases) (k := 0) (acc := @np_empty operator (length column))
      as (out & Hrun & Hlen & Hent); [|apply length_replicate|lia|lia|].
    { intros acc I Hacc HI. unfold project_column_row.
      destruct (getitem_lt column I) as (b & -> & Hb); [lia|].
      destruct (getitem_lt range_bases I) as (basis & -> & ->); [lia|].
      rewrite Forall_forall in Hall.
      destruct (Hall b) as [op ->]; [by eapply list_elem_of_lookup_2|].
      by rewrite Hb. }
    exists out. split; [|split; [done|split]].
    + cbn [project_block_rhs]. unfold _project_block_rhs, np_empty_like. by rewrite Hrun.
    + intros I op basis Hop Hbasis. rewrite Hent.
      apply lookup_lt_Some in Hbasis as HI. rewrite decide_True by lia.
      by rewrite Hop, Hbasis.
    + intros I HI. rewrite Hent. rewrite decide_False by lia.
      apply lookup_replicate_2. lia.
Qed.

End projector_rows.

(** ** From a patch back to the global numbering *)

Section patch_to_global.

Context {vec space matrix coef : Type}.
Context `{!@Collaborators vec space matrix coef}.
Local Abbreviation reductor := (@reductor vec space matrix coef _).

(** [from_patch_to_global(I, u_patch)], for the patch mapping of the
    element list [elements] and a [u_patch] with one block per element:
    the result has [S] blocks; the block of a subdomain of the patch is the
    block of [u_patch] at the first position of the subdomain in
    [elements], the block of any other subdomain is the filler of that
    subdomain, and the reductor is not changed. *)
Theorem from_patch_to_global_blocks (ones : nat → list vec) (I : nat)
    (u_patch : list (list vec)) (elements : list nat) (r : reductor) :
  patch_mappings_to_local r !! I = Some (global_to_local_mapping elements) →
  length u_patch = length elements →
  ∃ u_global,
    from_patch_to_global ones I u_patch r = (Ok u_global, r) ∧
    length u_global = S_ r ∧
    (∀ i ii, i < S_ r → elements !! ii = Some i →
       (∀ jj, jj < ii → elements !! jj ≠ Some i) →
       u_global !! i = u_patch !! ii) ∧
    (∀ i, i < S_ r → i ∉ elements → u_global !! i = Some (ones i)).
Proof.
  intros Hmap Hlen.
  set (g := λ i, if decide (0 ≤ global_to_local_mapping elements i)%Z
                 then default [] (u_patch !! Z.to_nat (global_to_local_mapping elements i))
                 else ones i).
  exists (g <$> seq 0 (S_ r)). split; [|split; [|split]].
  - unfold from_patch_to_global, reading. f_equal.
    apply comprehension_fmap. intros i _.
    rewrite (proj2 (getitem_Ok _ _ _) Hmap). cbn [mbind result_bind]. unfold g.
    destruct (decide (0 ≤ global_to_local_mapping elements i)%Z) as [Hpos|Hneg]; [|done].
    unfold py_getitem. rewrite decide_True by done.
    pose proof (global_to_local_bounds elements i) as Hb.
    destruct (getitem_lt u_patch (Z.to_nat (global_to_local_mapping elements i)))
      as (block & -> & ->); [lia|done].
  - by rewrite length_fmap, length_seq.
  - intros i ii Hi Hii Hfirst.
    rewrite list_lookup_fmap, lookup_seq_lt by done. cbn. unfold g.
    destruct (scan_elements_range elements 0 i) as [Hm|(j & Hj & Hl & Hleast)].
    + destruct (scan_elements_present elements 0 i) as (j & Hj & _);
        [by eapply list_elem_of_lookup_2|]. lia.
    + assert (j = ii) as ->.
      { destruct (decide (j < ii)) as [Hlt|Hge]; [by destruct (Hfirst j Hlt)|].
        destruct (decide (ii < j)) as [Hlt|Hge']; [by destruct (Hleast ii Hlt)|lia]. }
      unfold global_to_local_mapping. rewrite Hj. rewrite decide_True by lia.
      replace (Z.to_nat (Z.of_nat (0 + ii))) with ii by lia.
      destruct (lookup_lt_is_Some_2 u_patch ii) as [block ->]; [|done].
      apply lookup_lt_Some in Hii. lia.
  - intros i Hi Hout.
    rewrite list_lookup_fmap, lookup_seq_lt by done. cbn. unfold g.
    unfold global_to_local_mapping. rewrite scan_elements_absent by done.
    by rewrite decide_False by lia.
Qed.

End patch_to_global.

(** ** The patches the constructor builds *)

Lemma foldl_invariant {A B : Type} (P : B → Prop) (f : B → A → B) (xs : list A) (b : B) :
  P b → (∀ b x, x ∈ xs → P b → P (f b x)) → P (foldl f b xs).
Proof.
  revert b. induction xs as [|x xs IH]; intros b Hb Hf; [done|].
  cbn [foldl]. apply IH.
  - apply Hf; [left|done].
  - intros b' y Hy. apply Hf. by right.
Qed.

(** On a grid whose adjacency stays below [S], the patch of a subdomain
    below [S] stays below [S], and it holds the subdomain itself. *)
Lemma element_patch_members (dd_grid : DDGrid) (S ss : nat) :
  (∀ s, s < S → Forall (λ nn, nn < S) (neighbors dd_grid s)) → ss < S →
  ss ∈ element_patch dd_grid ss ∧ ∀ x, x ∈ element_patch dd_grid ss → x < S.
Proof.
  intros Hclosed Hss. unfold element_patch.
  apply (foldl_invariant (λ nh : gset nat, ss ∈ nh ∧ ∀ x, x ∈ nh → x < S)).
  - unfold initial_patch. split.
    + apply elem_of_union. left. by apply elem_of_singleton.
    + intros x [->%elem_of_singleton|Hx%elem_of_list_to_set]%elem_of_union; [done|].
      specialize (Hclosed ss Hss). rewrite Forall_forall in Hclosed. by apply Hclosed.
  - intros nh nn Hnn Hnh.
    assert (Hnn_lt : nn < S).
    { specialize (Hclosed ss Hss). rewrite Forall_forall in Hclosed. by apply Hclosed. }
    apply (foldl_invariant (λ nh : gset nat, ss ∈ nh ∧ ∀ x, x ∈ nh → x < S)); [done|].
    intros nh' nnn Hnnn [Hin Hlt]. split.
    + apply examine_elem. by left.
    + intros x [Hx|(-> & _)]%examine_elem; [by apply Hlt|].
      specialize (Hclosed nn Hnn_lt). rewrite Forall_forall in Hclosed. by apply Hclosed.
Qed.

Section constructor_facts.

Context {vec space matrix coef : Type}.
Local Abbreviation operator := (@operator vec space matrix coef).
Local Abbreviation StationaryModel := (@StationaryModel vec space matrix coef).

Variables (S : nat) (blocks : list (list (option operator))) (column : list (option operator)).
Variable dd_grid : DDGrid.

Hypothesis blocks_shape : shape S S blocks.
Hypothesis column_length : length column = S.

Lemma init_patches_loop (patches : list (list nat))
    (acc : list StationaryModel * list (Z → result nat) * list (nat → Z)) :
  Forall (Forall (λ I, I < S)) patches →
  ∃ models,
    for_each
      (λ '(patch_models, patch_mappings_to_global, patch_mappings_to_local) element_patch,
         '(patch_model, local_to_global, global_to_local) ←
           construct_local_model element_patch (BlockOperator blocks)
             (BlockColumnOperator column) (neighbors dd_grid);
         Ok (patch_models ++ [patch_model],
             patch_mappings_to_global ++ [local_to_global],
             patch_mappings_to_local ++ [global_to_local]))
      patches acc
    = Ok (acc.1.1 ++ models,
          acc.1.2 ++ (local_to_global_mapping <$> patches),
          acc.2 ++ (global_to_local_mapping <$> patches)) ∧
    length models = length patches.
Proof.
  intros Hall. revert acc.
  induction Hall as [|patch patches Hpatch _ IH]; intros [[pm tg] tl].
  - exists []. cbn. by rewrite !app_nil_r.
  - destruct (assemble_patch_spec S patch blocks column (neighbors dd_grid)
                blocks_shape column_length Hpatch) as (p & rhs & Hrun & _).
    assert (Hmodel : construct_local_model patch (BlockOperator blocks)
                       (BlockColumnOperator column) (neighbors dd_grid)
                     = Ok ({| model_operator := BlockOperator p;
                              model_rhs := BlockColumnOperator rhs |},
                           local_to_global_mapping patch,
                           global_to_local_mapping patch)).
    { unfold construct_local_model. cbn [op_blocks mbind result_bind]. by rewrite Hrun. }
    cbn [for_each]. rewrite Hmodel. cbn [mbind result_bind].
    destruct (IH (pm ++ [{| model_operator := BlockOperator p;
                            model_rhs := BlockColumnOperator rhs |}],
                  tg ++ [local_to_global_mapping patch],
                  tl ++ [global_to_local_mapping patch])) as (models & -> & Hlen).
    exists ({| model_operator := BlockOperator p;
               model_rhs := BlockColumnOperator rhs |} :: models).
    cbn [fst snd fmap list_fmap length]. rewrite <- !app_assoc. cbn [app].
    by rewrite Hlen.
Qed.

(** The constructor's loop over the element patches, on an [S]-by-[S] block
    operator, an [S]-block right-hand side and a grid of [S] subdomains whose
    adjacency stays below [S]: it returns one patch model and one pair of
    mappings per subdomain, and for every subdomain [I] the local position
    of [I] in its own patch is a real position, not the sentinel [-1], from
    which the mapping to global gives [I] back.  So the block
    [phi.block(mapping_to_local(I))] that [enrich_locally] adds to the basis
    of [I] is the block of [I]. *)
Theorem init_patches_own_subdomain :
  num_subdomains dd_grid = S →
  (∀ s, s < S → Forall (λ nn, nn < S) (neighbors dd_grid s)) →
  ∃ patch_models to_global to_local,
    init_patches dd_grid (BlockOperator blocks) (BlockColumnOperator column)
      = Ok (patch_models, to_global, to_local) ∧
    length patch_models = S ∧ length to_global = S ∧ length to_local = S ∧
    ∀ I, I < S →
      ∃ mapping_to_global mapping_to_local,
        to_global !! I = Some mapping_to_global ∧
        to_local !! I = Some mapping_to_local ∧
        (0 ≤ mapping_to_local I)%Z ∧
        mapping_to_global (mapping_to_local I) = Ok I.
Proof.
  intros HS Hclosed.
  destruct (init_patches_loop (construct_element_patches dd_grid) ([], [], []))
    as (models & Hrun & Hlen).
  { unfold construct_element_patches. apply Forall_fmap, Forall_forall.
    intros ss [_ Hss]%elem_of_seq. cbn. apply Forall_forall. intros x Hx%elem_of_elements.
    rewrite HS in Hss. by apply (element_patch_members dd_grid S ss). }
  assert (Hcount : length (construct_element_patches dd_grid) = S).
  { unfold construct_element_patches. by rewrite length_fmap, length_seq. }
  eexists _, _, _. split; [exact Hrun|]. cbn [fst snd app].
  rewrite !length_fmap, Hlen, Hcount. split_and!; try done.
  intros I HI. eexists _, _.
  rewrite !list_lookup_fmap. unfold construct_element_patches.
  rewrite list_lookup_fmap, lookup_seq_lt by lia. cbn [fmap option_fmap option_map].
  split; [done|]. split; [done|]. change (0 + I) with I.
  destruct (element_patch_members dd_grid S I Hclosed HI) as [Hown _].
  destruct (scan_elements_present (elements (element_patch dd_grid I)) 0 I)
    as (j & Hj & Hl); [by apply elem_of_elements|].
  unfold global_to_local_mapping. rewrite Hj. split; [lia|].
  unfold local_to_global_mapping, py_getitem. rewrite decide_True by lia.
  replace (Z.to_nat (Z.of_nat (0 + j))) with j by lia.
  by apply getitem_Ok.
Qed.

End constructor_facts.

(** ** The further properties at the small instances *)

Lemma construct_local_model_rhs_witness :
  ∃ patch_model patch_rhs,
    construct_local_model [1; 0] (BlockOperator two_blocks)
        (BlockColumnOperator two_column) two_neighbors
      = Ok (patch_model, local_to_global_mapping [1; 0], global_to_local_mapping [1; 0]) ∧
    model_rhs patch_model = BlockColumnOperator patch_rhs ∧
    getitem patch_rhs 0 = Ok (Some (term "rhs_1" 9)).
Proof.
  destruct (construct_local_model_rhs 2 [1; 0] two_blocks two_column two_neighbors)
    as (patch_model & patch_rhs & Hrun & Hrhs & _ & Hent).
  - split; [reflexivity|]. by repeat constructor.
  - reflexivity.
  - repeat constructor; lia.
  - exists patch_model, patch_rhs. split; [exact Hrun|]. split; [exact Hrhs|].
    by rewrite (Hent 0 1).
Defined.

Lemma construct_local_model_bounds_witness :
  (∃ out, construct_local_model [1; 0] (BlockOperator two_blocks)
            (BlockColumnOperator two_column) two_neighbors = Ok out) ∧
  ¬ (∃ out, construct_local_model [2] (BlockOperator two_blocks)
              (BlockColumnOperator two_column) two_neighbors = Ok out).
Proof.
  assert (Hsh : shape 2 2 two_blocks) by (split; [reflexivity|by repeat constructor]).
  split.
  - apply (construct_local_model_bounds 2 [1; 0] two_blocks two_column two_neighbors
             Hsh eq_refl).
    repeat constructor; lia.
  - intros Hout.
    apply (construct_local_model_bounds 2 [2] two_blocks two_column two_neighbors
             Hsh eq_refl) in Hout.
    apply Forall_inv in Hout. lia.
Defined.

Lemma local_to_global_of_sentinel_witness :
  local_to_global_mapping [1; 0] (global_to_local_mapping [1; 0] 7) = Ok 0.
Proof. apply (local_to_global_of_sentinel [1; 0] 7 0); [by_evaluation|reflexivity]. Defined.

Lemma construct_inner_node_patches_square_witness :
  ∃ patches,
    construct_inner_node_patches shuffled_grid = Ok patches ∧
    length patches = 4 ∧ (4, [4; 5; 7; 8]) ∈ patches.
Proof.
  destruct (construct_inner_node_patches_square shuffled_grid 3)
    as (patches & Hrun & Hlen & _ & Hchar & _); [reflexivity|].
  exists patches. split; [exact Hrun|]. split; [exact Hlen|].
  apply Hchar. exists 1, 1. split; [lia|]. split; [lia|]. split; reflexivity.
Defined.

Lemma estimator_domains_sorted_keys_witness :
  ∃ patches,
    construct_inner_node_patches shuffled_grid = Ok patches ∧
    merge_sort Nat.le (dict_keys (add_element_neighbors shuffled_grid patches))
      = [0; 1; 3; 4].
Proof.
  exists [(0, [0; 1; 3; 4]); (1, [1; 2; 4; 5]); (3, [3; 4; 6; 7]); (4, [4; 5; 7; 8])].
  split; [reflexivity|].
  destruct (estimator_domains_sorted_keys shuffled_grid
              [(0, [0; 1; 3; 4]); (1, [1; 2; 4; 5]); (3, [3; 4; 6; 7]); (4, [4; 5; 7; 8])])
    as [Hsorted _]; [reflexivity|].
  rewrite Hsorted. reflexivity.
Defined.

Lemma cached_rom_matches_snapshot_witness :
  let r := run_calls two_calls two_reductor in
  ∃ rom snapshot,
    _last_rom r = Some rom ∧
    reduced_local_bases r = Some snapshot ∧
    inherited_reduce snapshot = Ok (rom_content rom) ∧
    length snapshot = 2.
Proof.
  intros r.
  destruct (cached_rom_matches_snapshot two_calls two_reductor two_reductor_wf eq_refl
              (@Build_ROM Z () nat Z sample_collaborators 1 [[5%Z]; []]))
    as (snapshot & Hsnap & Hrom & Hlen & _); [reflexivity|].
  eexists _, snapshot. split; [reflexivity|]. split; [exact Hsnap|].
  split; [exact Hrom|exact Hlen].
Defined.

Lemma extension_invalidates_cache_iff_growth_witness :
  let r := (reduce (D:=()) None two_reductor).2 in
  stale (add_local_solutions 1 [5%Z] r).2 ∧
  ¬ stale (add_local_solutions 0 [5%Z] r).2.
Proof.
  intros r.
  assert (Hwf : wf r) by apply (keeps_wf_reduce two_reductor two_reductor_wf).
  split.
  - apply (extension_invalidates_cache_iff_growth r 1 [5%Z] [] [5%Z]);
      [exact Hwf|by_evaluation|eexists; reflexivity|reflexivity..|simpl; lia].
  - intros Hstale.
    apply (extension_invalidates_cache_iff_growth r 0 [5%Z] [5%Z] [5%Z]) in Hstale;
      [simpl in Hstale; lia|exact Hwf|by_evaluation|eexists; reflexivity|reflexivity..].
Defined.

Lemma remove_irrelevant_coupling_idempotent_witness :
  ∃ res,
    remove_irrelevant_coupling_from_patch_operator two_patch_model
        (local_to_global_mapping [0; 1]) = Ok (BlockOperator res) ∧
    remove_irrelevant_coupling_from_patch_operator
        {| model_operator := BlockOperator res; model_rhs := IdentityOperator () |}
        (local_to_global_mapping [0; 1]) = Ok (BlockOperator res).
Proof.
  apply (remove_irrelevant_coupling_idempotent 2 two_blocks (BlockColumnOperator two_column)
           (IdentityOperator ()) (local_to_global_mapping [0; 1]) [0; 1]).
  - split; [reflexivity|]. by repeat constructor.
  - reflexivity.
  - intros [|[|i]] Hi; [by eexists _, _..|lia].
Defined.

Lemma project_block_operator_blockwise_witness :
  ∃ out,
    project_block_operator sample_project sample_space (BlockOperator two_blocks)
        [[7%Z]; [8%Z]] [[7%Z]; [8%Z]] = Ok (BlockOperator out) ∧
    entry out 0 1 = Some (Some (term "coupling_0_1" 3)).
Proof.
  destruct (project_block_operator_blockwise sample_project sample_space 2 two_blocks
              [[7%Z]; [8%Z]] [[7%Z]; [8%Z]]) as (out & Hrun & _ & Hent).
  - split; [reflexivity|]. by repeat constructor.
  - reflexivity.
  - reflexivity.
  - exists out. split; [exact Hrun|]. by rewrite (Hent 0 1 [7%Z] [8%Z]).
Defined.

Lemma from_patch_to_global_blocks_witness :
  ∃ u_global,
    from_patch_to_global (λ _, [0%Z]) 0 [[1%Z]; [2%Z]] two_reductor
      = (Ok u_global, two_reductor) ∧
    u_global !! 1 = Some [2%Z].
Proof.
  destruct (from_patch_to_global_blocks (λ _, [0%Z]) 0 [[1%Z]; [2%Z]] [0; 1] two_reductor)
    as (u_global & Hrun & _ & Hin & _); [reflexivity..|].
  exists u_global. split; [exact Hrun|].
  rewrite (Hin 1 1); [reflexivity|simpl; lia|reflexivity|].
  intros [|jj] Hjj; [discriminate|lia].
Defined.

Lemma init_patches_own_subdomain_witness :
  ∃ patch_models to_global to_local,
    init_patches {| num_subdomains := 2; neighbors := two_neighbors |}
        (BlockOperator two_blocks) (BlockColumnOperator two_column)
      = Ok (patch_models, to_global, to_local) ∧
    ∃ mapping_to_global mapping_to_local,
      to_global !! 1 = Some mapping_to_global ∧
      to_local !! 1 = Some mapping_to_local ∧
      mapping_to_global (mapping_to_local 1) = Ok 1.
Proof.
  destruct (init_patches_own_subdomain 2 two_blocks two_column
              {| num_subdomains := 2; neighbors := two_neighbors |})
    as (patch_models & to_global & to_local & Hrun & _ & _ & _ & Hown).
  - split; [reflexivity|]. by repeat constructor.
  - reflexivity.
  - reflexivity.
  - intros [|[|s]] Hs; [repeat constructor; lia..|lia].
  - exists patch_models, to_global, to_local. split; [exact Hrun|].
    destruct (Hown 1) as (g & l & Hg & Hl & _ & Hback); [lia|].
    by exists g, l.
Defined.


